(** * Ren'Py statement core (renpy/ast.py): a shallow embedding

    The development follows the layout of [renpy/ast.py]:
    - outcomes of Python calls ([Result]: a value or a raised exception)
      and the monad [M] of calls that read and write the session;
    - [Reach]: the reachability engine [get_reachable_nodes];
    - [Chaining]: the chaining pass ([chain], [chain_block]) and [While];
      [Script]: the engine run on a chained script;
    - [Execution]: the script table and the call stack of the context;
    - [ReturnStmt], [Transfer], [MenuStmt]: the control-transfer
      statements [Return], [Call], [Jump] and [Menu];
    - [Translation]: [Translate], [TranslateSay] and [EndTranslate];
    - [Diff]: the fingerprints [diff_info];
    - [Scrying]: the look-ahead [scry] and [Scry.next].

    Node objects are mutable Python objects.  Object identity is a
    [positive] address; a statement refers to other nodes by address, and
    the mutable [next] attribute lives in a store indexed by address where
    the chaining pass writes it. *)

From Stdlib Require Import Ascii.
From stdpp Require Import base option list gmap strings.


(** ** Outcomes of a Python call *)

Inductive Exn : Type :=
| Exception (msg : string)       (* a plain [Exception(msg)] raised by ast.py *)
| AttributeError                 (* attribute access on [None] *)
| IndexError                     (* [block[0]] on an empty list *)
| TypeError                      (* subscripting [None] *)
| ScriptError (label : string)   (* raised by the script's [lookup] *)
| EvalError.                     (* anything raised by the expression evaluator *)

Inductive Result (A : Type) : Type :=
| Ok (a : A)
| Raise (e : Exn).
Arguments Ok {A} a.
Arguments Raise {A} e.

Definition raises {A} (r : Result A) : Prop :=
  match r with Ok _ => False | Raise _ => True end.

(** Sequencing: an exception raised by the first call skips the rest. *)
#[export] Instance Result_ret : MRet Result := λ A a, Ok a.
#[export] Instance Result_bind : MBind Result :=
  λ A B k r, match r with Ok a => k a | Raise e => Raise e end.

(** ** The reachability engine *)

Module Reach.
Section engine.
(** [Node.__hash__] and [Node.__eq__] delegate to the node's name, so the
    [seen] set of the engine is a set of names. *)
Context {Node Name : Type} `{Countable Name}.
Variable name : Node → Name.
(** [node.get_reachable()], dispatched on the class of the node.  The
    engine is the traversal of a graph whose [get_reachable] calls return
    their list: a call that raises aborts the traversal with that
    exception. *)
Variable get_reachable : Node → list Node.

Definition _reach_any (source target : Node) : bool := true.

(** The inner [for n in node.get_reachable()] loop, appending to the
    worklist. *)
Definition scan (node_validator : Node → Node → bool) (node : Node)
    (seen : gset Name) (worklist : list Node) : list Node :=
  fold_left
    (λ wl n,
       if decide (name n ∈ seen) then wl
       else if negb (node_validator node n) then wl
       else wl ++ [n])
    (get_reachable node) worklist.

(** The [while worklist] loop.  [fuel] bounds the number of iterations;
    [None] means the bound was hit. *)
Fixpoint loop (fuel : nat) (node_validator : Node → Node → bool)
    (worklist : list Node) (seen : gset Name) (result : list Node)
    : option (list Node * gset Name) :=
  match fuel with
  | O => None
  | S fuel' =>
      match worklist with
      | [] => Some (result, seen)
      | node :: worklist' =>
          if decide (name node ∈ seen) then
            loop fuel' node_validator worklist' seen result
          else
            let seen' := {[name node]} ∪ seen in
            let result' := result ++ [node] in
            loop fuel' node_validator
              (scan node_validator node seen' worklist') seen' result'
      end
  end.

(** [get_reachable_nodes(entry_nodes, node_validator, seen)].  The second
    component is the content of the [seen] set on return (the caller's
    set is updated in place when one is passed). *)
Definition get_reachable_nodes (fuel : nat) (entry_nodes : list Node)
    (node_validator : Node → Node → bool) (seen : option (gset Name))
    : option (list Node * gset Name) :=
  loop fuel node_validator entry_nodes (default ∅ seen) [].

(** *** Vocabulary for the statements *)

Definition names (l : list Node) : gset Name := list_to_set (name <$> l).

(** Admissible successors of a node, in [get_reachable] order. *)
Definition succs (node_validator : Node → Node → bool) (node : Node) : list Node :=
  filter (λ n, node_validator node n = true) (get_reachable node).

(** First occurrences (by name) of the nodes of [l] not named in [seen]. *)
Fixpoint first_occ (seen : gset Name) (l : list Node) : list Node :=
  match l with
  | [] => []
  | x :: l' =>
      if decide (name x ∈ seen) then first_occ seen l'
      else x :: first_occ ({[name x]} ∪ seen) l'
  end.

(** The order in which nodes enter the queue: the entry nodes, then the
    admissible successors of each visited node, in visiting order. *)
Definition discovery (node_validator : Node → Node → bool)
    (entry_nodes visited : list Node) : list Node :=
  entry_nodes ++ flat_map (succs node_validator) visited.

(** Every node but the entries has a discoverer strictly before it. *)
Definition discovered_in_order (node_validator : Node → Node → bool)
    (entry_nodes r : list Node) : Prop :=
  ∀ p x s, r = p ++ x :: s →
    x ∈ entry_nodes ∨ ∃ v, v ∈ p ∧ x ∈ succs node_validator v.

(** Breadth-first discovery order from [entry_nodes]: no name twice, the
    nodes in the order they first enter the queue, each found from a node
    before it. *)
Definition bfs_order (node_validator : Node → Node → bool)
    (entry_nodes r : list Node) : Prop :=
  NoDup (name <$> r) ∧
  r = first_occ ∅ (discovery node_validator entry_nodes r) ∧
  discovered_in_order node_validator entry_nodes r.

(** Fuel that always suffices on a graph whose nodes are among [U]. *)
Definition weight (U : list Node) (seen : gset Name) : nat :=
  sum_list_with
    (λ u, if decide (name u ∈ seen) then 0 else S (length (get_reachable u))) U.

Definition enough_fuel (U entry_nodes : list Node) : nat :=
  S (length entry_nodes + weight U ∅).

Definition closed (U : list Node) : Prop :=
  ∀ n m, n ∈ U → m ∈ get_reachable n → m ∈ U.

(** Every queued node is an entry or an admissible successor of a visited
    node. *)
Definition frontier_ok (node_validator : Node → Node → bool)
    (entry_nodes result worklist : list Node) : Prop :=
  ∀ x, x ∈ worklist →
    x ∈ entry_nodes ∨ ∃ u, u ∈ result ∧ x ∈ succs node_validator u.

(** *** Facts about [scan] and [first_occ] *)

Lemma scan_filter v node seen wl :
  scan v node seen wl =
  wl ++ filter (λ n, name n ∉ seen ∧ v node n = true) (get_reachable node).
Proof.
  unfold scan. generalize (get_reachable node) as l. intros l.
  revert wl. induction l as [|n l IH]; intros wl; simpl.
  - by rewrite app_nil_r.
  - rewrite filter_cons. destruct (decide (name n ∈ seen)) as [Hin|Hin].
    + rewrite IH. rewrite decide_False by tauto. done.
    + destruct (v node n) eqn:Hv; simpl.
      * rewrite IH. rewrite decide_True by tauto. by rewrite <- app_assoc.
      * rewrite IH. rewrite decide_False by (intros [_ ?]; done). done.
Qed.

Lemma names_nil : names [] = ∅.
Proof. done. Qed.

Lemma names_cons x l : names (x :: l) = {[name x]} ∪ names l.
Proof. done. Qed.

Lemma names_app a b : names (a ++ b) = names a ∪ names b.
Proof. unfold names. rewrite fmap_app. apply leibniz_equiv, list_to_set_app. Qed.

Lemma elem_of_names x l : x ∈ l → name x ∈ names l.
Proof.
  intros Hx. unfold names. apply elem_of_list_to_set, list_elem_of_fmap. eauto.
Qed.

Lemma first_occ_app s a b :
  first_occ s (a ++ b) = first_occ s a ++ first_occ (names a ∪ s) b.
Proof.
  revert s. induction a as [|x a IH]; intros s; simpl.
  - rewrite names_nil. by replace (∅ ∪ s) with s by set_solver.
  - rewrite names_cons. destruct (decide (name x ∈ s)).
    + rewrite IH. by replace ({[name x]} ∪ names a ∪ s) with (names a ∪ s) by set_solver.
    + simpl. rewrite IH.
      by replace ({[name x]} ∪ names a ∪ s) with (names a ∪ ({[name x]} ∪ s)) by set_solver.
Qed.

Lemma first_occ_names s l : names (first_occ s l) ∪ s = names l ∪ s.
Proof.
  revert s. induction l as [|x l IH]; intros s; simpl; [done|].
  rewrite names_cons. destruct (decide (name x ∈ s)).
  - rewrite IH. set_solver.
  - rewrite names_cons.
    replace ({[name x]} ∪ names (first_occ ({[name x]} ∪ s) l) ∪ s)
      with (names (first_occ ({[name x]} ∪ s) l) ∪ ({[name x]} ∪ s)) by set_solver.
    rewrite IH. set_solver.
Qed.

Lemma first_occ_prefix_cong s a a' c :
  first_occ s a = first_occ s a' →
  first_occ s (a ++ c) = first_occ s (a' ++ c).
Proof.
  intros Heq. rewrite !first_occ_app, Heq. f_equal.
  rewrite <- (first_occ_names s a), <- (first_occ_names s a'). by rewrite Heq.
Qed.

Lemma first_occ_drop_seen (P : Node → bool) s s' l :
  s' ⊆ s →
  first_occ s (filter (λ n, name n ∉ s' ∧ P n = true) l) =
  first_occ s (filter (λ n, P n = true) l).
Proof.
  revert s. induction l as [|x l IH]; intros s Hsub; [done|].
  rewrite !filter_cons.
  destruct (decide (name x ∉ s' ∧ P x = true)) as [[Hx HP]|Hno].
  - rewrite decide_True by done. simpl.
    destruct (decide (name x ∈ s)); [by apply IH|].
    f_equal. apply IH. set_solver.
  - destruct (decide (P x = true)) as [HP|HP]; [|by apply IH].
    assert (name x ∈ s') as Hx.
    { destruct (decide (name x ∈ s')); [done|]. exfalso. apply Hno. done. }
    simpl. rewrite decide_True by set_solver. by apply IH.
Qed.

Lemma first_occ_snoc_fresh s r x :
  first_occ s r = r → name x ∉ names r ∪ s →
  first_occ s (r ++ [x]) = r ++ [x].
Proof.
  intros Hr Hx. rewrite first_occ_app, Hr. f_equal. simpl.
  by rewrite decide_False.
Qed.

Lemma first_occ_snoc_seen s r x :
  name x ∈ names r ∪ s → first_occ s (r ++ [x]) = first_occ s r.
Proof.
  intros Hx. rewrite first_occ_app. simpl. rewrite decide_True by done.
  by rewrite app_nil_r.
Qed.

Lemma first_occ_length s l : length (first_occ s l) ≤ length l.
Proof.
  revert s. induction l as [|y l IH]; intros s; simpl; [lia|].
  destruct (decide (name y ∈ s)); simpl;
    [specialize (IH s) | specialize (IH ({[name y]} ∪ s))]; lia.
Qed.

Lemma first_occ_fixed s r :
  first_occ s r = r → NoDup (name <$> r) ∧ ∀ x, x ∈ r → name x ∉ s.
Proof.
  revert s. induction r as [|x r IH]; intros s Hr; simpl in *.
  - split; [constructor|]. intros x Hx. by apply elem_of_nil in Hx.
  - destruct (decide (name x ∈ s)) as [Hin|Hin].
    + exfalso. pose proof (first_occ_length s r) as Hle.
      rewrite Hr in Hle. simpl in Hle. lia.
    + injection Hr as Hr. destruct (IH _ Hr) as [Hnd Hs]. split.
      * constructor; [|done]. intros Hx.
        apply list_elem_of_fmap in Hx as (y & Hy & Hyr).
        apply (Hs y Hyr). rewrite <- Hy. set_solver.
      * intros y Hy. apply elem_of_cons in Hy as [->|Hy]; [done|].
        specialize (Hs y Hy). set_solver.
Qed.

(** *** The loop invariant *)

Lemma snoc_split (result p s : list Node) node x :
  result ++ [node] = p ++ x :: s →
  (p = result ∧ x = node ∧ s = []) ∨
  (∃ s', s = s' ++ [node] ∧ result = p ++ x :: s').
Proof.
  destruct s as [|y s _] using rev_ind; intros Heq.
  - left. apply (app_inj_tail result p node x) in Heq as [-> ->]. done.
  - right. exists s. rewrite app_comm_cons, app_assoc in Heq.
    apply app_inj_tail in Heq as [-> ->]. done.
Qed.

Lemma discovered_snoc v entries result node :
  discovered_in_order v entries result →
  (node ∈ entries ∨ ∃ u, u ∈ result ∧ node ∈ succs v u) →
  discovered_in_order v entries (result ++ [node]).
Proof.
  intros Hd Hnode p x s Heq.
  apply snoc_split in Heq as [(-> & -> & ->)|(s' & -> & ->)]; [done|].
  by eapply Hd.
Qed.

Lemma loop_inv v entries s0 fuel :
  ∀ wl seen result r seen',
    loop fuel v wl seen result = Some (r, seen') →
    seen = names result ∪ s0 →
    first_occ s0 result = result →
    first_occ s0 (result ++ wl) = first_occ s0 (discovery v entries result) →
    discovered_in_order v entries result →
    frontier_ok v entries result wl →
    seen' = names r ∪ s0 ∧ first_occ s0 r = r ∧
    r = first_occ s0 (discovery v entries r) ∧
    discovered_in_order v entries r.
Proof.
  induction fuel as [|fuel IH]; intros wl seen result r seen' Hloop Hseen Hres Hq Hd Hf;
    simpl in Hloop; [done|].
  destruct wl as [|node wl].
  - injection Hloop as <- <-. rewrite app_nil_r, Hres in Hq. done.
  - destruct (decide (name node ∈ seen)) as [Hin|Hin].
    + eapply IH; eauto.
      * rewrite <- Hq, (first_occ_app s0 result (node :: wl)). simpl.
        rewrite decide_True by (by rewrite <- Hseen). by rewrite first_occ_app.
      * intros x Hx. apply Hf. by right.
    + assert (node ∈ entries ∨ ∃ u, u ∈ result ∧ node ∈ succs v u) as Hnode
        by (apply Hf; by left).
      eapply IH; eauto.
      * rewrite names_app, names_cons, names_nil, Hseen. set_solver.
      * apply first_occ_snoc_fresh; [done|]. by rewrite <- Hseen.
      * rewrite scan_filter. unfold discovery in *.
        rewrite flat_map_app. simpl. rewrite app_nil_r, (app_assoc entries).
        rewrite <- (first_occ_prefix_cong s0 _ _ (succs v node) Hq).
        replace ((result ++ [node]) ++ wl ++
                 filter (λ n, name n ∉ {[name node]} ∪ seen ∧ v node n = true)
                   (get_reachable node))
          with ((result ++ node :: wl) ++
                 filter (λ n, name n ∉ {[name node]} ∪ seen ∧ v node n = true)
                   (get_reachable node))
          by (by rewrite <- !app_assoc).
        rewrite !(first_occ_app s0 (result ++ node :: wl)). f_equal.
        apply (first_occ_drop_seen (v node)).
        rewrite names_app, names_cons, Hseen. set_solver.
      * by apply discovered_snoc.
      * intros x Hx. rewrite scan_filter in Hx.
        apply elem_of_app in Hx as [Hx|Hx].
        -- destruct (Hf x) as [?|(u & Hu & Hxu)]; [by right|by left|].
           right. exists u. split; [|done]. apply elem_of_app. by left.
        -- right. exists node. split; [apply elem_of_app; right; by left|].
           apply list_elem_of_filter in Hx as [[_ Hv] Hx].
           apply list_elem_of_filter. done.
Qed.

(** *** Termination *)

Lemma loop_fuel_mono v fuel :
  ∀ fuel' wl seen result out,
    loop fuel v wl seen result = Some out → fuel ≤ fuel' →
    loop fuel' v wl seen result = Some out.
Proof.
  induction fuel as [|fuel IH]; intros fuel' wl seen result out Hl Hle; [done|].
  destruct fuel' as [|fuel']; [lia|]. simpl in *.
  destruct wl as [|node wl]; [done|].
  destruct (decide (name node ∈ seen)); apply IH; try done; lia.
Qed.

Lemma weight_mono U s k : weight U ({[k]} ∪ s) ≤ weight U s.
Proof.
  induction U as [|u U IH]; simpl; [done|].
  destruct (decide (name u ∈ s)).
  - rewrite decide_True by set_solver. lia.
  - destruct (decide (name u ∈ {[k]} ∪ s)); lia.
Qed.

Lemma weight_visit U s node :
  node ∈ U → name node ∉ s →
  weight U ({[name node]} ∪ s) + S (length (get_reachable node)) ≤ weight U s.
Proof.
  intros Hin Hs. induction U as [|u U IH]; [by apply elem_of_nil in Hin|].
  simpl. apply elem_of_cons in Hin as [<-|Hin].
  - rewrite decide_True by set_solver. rewrite decide_False by done.
    pose proof (weight_mono U s (name node)). lia.
  - specialize (IH Hin). destruct (decide (name u ∈ s)).
    + rewrite decide_True by set_solver. lia.
    + destruct (decide (name u ∈ {[name node]} ∪ s)); lia.
Qed.

Lemma loop_terminates U v :
  closed U →
  ∀ fuel wl seen result,
    (∀ x, x ∈ wl → x ∈ U) →
    length wl + weight U seen < fuel →
    is_Some (loop fuel v wl seen result).
Proof.
  intros Hcl. induction fuel as [|fuel IH]; intros wl seen result HU Hlt; [lia|].
  simpl. destruct wl as [|node wl]; [by eexists|].
  destruct (decide (name node ∈ seen)) as [Hin|Hin].
  - apply IH; [intros x Hx; apply HU; by right|simpl in Hlt; lia].
  - assert (node ∈ U) as HnU by (apply HU; by left).
    apply IH.
    + intros x Hx. rewrite scan_filter in Hx.
      apply elem_of_app in Hx as [Hx|Hx]; [apply HU; by right|].
      apply list_elem_of_filter in Hx as [_ Hx]. by eapply Hcl.
    + rewrite scan_filter, length_app.
      pose proof (length_filter
        (λ n, name n ∉ {[name node]} ∪ seen ∧ v node n = true) (get_reachable node)).
      pose proof (weight_visit U seen node HnU Hin). simpl in Hlt. lia.
Qed.

(** *** The discovery order is unique *)

Lemma first_occ_filter s t l :
  first_occ (s ∪ t) l = filter (λ x, name x ∉ s) (first_occ t l).
Proof.
  revert t. induction l as [|x l IH]; intros t; simpl; [done|].
  destruct (decide (name x ∈ t)) as [Ht|Ht].
  - rewrite decide_True by set_solver. apply IH.
  - destruct (decide (name x ∈ s)) as [Hs|Hs].
    + rewrite decide_True by set_solver.
      rewrite filter_cons_False by tauto. rewrite <- IH.
      f_equal. set_solver.
    + rewrite decide_False by set_solver.
      rewrite filter_cons_True by done. rewrite <- IH.
      do 2 f_equal. set_solver.
Qed.

Lemma first_occ_elem s l y : y ∈ first_occ s l → y ∈ l ∧ name y ∉ s.
Proof.
  revert s. induction l as [|x l IH]; intros s Hy; simpl in Hy.
  - by apply elem_of_nil in Hy.
  - destruct (decide (name x ∈ s)) as [Hs|Hs].
    + apply IH in Hy as [? ?]. split; [by right|done].
    + apply elem_of_cons in Hy as [->|Hy]; [split; [by left|done]|].
      apply IH in Hy as [? ?]. split; [by right|set_solver].
Qed.

Lemma filter_seen (s : gset Name) (p : list Node) :
  names p ⊆ s → filter (λ x, name x ∉ s) p = [].
Proof.
  induction p as [|x p IH]; intros Hsub; [done|].
  rewrite names_cons in Hsub.
  rewrite filter_cons_False by (intros Hn; apply Hn; set_solver).
  apply IH. set_solver.
Qed.

Lemma filter_all_seen (p : list Node) :
  filter (λ x, name x ∉ names p) p = [].
Proof. by apply filter_seen. Qed.

(** In a discovery order, the node after a prefix [p] is the first node
    outside [p] that [p] discovers. *)
Lemma bfs_order_next v entries r p x s :
  bfs_order v entries r → r = p ++ x :: s →
  head (first_occ (names p) (discovery v entries p)) = Some x.
Proof.
  intros (Hnd & Hfix & Hord) Hr.
  assert (x ∈ discovery v entries p) as Hx.
  { destruct (Hord p x s Hr) as [?|(u & Hu & Hxu)]; unfold discovery.
    - apply elem_of_app. by left.
    - apply elem_of_app. right. apply list_elem_of_In, in_flat_map.
      exists u. split; by apply list_elem_of_In. }
  assert (name x ∉ names p) as Hfresh.
  { rewrite Hr, fmap_app, fmap_cons in Hnd.
    apply NoDup_app in Hnd as (_ & Hdisj & _).
    intros Hin. unfold names in Hin. apply elem_of_list_to_set in Hin.
    apply (Hdisj _ Hin). by left. }
  assert (discovery v entries r
          = discovery v entries p ++ (succs v x ++ flat_map (succs v) s)) as Hsplit.
  { unfold discovery. rewrite Hr, flat_map_app. simpl. by rewrite <- app_assoc. }
  rewrite Hsplit, first_occ_app in Hfix.
  assert (x ∉ first_occ (names (discovery v entries p) ∪ ∅)
                (succs v x ++ flat_map (succs v) s)) as Hlate.
  { intros Hin. apply first_occ_elem in Hin as [_ Hn]. apply Hn.
    apply elem_of_union_l. by apply elem_of_names. }
  rewrite Hr in Hfix at 1.
  apply app_eq_inv in Hfix as [(k & Hp & Hk)|(k & Hk & Hp)].
  - exfalso. apply Hlate. rewrite Hk. apply elem_of_app. right. by left.
  - destruct k as [|y k]; simpl in Hp.
    + exfalso. apply Hlate. rewrite <- Hp. by left.
    + injection Hp as <- Hp.
      replace (names p) with (names p ∪ ∅) by set_solver.
      rewrite first_occ_filter, Hk, filter_app, filter_all_seen. simpl.
      by rewrite filter_cons_True.
Qed.

Lemma bfs_order_take v entries r1 r2 n :
  bfs_order v entries r1 → bfs_order v entries r2 →
  take n r1 = take n r2.
Proof.
  intros H1 H2. induction n as [|n IH]; [done|].
  assert (∀ ra rb x, bfs_order v entries ra → bfs_order v entries rb →
            take n ra = take n rb → ra !! n = Some x → rb !! n = None → False)
    as Hshort.
  { intros ra rb x Ha Hb Htake Hx Hnone.
    pose proof (bfs_order_next v entries ra (take n ra) x (drop (S n) ra) Ha
                  (eq_sym (take_drop_middle ra n x Hx))) as Hhead.
    assert (x ∈ first_occ (names (take n ra)) (discovery v entries (take n ra)))
      as Hin.
    { destruct (first_occ (names (take n ra)) (discovery v entries (take n ra)));
        [done|]. injection Hhead as ->. by left. }
    apply first_occ_elem in Hin as [Hin Hfresh].
    apply lookup_ge_None in Hnone.
    rewrite Htake, (take_ge rb n Hnone) in Hin, Hfresh.
    destruct Hb as (_ & Hfix & _).
    apply Hfresh. apply elem_of_names with (l := discovery v entries rb) in Hin.
    pose proof (first_occ_names ∅ (discovery v entries rb)) as Hn.
    rewrite <- Hfix in Hn. rewrite !(right_id_L ∅ (∪)) in Hn.
    by rewrite Hn. }
  destruct (r1 !! n) as [x1|] eqn:Hx1; destruct (r2 !! n) as [x2|] eqn:Hx2.
  - pose proof (bfs_order_next v entries r1 (take n r1) x1 (drop (S n) r1) H1
                  (eq_sym (take_drop_middle r1 n x1 Hx1))) as Hh1.
    pose proof (bfs_order_next v entries r2 (take n r2) x2 (drop (S n) r2) H2
                  (eq_sym (take_drop_middle r2 n x2 Hx2))) as Hh2.
    rewrite IH, Hh2 in Hh1. injection Hh1 as <-.
    by rewrite (take_S_r r1 n x2 Hx1), (take_S_r r2 n x2 Hx2), IH.
  - exfalso. by eapply (Hshort r1 r2).
  - exfalso. by eapply (Hshort r2 r1).
  - apply lookup_ge_None in Hx1, Hx2.
    rewrite (take_ge r1), (take_ge r2) by lia.
    by rewrite <- (take_ge r1 n), <- (take_ge r2 n).
Qed.

Lemma bfs_order_unique v entries r1 r2 :
  bfs_order v entries r1 → bfs_order v entries r2 → r1 = r2.
Proof.
  intros H1 H2.
  pose proof (bfs_order_take v entries r1 r2 (length r1 + length r2) H1 H2) as Ht.
  by rewrite (take_ge r1), (take_ge r2) in Ht by lia.
Qed.

(** *** The engine's contract *)

(** C1. On a node graph whose nodes all lie in a finite list [U] (cycles
    allowed), [get_reachable_nodes] with the default [seen] returns once the
    fuel covers [enough_fuel], and every such call returns the same list [r].
    No two nodes of [r] share a name; [r] lists the nodes in the order they
    first enter the queue, that is [r] is the first occurrences of the entry
    nodes followed by the admissible successors of [r]'s own nodes in
    visiting order; so [r] starts with the entry nodes in their given order
    without duplicates, and each later node was discovered from a node
    strictly before it.  No other list is in breadth-first discovery order
    for these entry nodes and this filter. *)
Theorem get_reachable_nodes_bfs (U entry_nodes : list Node)
    (node_validator : Node → Node → bool) :
  closed U →
  (∀ x, x ∈ entry_nodes → x ∈ U) →
  ∃ r,
    (∀ fuel, enough_fuel U entry_nodes ≤ fuel →
       get_reachable_nodes fuel entry_nodes node_validator None
       = Some (r, names r)) ∧
    NoDup (name <$> r) ∧
    r = first_occ ∅ (discovery node_validator entry_nodes r) ∧
    (∃ rest, r = first_occ ∅ entry_nodes ++ rest ∧
             ∀ x, x ∈ rest → name x ∉ names entry_nodes) ∧
    discovered_in_order node_validator entry_nodes r ∧
    (∀ r', bfs_order node_validator entry_nodes r' → r' = r).
Proof.
  intros Hcl HU.
  destruct (loop_terminates U node_validator Hcl (enough_fuel U entry_nodes)
              entry_nodes ∅ [] HU) as [[r seen'] Hrun];
    [unfold enough_fuel; lia|].
  destruct (loop_inv node_validator entry_nodes ∅ _ _ _ _ _ _ Hrun)
    as (Hseen & Hfix & Hdisc & Hord).
  - rewrite names_nil. set_solver.
  - done.
  - unfold discovery. simpl. by rewrite app_nil_r.
  - intros p x s Heq. by destruct p.
  - intros x Hx. by left.
  - assert (NoDup (name <$> r)) as Hnd by (by apply (first_occ_fixed ∅)).
    exists r. split; [|split; [|split; [|split; [|split]]]].
    + intros fuel Hfuel. unfold get_reachable_nodes. simpl.
      rewrite (loop_fuel_mono _ _ _ _ _ _ _ Hrun Hfuel).
      rewrite Hseen. do 2 f_equal. set_solver.
    + done.
    + done.
    + exists (first_occ (names entry_nodes ∪ ∅)
                (flat_map (succs node_validator) r)). split.
      * rewrite Hdisc at 1. unfold discovery. by rewrite first_occ_app.
      * intros x Hx. apply first_occ_elem in Hx as [_ Hx]. set_solver.
    + done.
    + intros r' Hr'. by apply (bfs_order_unique node_validator entry_nodes).
Qed.

End engine.
End Reach.

(** ** Values, names and the interpreter state *)

(** The Python values the statements inspect. *)
Inductive Value : Type :=
| VNone
| VBool (b : bool)
| VInt (z : Z)
| VStr (s : string)
| VObj (id : positive) (truth : bool). (* any other object, with its truth value *)

(** Python truthiness, as used by [if expr:]. *)
Definition truthy (v : Value) : bool :=
  match v with
  | VNone => false
  | VBool b => b
  | VInt z => negb (z =? 0)%Z
  | VStr s => negb (String.eqb s "")
  | VObj _ truth => truth
  end.

(** [Node.name]: a label, a (filename, version, serial) triple, or [None]
    (rendered as [option NodeName]). *)
Inductive NodeName : Type :=
| LabelName (label : string)
| SerialName (filename : string) (version serial : nat).

#[export] Instance NodeName_eq_dec : EqDecision NodeName.
Proof. solve_decision. Defined.

#[export] Instance NodeName_countable : Countable NodeName.
Proof.
  refine (inj_countable'
    (λ n, match n with
          | LabelName l => inl l
          | SerialName f v s => inr (f, v, s)
          end)
    (λ x, match x with
          | inl l => LabelName l
          | inr (f, v, s) => SerialName f v s
          end) _).
  by intros [].
Defined.

(** [renpy.game.context()]: the fields ast.py reads and writes.  Nodes are
    held by reference (their address). *)
Record Context : Type := mkContext {
  next_node_ : option positive;
  return_stack : list (option NodeName);
  dynamic_stack : list (gmap string Value);
  abnormal : bool;
  init_phase : bool;
  translate_identifier : option string;
  alternate_translate_identifier : option string;
}.

(** The [renpy.config] variables the statements consult. *)
Record Config : Type := mkConfig {
  developer : bool;
  hash_seen : bool;
  narrator_menu : bool;
  choice_empty_window : bool;
  say_menu_text_filter : option (string → string);
}.

(** A key of [persistent._seen_translates]: an identifier or its 64-bit
    hash (a Python [str] never equals an [int]). *)
Inductive SeenKey : Type :=
| RawKey (identifier : string)
| HashedKey (h : Z).

#[export] Instance SeenKey_eq_dec : EqDecision SeenKey.
Proof. solve_decision. Defined.

#[export] Instance SeenKey_countable : Countable SeenKey.
Proof.
  refine (inj_countable'
    (λ k, match k with RawKey s => inl s | HashedKey h => inr h end)
    (λ x, match x with inl s => RawKey s | inr h => HashedKey h end) _).
  by intros [].
Defined.

(** The process-wide state touched by [execute]. *)
Record State : Type := mkState {
  context : Context;
  store : gmap string Value;                (* the [renpy.store] namespace *)
  config : Config;
  current_statement_name : string;
  seen_translates : gset SeenKey;           (* persistent._seen_translates *)
  seen_translates_count : Z;                (* renpy.game.seen_translates_count *)
  new_translates_count : Z;                 (* renpy.game.new_translates_count *)
}.

(** A Python call: it returns or raises, and its writes to the state stay
    in either case. *)
Definition M (A : Type) : Type := State → Result A * State.

#[export] Instance M_ret : MRet M := λ A a st, (Ok a, st).
#[export] Instance M_bind : MBind M :=
  λ A B k m st,
    match m st with
    | (Ok a, st') => k a st'
    | (Raise e, st') => (Raise e, st')
    end.

Definition raise {A} (e : Exn) : M A := λ st, (Raise e, st).
Definition gets {A} (f : State → A) : M A := λ st, (Ok (f st), st).
Definition modify (f : State → State) : M unit := λ st, (Ok tt, f st).

(** [try: body finally: cleanup] where the cleanup itself does not raise. *)
Definition finally {A} (body : M A) (cleanup : State → State) : M A :=
  λ st, let '(r, st') := body st in (r, cleanup st').

(** *** Field updates *)

Definition with_context (f : Context → Context) (st : State) : State :=
  mkState (f (context st)) (store st) (config st) (current_statement_name st)
    (seen_translates st) (seen_translates_count st) (new_translates_count st).

Definition with_store (f : gmap string Value → gmap string Value) (st : State) : State :=
  mkState (context st) (f (store st)) (config st) (current_statement_name st)
    (seen_translates st) (seen_translates_count st) (new_translates_count st).

Definition set_next_node (n : option positive) (c : Context) : Context :=
  mkContext n (return_stack c) (dynamic_stack c) (abnormal c) (init_phase c)
    (translate_identifier c) (alternate_translate_identifier c).

Definition set_abnormal (b : bool) (c : Context) : Context :=
  mkContext (next_node_ c) (return_stack c) (dynamic_stack c) b (init_phase c)
    (translate_identifier c) (alternate_translate_identifier c).

Definition set_translate_identifiers (i alt : option string) (c : Context) : Context :=
  mkContext (next_node_ c) (return_stack c) (dynamic_stack c) (abnormal c)
    (init_phase c) i alt.

(** [next_node(n)]: [renpy.game.context().next_node = n]. *)
Definition next_node (n : option positive) : M unit :=
  modify (with_context (set_next_node n)).

(** [statement_name(name)]: records the name of the running statement (the
    registered callbacks are outside the core). *)
Definition statement_name (name : string) : M unit :=
  modify (λ st,
    mkState (context st) (store st) (config st) name
      (seen_translates st) (seen_translates_count st) (new_translates_count st)).

(** [renpy.python.py_eval] is the external evaluator: it works against the
    variable namespace, may change it, and may raise. *)
Definition Evaluator : Type :=
  string → gmap string Value → Result Value * gmap string Value.

Definition eval (py_eval : Evaluator) (source : string) : M Value :=
  λ st, let '(r, s') := py_eval source (store st) in (r, with_store (λ _, s') st).

(** *** A session at start-up, and a small evaluator, for the examples *)

Definition fresh_context : Context :=
  mkContext None [] [] false false None None.

Definition default_config : Config :=
  mkConfig false false false false None.

Definition fresh_state : State :=
  mkState fresh_context ∅ default_config "init" ∅ 0 0.

(** An evaluator that knows variable names only: a name evaluates to its
    value in the namespace, anything else raises. *)
Definition lookup_eval : Evaluator :=
  λ source s,
    match s !! source with
    | Some v => (Ok v, s)
    | None => (Raise EvalError, s)
    end.

(** ** Chaining, and the [While] statement *)

Module Chaining.

(** The statements, by what their [chain] method does.  The blocks of a
    container hold its children; [a] is the identity of the node object.
    [Pass] stands for every statement that inherits both [Node.chain] and
    [Node.get_reachable] ([Pass], [Say], [Python], [Show], ...); [Call]
    and [TranslateSay] inherit [Node.chain] as well and have a
    [get_reachable] of their own.  [TranslateBlock] includes its subclass
    [TranslateEarlyBlock]. *)
Inductive Node : Type :=
| Pass (a : positive)
| Label (a : positive) (name : string) (block : list Node)
| Jump (a : positive) (target : string) (expression : bool)
| Return (a : positive) (expression : option string)
| While (a : positive) (condition : string) (block : list Node)
| If (a : positive) (entries : list (string * list Node))
| Menu (a : positive) (items : list (string * string * option (list Node)))
| Init (a : positive) (block : list Node)
| UserStatement (a : positive) (code_block : option (list Node))
    (subparses : list (list Node))
| Translate (a : positive) (identifier : string) (language : option string)
    (block : list Node)
| TranslateBlock (a : positive) (block : list Node)
| Call (a : positive) (label : string) (expression : bool)
| TranslateSay (a : positive) (identifier : string) (language : option string).

Definition addr (n : Node) : positive :=
  match n with
  | Pass a | Label a _ _ | Jump a _ _ | Return a _ | While a _ _
  | If a _ | Menu a _ | Init a _ | UserStatement a _ _ | Translate a _ _ _
  | TranslateBlock a _ | Call a _ _ | TranslateSay a _ _ => a
  end.

(** All node objects of a subtree. *)
Fixpoint addrs (n : Node) : list positive :=
  match n with
  | Pass a | Jump a _ _ | Return a _ | Call a _ _ | TranslateSay a _ _ => [a]
  | Label a _ block | While a _ block | Init a block | TranslateBlock a block
  | Translate a _ _ block => a :: flat_map addrs block
  | If a entries =>
      a :: flat_map (λ e : string * list Node, flat_map addrs e.2) entries
  | Menu a items =>
      a :: flat_map
             (λ item : string * string * option (list Node),
                match item.2 with
                | Some block => flat_map addrs block
                | None => []
                end) items
  | UserStatement a code_block subparses =>
      a :: match code_block with
           | Some block => flat_map addrs block
           | None => []
           end ++ flat_map (flat_map addrs) subparses
  end.

(** The [next] attribute of every node object; an absent key is [None]. *)
Notation NextStore := (gmap positive positive).

(** [self.next = next] on the object at [a]. *)
Definition set_next (a : positive) (next : option positive) (h : NextStore) : NextStore :=
  match next with
  | Some n => <[a := n]> h
  | None => delete a h
  end.
Arguments set_next : simpl never.

(** [chain_block] unrolled along the block, with the children's [chain]
    method as a parameter: node n is chained with node n+1, the last node
    with [next]. *)
Definition chain_seq (chain : Node → option positive → NextStore → NextStore)
    : list Node → option positive → NextStore → NextStore :=
  fix go (block : list Node) (next : option positive) (h : NextStore) :=
    match block with
    | [] => h
    | x :: rest =>
        match rest with
        | [] => chain x next h
        | y :: _ => go rest next (chain x (Some (addr y)) h)
        end
    end.

(** [node.chain(next)], dispatched on the class of the node: what it does
    to the [next] attributes. *)
Fixpoint chain (n : Node) (next : option positive) (h : NextStore) : NextStore :=
  match n with
  | Pass a | Call a _ _ | TranslateSay a _ _ => set_next a next h
  | Label a _ block | Translate a _ _ block =>
      match block with
      | [] => set_next a next h
      | first :: _ =>
          chain_seq chain block next (set_next a (Some (addr first)) h)
      end
  | Jump a _ _ => set_next a None h
  | Return a _ => set_next a None h
  | While a _ block => chain_seq chain block (Some a) (set_next a next h)
  | If a entries =>
      fold_left (λ h' (e : string * list Node), chain_seq chain e.2 next h')
        entries (set_next a next h)
  | Menu a items =>
      fold_left
        (λ h' (item : string * string * option (list Node)),
           match item.2 with
           | Some block => chain_seq chain block next h'
           | None => h'
           end)
        items (set_next a next h)
  | Init a block | TranslateBlock a block =>
      chain_seq chain block None (set_next a next h)
  | UserStatement a code_block subparses =>
      fold_left (λ h' block, chain_seq chain block next h') subparses
        match code_block with
        | Some block => chain_seq chain block next (set_next a next h)
        | None => set_next a next h
        end
  end.

(** [Translate.chain] also keeps the successor in the node's [after]
    attribute ([self.after = next], after the block is chained); no other
    [chain] writes it.  This is what [chain] does to the [after]
    attributes, which it never reads. *)
Fixpoint chain_after (n : Node) (next : option positive) (h : NextStore)
    : NextStore :=
  match n with
  | Pass _ | Call _ _ _ | TranslateSay _ _ _ | Jump _ _ _ | Return _ _ => h
  | Label _ _ block => chain_seq chain_after block next h
  | Translate a _ _ block =>
      set_next a next (chain_seq chain_after block next h)
  | While a _ block => chain_seq chain_after block (Some a) h
  | If _ entries =>
      fold_left (λ h' (e : string * list Node), chain_seq chain_after e.2 next h')
        entries h
  | Menu _ items =>
      fold_left
        (λ h' (item : string * string * option (list Node)),
           match item.2 with
           | Some block => chain_seq chain_after block next h'
           | None => h'
           end)
        items h
  | Init _ block | TranslateBlock _ block => chain_seq chain_after block None h
  | UserStatement _ code_block subparses =>
      fold_left (λ h' block, chain_seq chain_after block next h') subparses
        match code_block with
        | Some block => chain_seq chain_after block next h
        | None => h
        end
  end.

(** [chain_block(block, next)] as the source writes it: a loop over
    [zip(block, block[1:])], then [block[-1].chain(next)]. *)
Definition chain_block (block : list Node) (next : option positive) (h : NextStore)
    : NextStore :=
  match last block with
  | None => h
  | Some final =>
      chain final next
        (fold_left (λ h' '(a, b), chain a (Some (addr b)) h')
           (zip block (tail block)) h)
  end.

(** The blocks a branching statement chains with its own successor. *)
Definition branches (n : Node) : list (list Node) :=
  match n with
  | If _ entries => snd <$> entries
  | Menu _ items =>
      (λ item : string * string * option (list Node), default [] item.2) <$> items
  | UserStatement _ code_block subparses => option_list code_block ++ subparses
  | _ => []
  end.

(** Blocks chained one after the other with the same successor. *)
Definition chain_blocks (blocks : list (list Node)) (next : option positive)
    (h : NextStore) : NextStore :=
  fold_left (λ h' block, chain_seq chain block next h') blocks h.

(** The link a node stores for itself when it is chained with [target]. *)
Definition own_next (n : Node) (target : option positive) : option positive :=
  match n with
  | Label _ _ (first :: _) | Translate _ _ _ (first :: _) => Some (addr first)
  | Jump _ _ _ | Return _ _ => None
  | Pass _ | Label _ _ [] | Translate _ _ _ [] | While _ _ _ | If _ _ | Menu _ _
  | Init _ _ | UserStatement _ _ _ | TranslateBlock _ _ | Call _ _ _
  | TranslateSay _ _ _ => target
  end.

(** [While.execute] on the object [a] with the given fields. *)
Definition While_execute (py_eval : Evaluator) (nexts : NextStore)
    (a : positive) (condition : string) (block : list Node) : M unit :=
  next_node (nexts !! a) ;;
  statement_name "while" ;;
  v ← eval py_eval condition ;
  if truthy v then
    match block with
    | first :: _ => next_node (Some (addr first))
    | [] => raise IndexError
    end
  else mret tt.

(** *** Facts about the store and the chaining pass *)

Lemma set_next_eq a next h : set_next a next h !! a = next.
Proof.
  unfold set_next. destruct next; [apply lookup_insert_eq|apply lookup_delete_eq].
Qed.

Lemma set_next_ne a b next h : b ≠ a → set_next a next h !! b = h !! b.
Proof.
  intros Hne. unfold set_next.
  destruct next; [by apply lookup_insert_ne|by apply lookup_delete_ne].
Qed.

(** Induction over statements, with the hypothesis for every child. *)
Lemma Node_block_ind (P : Node → Prop) :
  (∀ a, P (Pass a)) →
  (∀ a name block, Forall P block → P (Label a name block)) →
  (∀ a target expression, P (Jump a target expression)) →
  (∀ a expression, P (Return a expression)) →
  (∀ a condition block, Forall P block → P (While a condition block)) →
  (∀ a entries, Forall (Forall P) (branches (If a entries)) → P (If a entries)) →
  (∀ a items, Forall (Forall P) (branches (Menu a items)) → P (Menu a items)) →
  (∀ a block, Forall P block → P (Init a block)) →
  (∀ a code_block subparses,
     Forall (Forall P) (branches (UserStatement a code_block subparses)) →
     P (UserStatement a code_block subparses)) →
  (∀ a identifier language block,
     Forall P block → P (Translate a identifier language block)) →
  (∀ a block, Forall P block → P (TranslateBlock a block)) →
  (∀ a label expression, P (Call a label expression)) →
  (∀ a identifier language, P (TranslateSay a identifier language)) →
  ∀ n, P n.
Proof.
  intros HPass HLabel HJump HReturn HWhile HIf HMenu HInit HUser HTranslate
    HBlock HCall HSay.
  fix IH 1.
  intros [a|a name block|a t e|a e|a c block|a entries|a items|a block
         |a code subparses|a i l block|a block|a l e|a i l].
  - apply HPass.
  - apply HLabel. induction block as [|x block IHb]; constructor; [apply IH|apply IHb].
  - apply HJump.
  - apply HReturn.
  - apply HWhile. induction block as [|x block IHb]; constructor; [apply IH|apply IHb].
  - apply HIf. simpl.
    induction entries as [|[c block] entries IHe]; constructor; [|apply IHe].
    simpl. induction block as [|x block IHb]; constructor; [apply IH|apply IHb].
  - apply HMenu. simpl.
    induction items as [|[[label c] [block|]] items IHi]; constructor;
      try apply IHi; simpl; [|constructor].
    induction block as [|x block IHb]; constructor; [apply IH|apply IHb].
  - apply HInit. induction block as [|x block IHb]; constructor; [apply IH|apply IHb].
  - apply HUser. simpl. apply Forall_app. split.
    + destruct code as [block|]; simpl; constructor; [|constructor].
      induction block as [|x block IHb]; constructor; [apply IH|apply IHb].
    + induction subparses as [|block subparses IHs]; constructor; [|apply IHs].
      induction block as [|x block IHb]; constructor; [apply IH|apply IHb].
  - apply HTranslate.
    induction block as [|x block IHb]; constructor; [apply IH|apply IHb].
  - apply HBlock. induction block as [|x block IHb]; constructor; [apply IH|apply IHb].
  - apply HCall.
  - apply HSay.
Qed.

(** The three branching statements, through [branches]. *)
Lemma addrs_branches n :
  match n with
  | If a _ | Menu a _ | UserStatement a _ _ =>
      addrs n = a :: flat_map (flat_map addrs) (branches n)
  | _ => True
  end.
Proof.
  destruct n as [| | | | |a entries|a items| |a code subparses| | | |]; try done;
    simpl; f_equal.
  - induction entries as [|[c block] entries IH]; simpl; [done|]. by rewrite IH.
  - induction items as [|[[label c] [block|]] items IH]; simpl; [done| |];
      by rewrite IH.
  - by destruct code as [block|].
Qed.

Lemma chain_branches n next h :
  match n with
  | If a _ | Menu a _ | UserStatement a _ _ =>
      chain n next h = chain_blocks (branches n) next (set_next a next h)
  | _ => True
  end.
Proof.
  destruct n as [| | | | |a entries|a items| |a code subparses| | | |]; try done;
    unfold chain_blocks; simpl.
  - generalize (set_next a next h) as h0.
    induction entries as [|[c block] entries IH]; intros h0; simpl; [done|].
    apply IH.
  - generalize (set_next a next h) as h0.
    induction items as [|[[label c] [block|]] items IH]; intros h0; simpl;
      [done| |]; apply IH.
  - destruct code as [block|]; simpl; done.
Qed.

Lemma chain_seq_frame block :
  Forall (λ x, ∀ next h b, b ∉ addrs x → chain x next h !! b = h !! b) block →
  ∀ next h b, b ∉ flat_map addrs block →
    chain_seq chain block next h !! b = h !! b.
Proof.
  induction 1 as [|x rest Hx Hrest IH]; intros next h b Hb; [done|].
  simpl in Hb. rewrite elem_of_app in Hb.
  simpl. destruct rest as [|y rest'].
  - apply Hx. tauto.
  - rewrite IH by tauto. apply Hx. tauto.
Qed.

Lemma chain_blocks_frame blocks :
  Forall (Forall (λ x, ∀ next h b, b ∉ addrs x → chain x next h !! b = h !! b))
    blocks →
  ∀ next h b, b ∉ flat_map (flat_map addrs) blocks →
    chain_blocks blocks next h !! b = h !! b.
Proof.
  unfold chain_blocks.
  induction 1 as [|block rest Hblock Hrest IH]; intros next h b Hb; [done|].
  simpl in Hb. rewrite elem_of_app in Hb. simpl.
  rewrite IH by tauto. apply chain_seq_frame; tauto.
Qed.

(** Chaining a statement writes only the [next] links of its own subtree. *)
Lemma chain_frame n :
  ∀ next h b, b ∉ addrs n → chain n next h !! b = h !! b.
Proof.
  induction n as [a|a name block IH|a t e|a e|a c block IH|a entries IH
                 |a items IH|a block IH|a code subparses IH|a i l block IH
                 |a block IH|a l e|a i l] using Node_block_ind;
    intros next h b Hb.
  - simpl in *. apply set_next_ne. set_solver.
  - simpl in Hb. apply not_elem_of_cons in Hb as [Hab Hb]. simpl.
    destruct block as [|first rest].
    + by apply set_next_ne.
    + rewrite chain_seq_frame by done. by apply set_next_ne.
  - simpl in *. apply set_next_ne. set_solver.
  - simpl in *. apply set_next_ne. set_solver.
  - simpl in Hb. apply not_elem_of_cons in Hb as [Hab Hb]. simpl.
    rewrite chain_seq_frame by done. by apply set_next_ne.
  - rewrite (addrs_branches (If a entries)) in Hb.
    rewrite (chain_branches (If a entries)).
    apply not_elem_of_cons in Hb as [Hab Hb].
    rewrite chain_blocks_frame by done. by apply set_next_ne.
  - rewrite (addrs_branches (Menu a items)) in Hb.
    rewrite (chain_branches (Menu a items)).
    apply not_elem_of_cons in Hb as [Hab Hb].
    rewrite chain_blocks_frame by done. by apply set_next_ne.
  - simpl in Hb. apply not_elem_of_cons in Hb as [Hab Hb]. simpl.
    rewrite chain_seq_frame by done. by apply set_next_ne.
  - rewrite (addrs_branches (UserStatement a code subparses)) in Hb.
    rewrite (chain_branches (UserStatement a code subparses)).
    apply not_elem_of_cons in Hb as [Hab Hb].
    rewrite chain_blocks_frame by done. by apply set_next_ne.
  - simpl in Hb. apply not_elem_of_cons in Hb as [Hab Hb]. simpl.
    destruct block as [|first rest].
    + by apply set_next_ne.
    + rewrite chain_seq_frame by done. by apply set_next_ne.
  - simpl in Hb. apply not_elem_of_cons in Hb as [Hab Hb]. simpl.
    rewrite chain_seq_frame by done. by apply set_next_ne.
  - simpl in *. apply set_next_ne. set_solver.
  - simpl in *. apply set_next_ne. set_solver.
Qed.

Lemma chain_block_frame block next h b :
  b ∉ flat_map addrs block → chain_seq chain block next h !! b = h !! b.
Proof.
  apply chain_seq_frame. apply Forall_forall. intros x _. apply chain_frame.
Qed.

Lemma chain_branches_frame blocks next h b :
  b ∉ flat_map (flat_map addrs) blocks → chain_blocks blocks next h !! b = h !! b.
Proof.
  apply chain_blocks_frame. apply Forall_forall. intros block _.
  apply Forall_forall. intros x _. apply chain_frame.
Qed.

(** The unrolled form computes what the source's loop computes. *)
Lemma chain_seq_block block next h :
  chain_seq chain block next h = chain_block block next h.
Proof.
  unfold chain_block. revert h. induction block as [|x rest IH]; intros h; [done|].
  simpl. destruct rest as [|y rest']; [done|].
  rewrite IH, last_cons_cons.
  destruct (last (y :: rest')) as [final|] eqn:Hl; [done|].
  by apply last_None in Hl.
Qed.

(** After [chain], a node whose subtree has no repeated object holds the
    link [own_next] describes. *)
Lemma chain_own_next n target h :
  NoDup (addrs n) → chain n target h !! addr n = own_next n target.
Proof.
  intros Hnd.
  destruct n as [a|a name block|a t e|a e|a c block|a entries|a items|a block
                |a code subparses|a i l block|a block|a l e|a i l].
  - apply set_next_eq.
  - simpl in *. apply NoDup_cons in Hnd as [Ha _]. destruct block as [|first rest].
    + apply set_next_eq.
    + rewrite chain_block_frame by done. apply set_next_eq.
  - apply set_next_eq.
  - apply set_next_eq.
  - simpl in *. apply NoDup_cons in Hnd as [Ha _].
    rewrite chain_block_frame by done. apply set_next_eq.
  - rewrite (addrs_branches (If a entries)) in Hnd.
    rewrite (chain_branches (If a entries)).
    apply NoDup_cons in Hnd as [Ha _]. simpl.
    rewrite chain_branches_frame by done. apply set_next_eq.
  - rewrite (addrs_branches (Menu a items)) in Hnd.
    rewrite (chain_branches (Menu a items)).
    apply NoDup_cons in Hnd as [Ha _]. simpl.
    rewrite chain_branches_frame by done. apply set_next_eq.
  - simpl in *. apply NoDup_cons in Hnd as [Ha _].
    rewrite chain_block_frame by done. apply set_next_eq.
  - rewrite (addrs_branches (UserStatement a code subparses)) in Hnd.
    rewrite (chain_branches (UserStatement a code subparses)).
    apply NoDup_cons in Hnd as [Ha _]. simpl.
    rewrite chain_branches_frame by done. apply set_next_eq.
  - simpl in *. apply NoDup_cons in Hnd as [Ha _]. destruct block as [|first rest].
    + apply set_next_eq.
    + rewrite chain_block_frame by done. apply set_next_eq.
  - simpl in *. apply NoDup_cons in Hnd as [Ha _].
    rewrite chain_block_frame by done. apply set_next_eq.
  - apply set_next_eq.
  - apply set_next_eq.
Qed.

(** The last call of [chain_block] is [block[-1].chain(next)]. *)
Lemma chain_block_last block final next h :
  last block = Some final →
  ∃ h', chain_block block next h = chain final next h'.
Proof.
  intros Hl. unfold chain_block. rewrite Hl. eauto.
Qed.

Lemma chain_While a condition block next h :
  chain (While a condition block) next h
  = chain_block block (Some a) (set_next a next h).
Proof. simpl. apply chain_seq_block. Qed.

Lemma NoDup_flat_map_elem (block : list Node) x :
  NoDup (flat_map addrs block) → x ∈ block → NoDup (addrs x).
Proof.
  induction block as [|y block IH]; intros Hnd Hx; [by apply elem_of_nil in Hx|].
  simpl in Hnd. apply NoDup_app in Hnd as (Hy & _ & Hrest).
  apply elem_of_cons in Hx as [->|Hx]; auto.
Qed.

Lemma While_execute_run py_eval nexts a condition block first st v s' :
  head block = Some first →
  py_eval condition (store st) = (Ok v, s') →
  While_execute py_eval nexts a condition block st
  = (Ok tt,
     with_context
       (set_next_node (if truthy v then Some (addr first) else nexts !! a))
       (statement_name "while" (with_store (λ _, s') st)).2).
Proof.
  intros Hhead Hev. destruct block as [|x rest]; [done|].
  injection Hhead as ->.
  unfold While_execute, mbind, M_bind, next_node, statement_name, modify, eval.
  simpl. rewrite Hev. by destruct (truthy v).
Qed.

(** C2, as the code has it.  For a [While] node with a non-empty block and
    no node object repeated in its subtree, whatever statements the block
    holds: [chain(following)] sets the node's [next] to [following] and
    chains the block to the node itself, so the last node of the block
    gets the [While] node as its [next], except where the last node's own
    [chain] does not keep the target ([Jump] and [Return] end with [next]
    [None]; a [Label] or a [Translate] with a block of its own points at
    its first child).  Executing the node when its condition evaluates to
    [v] returns, with the statement name [while] and the context's next
    node at the first node of the block if [v] is true and at [following]
    otherwise; nothing else of the context changes. *)
Theorem While_chain_execute py_eval a condition block following h st v s' :
  block ≠ [] →
  NoDup (addrs (While a condition block)) →
  py_eval condition (store st) = (Ok v, s') →
  let nexts := chain (While a condition block) following h in
  ∃ first final,
    head block = Some first ∧ last block = Some final ∧
    nexts = chain_block block (Some a) (set_next a following h) ∧
    nexts !! a = following ∧
    nexts !! addr final =
      match final with
      | Jump _ _ _ | Return _ _ => None
      | Label _ _ (child :: _) | Translate _ _ _ (child :: _) => Some (addr child)
      | _ => Some a
      end ∧
    While_execute py_eval nexts a condition block st
    = (Ok tt,
       with_context
         (set_next_node (if truthy v then Some (addr first) else following))
         (statement_name "while" (with_store (λ _, s') st)).2).
Proof.
  intros Hne Hnd Hev nexts.
  assert (∃ first, head block = Some first) as [first Hhead]
    by (destruct block; [done|eauto]).
  destruct (last block) as [final|] eqn:Hlast;
    [|apply last_None in Hlast; congruence].
  simpl in Hnd. apply NoDup_cons in Hnd as [Ha Hnd].
  assert (nexts !! a = following) as Hnext.
  { subst nexts. simpl. rewrite chain_block_frame by done. apply set_next_eq. }
  exists first, final. split; [done|]. split; [done|].
  split; [apply chain_While|]. split; [done|]. split.
  - assert (NoDup (addrs final)) as Hfin.
    { eapply NoDup_flat_map_elem; [done|]. by apply last_Some_elem_of. }
    subst nexts. rewrite chain_While.
    destruct (chain_block_last block final (Some a) (set_next a following h) Hlast)
      as [h' ->].
    rewrite chain_own_next by done.
    by destruct final as [|? ? [|]| | | | | | | |? ? ? [|]| | |].
  - rewrite (While_execute_run py_eval nexts a condition block first st v s')
      by done.
    by rewrite Hnext.
Qed.

(** C2 as stated fails where the block ends in a [Jump]: the jump's own
    [chain] discards the target, so no link leads back to the loop node. *)
Lemma While_chain_back_edge_counterexample :
  ¬ (∀ a condition block final following h,
       last block = Some final →
       NoDup (addrs (While a condition block)) →
       chain (While a condition block) following h !! addr final = Some a).
Proof.
  intros Hclaim.
  specialize (Hclaim 1%positive "tries < 3"
    [Pass 2; Jump 3 "game_over" false] (Jump 3 "game_over" false)
    (Some 4%positive) ∅ eq_refl).
  assert (NoDup (addrs (While 1 "tries < 3" [Pass 2; Jump 3 "game_over" false])))
    as Hnd by (simpl; repeat (constructor; [set_solver|]); constructor).
  specialize (Hclaim Hnd). vm_compute in Hclaim. discriminate.
Qed.

Lemma While_chain_execute_witness :
  let block := [Pass 2; If 3 [("lucky", [Pass 4])]] in
  let st := with_store (λ _, {["again" := VBool false]}) fresh_state in
  let nexts := chain (While 1 "again" block) (Some 9%positive) ∅ in
  ∃ first final,
    head block = Some first ∧ last block = Some final ∧
    nexts = chain_block block (Some 1%positive) (set_next 1 (Some 9%positive) ∅) ∧
    nexts !! 1%positive = Some 9%positive ∧
    nexts !! addr final =
      match final with
      | Jump _ _ _ | Return _ _ => None
      | Label _ _ (child :: _) | Translate _ _ _ (child :: _) => Some (addr child)
      | _ => Some 1%positive
      end ∧
    While_execute lookup_eval nexts 1 "again" block st
    = (Ok tt,
       with_context
         (set_next_node
            (if truthy (VBool false) then Some (addr first) else Some 9%positive))
         (statement_name "while"
            (with_store (λ _, {["again" := VBool false]}) st)).2).
Proof.
  intros block st.
  apply (While_chain_execute lookup_eval 1 "again" block (Some 9%positive) ∅ st
           (VBool false) {["again" := VBool false]}).
  - done.
  - simpl. repeat (constructor; [set_solver|]). constructor.
  - reflexivity.
Defined.

End Chaining.

(** ** The engine on a chained script *)

Module Script.
Import Chaining.

(** [Node.get_reachable]. *)
Definition Node_get_reachable (nexts : NextStore) (a : positive) : list positive :=
  match nexts !! a with
  | None => []
  | Some n => [n]
  end.

(** What [UserStatement.reachable] may hold: [None], [True], a sub-parse
    (given by its block) or the name of a node. *)
Inductive Reached : Type :=
| ReachedNone
| ReachedTrue
| ReachedSubParse (block : list Node)
| ReachedName (name : NodeName).

(** The collaborators [get_reachable] calls:
    [renpy.game.script.translator.get_all_translates(identifier)], as the
    blocks of the dictionary's values in their order;
    [self.reachable(True)] of the user statement at an address, which asks
    the statement registry, as the list the returned set iterates in; and
    [renpy.game.script.lookup(name)]. *)
Record Collaborators : Type := mkCollaborators {
  get_all_translates : string → list (list Node);
  reachable : positive → Result (list Reached);
  lookup : NodeName → Result (option positive);
}.

(** [[n.block[0] for n in nodes.values() if n.block]]. *)
Definition translation_heads (blocks : list (list Node)) : list positive :=
  omap (λ block : list Node, addr <$> head block) blocks.

(** The loop of [If.get_reachable]: it stops at the first entry whose
    condition is the text [True]. *)
Fixpoint reachable_entries (own : list positive)
    (entries : list (string * list Node)) (rv : list positive)
    : Result (list positive) :=
  match entries with
  | [] => Ok (rv ++ own)
  | (condition, block) :: rest =>
      match block with
      | [] => Raise IndexError
      | first :: _ =>
          if String.eqb condition "True" then Ok (rv ++ [addr first])
          else reachable_entries own rest (rv ++ [addr first])
      end
  end.

(** The loop of [UserStatement.get_reachable]. *)
Fixpoint reachable_names (c : Collaborators) (names : list Reached)
    : Result (list positive) :=
  match names with
  | [] => Ok []
  | name :: rest =>
      match name with
      | ReachedNone | ReachedTrue => reachable_names c rest
      | ReachedSubParse block =>
          rv ← reachable_names c rest ;
          Ok match block with
             | first :: _ => addr first :: rv
             | [] => rv
             end
      | ReachedName name =>
          node ← lookup c name ;
          rv ← reachable_names c rest ;
          Ok match node with
             | Some n => n :: rv
             | None => rv
             end
      end
  end.

(** [get_reachable], dispatched on the class of the node;
    [lookup_or_none] is the script's label table. *)
Definition get_reachable (c : Collaborators) (nexts : NextStore)
    (lookup_or_none : string → option positive) (n : Node)
    : Result (list positive) :=
  match n with
  | Jump a target expression | Call a target expression =>
      let rv := Node_get_reachable nexts a in
      if expression then Ok rv
      else match lookup_or_none target with
           | Some t => Ok (t :: rv)
           | None => Ok rv
           end
  | While a condition block =>
      match block with
      | [] => Raise IndexError
      | first :: _ =>
          if String.eqb condition "True" then Ok [addr first]
          else Ok (addr first :: Node_get_reachable nexts a)
      end
  | If a entries => reachable_entries (Node_get_reachable nexts a) entries []
  | Menu a items =>
      Ok (omap (λ item : string * string * option (list Node),
                  item.2 ≫= λ block, addr <$> head block) items
          ++ Node_get_reachable nexts a)
  | UserStatement a _ _ => names ← reachable c a ; reachable_names c names
  | Translate a identifier language _ | TranslateSay a identifier language =>
      let rv := Node_get_reachable nexts a in
      match language with
      | Some _ => Ok rv
      | None => Ok (rv ++ translation_heads (get_all_translates c identifier))
      end
  | Pass a | Label a _ _ | Return a _ | Init a _ | TranslateBlock a _ =>
      Ok (Node_get_reachable nexts a)
  end.

(** A script without translations and user statements. *)
Definition plain_script : Collaborators :=
  mkCollaborators (λ _, []) (λ _, Ok []) (λ _, Ok None).

(** The script
<<
    label start:
    while tries < 3:
        pass
        jump start
    return
>>
    as node objects 1 to 5. *)
Definition loop_body : list Node := [Pass 3; Jump 4 "start" false].
Definition loop_script : list Node :=
  [Label 1 "start" []; While 2 "tries < 3" loop_body; Return 5 None].

Definition loop_nexts : NextStore := chain_block loop_script None ∅.

Definition loop_objects : gmap positive Node :=
  list_to_map ((λ n, (addr n, n)) <$> (loop_script ++ loop_body)).

Definition loop_labels (label : string) : option positive :=
  if String.eqb label "start" then Some 1%positive else None.

(** The nodes a reference leads to, for references into [loop_objects]. *)
Definition loop_reachable (a : positive) : list positive :=
  match loop_objects !! a with
  | Some n =>
      match get_reachable plain_script loop_nexts loop_labels n with
      | Ok l => l
      | Raise _ => []
      end
  | None => []
  end.

(** The loader gives every node of a script a name of its own; here the
    name is the node's serial number. *)
Definition loop_name (a : positive) : positive := a.

(** The jump at the end of the loop body closes a cycle through the label,
    and the traversal still ends, label first. *)
Example loop_script_reachable :
  Reach.get_reachable_nodes loop_name loop_reachable 10 [1%positive]
    Reach._reach_any None
  = Some ([1; 2; 3; 5; 4]%positive,
          Reach.names loop_name [1; 2; 3; 5; 4]%positive).
Proof. vm_compute. reflexivity. Qed.

Lemma get_reachable_nodes_bfs_witness :
  let U := [1; 2; 3; 4; 5]%positive in
  let entry := [1%positive] in
  ∃ r,
    (∀ fuel, Reach.enough_fuel loop_name loop_reachable U entry ≤ fuel →
       Reach.get_reachable_nodes loop_name loop_reachable fuel entry
         Reach._reach_any None
       = Some (r, Reach.names loop_name r)) ∧
    NoDup (loop_name <$> r) ∧
    r = Reach.first_occ loop_name ∅
          (Reach.discovery loop_reachable Reach._reach_any entry r) ∧
    (∃ rest, r = Reach.first_occ loop_name ∅ entry ++ rest ∧
             ∀ x, x ∈ rest → loop_name x ∉ Reach.names loop_name entry) ∧
    Reach.discovered_in_order loop_reachable Reach._reach_any entry r ∧
    (∀ r', Reach.bfs_order loop_name loop_reachable Reach._reach_any entry r' →
           r' = r).
Proof.
  intros U entry.
  apply (Reach.get_reachable_nodes_bfs loop_name loop_reachable U entry
           Reach._reach_any).
  - intros n m Hn Hm. unfold U in *.
    repeat (apply elem_of_cons in Hn as [->|Hn]);
      try (by apply elem_of_nil in Hn);
      vm_compute in Hm;
      repeat (apply elem_of_cons in Hm as [->|Hm]);
      try (by apply elem_of_nil in Hm); set_solver.
  - intros x Hx. unfold U, entry in *. set_solver.
Defined.

End Script.

(** ** The script table and the context's call stack

    [renpy.game.script] and the methods of [renpy.execution.Context] are
    collaborators of ast.py. *)

Module Execution.

(** The name a value denotes when it is used as a jump or call target. *)
Definition as_name (label : Value) : option NodeName :=
  match label with
  | VStr s => Some (LabelName s)
  | _ => None
  end.

Definition show_label (label : Value) : string :=
  match label with
  | VStr s => s
  | _ => "?"
  end.

Section script.
(** [script.namemap]: the node registered under each name. *)
Variable namemap : gmap NodeName positive.

(** Modelled from the spec: [script.lookup_or_none(label)], the node of
    a name in the script's global name to node map, if any. *)
Definition lookup_or_none (label : Value) : option positive :=
  as_name label ≫= (namemap !!.).

(** Modelled from the spec: [script.has_label(label)]. *)
Definition has_label (label : Value) : bool :=
  bool_decide (is_Some (lookup_or_none label)).

(** Modelled from the spec: [script.lookup(label)]; an unknown target is a
    resolution error. *)
Definition lookup (label : Value) : Result positive :=
  match lookup_or_none label with
  | Some n => Ok n
  | None => Raise (ScriptError (show_label label))
  end.

Definition push_call (return_site : option NodeName) (c : Context) : Context :=
  mkContext (next_node_ c) (return_stack c ++ [return_site])
    (dynamic_stack c ++ [∅]) (abnormal c) (init_phase c)
    (translate_identifier c) (alternate_translate_identifier c).



(** Modelled from the spec: [Context.call(label, return_site)] resolves the
    target, pushes the continuation (with a fresh level of dynamic
    variables) onto the call stack, and returns the target's entry node. *)
Definition Context_call (label : Value) (return_site : option NodeName) : M positive :=
  λ st,
    match lookup label with
    | Ok n => (Ok n, with_context (push_call return_site) st)
    | Raise e => (Raise e, st)
    end.



(** Modelled from the spec: [Context.predict_call(label, return_site)]
    returns the node of the target for the look-ahead; the live call stack
    is untouched. *)
Definition Context_predict_call (label : Value) (return_site : option NodeName)
    : M positive :=
  λ st, (lookup label, st).

End script.
End Execution.

(** ** [Return] *)

Module ReturnStmt.
Section execute.
Variable py_eval : Evaluator.
(** [renpy.game.context().lookup_return(pop=True)] and
    [renpy.game.context().pop_dynamic()]. *)
Variable lookup_return : M (option positive).
Variable pop_dynamic : M unit.








End execute.






End ReturnStmt.

(** ** [Call] and [Jump] *)

Module Transfer.

(** [c in s] for a character [c]. *)
Fixpoint contains (c : Ascii.ascii) (s : string) : bool :=
  match s with
  | EmptyString => false
  | String c' s' => Ascii.eqb c c' || contains c s'
  end.

(** [probably_side_effect_free(expr)]: no opening parenthesis in [expr]. *)
Definition probably_side_effect_free (expr : string) : bool :=
  negb (contains "("%char expr).

(** [label.startswith(".")]. *)
Definition starts_with_dot (s : string) : bool :=
  match s with
  | String c _ => Ascii.eqb c "."%char
  | EmptyString => false
  end.

(** [if isinstance(label, str) and label.startswith("."):
       label = self.global_label + label]. *)
Definition qualify (global_label : string) (label : Value) : Value :=
  match label with
  | VStr s => if starts_with_dot s then VStr (global_label +:+ s) else label
  | _ => label
  end.

Section statements.
Variable py_eval : Evaluator.
Variable namemap : gmap NodeName positive.
(** [n.name] for the node object [n]. *)
Variable node_name : positive → option NodeName.
(** [ArgumentInfo] and its [evaluate()], from renpy.parameter. *)
Context {ArgumentInfo : Type}.
Variable evaluate :
  ArgumentInfo → gmap string Value → Result (Value * Value) * gmap string Value.

Record Call : Type := mkCall {
  call_next : option positive;
  call_label : string;
  call_expression : bool;
  call_arguments : option ArgumentInfo;
  call_global_label : string;
}.

Record Jump : Type := mkJump {
  jump_next : option positive;
  jump_target : string;
  jump_expression : bool;
  jump_global_label : string;
}.

(** [self.next.name]. *)
Definition next_name (next : option positive) : M (option NodeName) :=
  match next with
  | Some n => mret (node_name n)
  | None => raise AttributeError
  end.

(** [Call.execute]. *)
Definition Call_execute (c : Call) : M unit :=
  statement_name "call" ;;
  label ← (if call_expression c then
             v ← eval py_eval (call_label c) ;
             mret (qualify (call_global_label c) v)
           else mret (VStr (call_label c))) ;
  return_site ← next_name (call_next c) ;
  rv ← Execution.Context_call namemap label return_site ;
  next_node (Some rv) ;;
  modify (with_context (set_abnormal true)) ;;
  match call_arguments c with
  | Some a =>
      '(args, kwargs) ← (λ st, let '(r, s') := evaluate a (store st) in
                               (r, with_store (λ _, s') st)) ;
      modify (with_store (λ s, <["_kwargs" := kwargs]> (<["_args" := args]> s)))
  | None =>
      modify (with_store (λ s, <["_kwargs" := VNone]> (<["_args" := VNone]> s)))
  end.

(** [Call.predict]. *)
Definition Call_predict (c : Call) : M (list positive) :=
  λ st,
    let finish (label : Value) : M (list positive) :=
      return_site ← next_name (call_next c) ;
      n ← Execution.Context_predict_call namemap label return_site ;
      mret [n] in
    if call_expression c then
      if negb (probably_side_effect_free (call_label c)) then (Ok [], st)
      else
        match eval py_eval (call_label c) st with
        | (Raise _, st') => (Ok [], st')
        | (Ok v, st') =>
            let label := qualify (call_global_label c) v in
            if negb (Execution.has_label namemap label) then (Ok [], st')
            else finish label st'
        end
    else finish (VStr (call_label c)) st.

(** [Jump.predict]. *)
Definition Jump_predict (j : Jump) : M (list positive) :=
  λ st,
    let finish (label : Value) : M (list positive) :=
      λ st, (n ← Execution.lookup namemap label ; mret [n], st) in
    if jump_expression j then
      if negb (probably_side_effect_free (jump_target j)) then (Ok [], st)
      else
        match eval py_eval (jump_target j) st with
        | (Raise _, st') => (Ok [], st')
        | (Ok v, st') =>
            let label := qualify (jump_global_label j) v in
            if negb (Execution.has_label namemap label) then (Ok [], st')
            else finish label st'
        end
    else finish (VStr (jump_target j)) st.

(** [Jump.execute]. *)
Definition Jump_execute (j : Jump) : M unit :=
  statement_name "jump" ;;
  target ← (if jump_expression j then
              v ← eval py_eval (jump_target j) ;
              mret (qualify (jump_global_label j) v)
            else mret (VStr (jump_target j))) ;
  rv ← (λ st, (Execution.lookup namemap target, st)) ;
  modify (with_context (set_abnormal true)) ;;
  next_node (Some rv).

(** What prediction of a call or jump to [target] promises: the empty list
    when an expression target is not probably side-effect free, fails to
    evaluate, or names no label of the script; the one-element list of the
    resolved node otherwise; and, for a static target that the script does
    not define, the lookup error. *)
Definition predict_contract (predict : M (list positive))
    (target : string) (expression : bool) (global_label : string) : Prop :=
  ∀ st,
    (expression = true →
       ¬ raises (predict st).1 ∧
       (probably_side_effect_free target = false → (predict st).1 = Ok []) ∧
       (probably_side_effect_free target = true →
          ∀ r s', py_eval target (store st) = (r, s') →
            match r with
            | Raise _ => (predict st).1 = Ok []
            | Ok v =>
                match Execution.lookup_or_none namemap (qualify global_label v) with
                | None => (predict st).1 = Ok []
                | Some n => (predict st).1 = Ok [n]
                end
            end)) ∧
    (expression = false →
       match Execution.lookup_or_none namemap (VStr target) with
       | Some n => predict st = (Ok [n], st)
       | None => raises (predict st).1
       end).

(** *** Prediction *)

Lemma has_label_lookup label :
  Execution.has_label namemap label
  = bool_decide (is_Some (Execution.lookup_or_none namemap label)).
Proof. done. Qed.

Lemma Jump_predict_contract j :
  predict_contract (Jump_predict j)
    (jump_target j) (jump_expression j) (jump_global_label j).
Proof.
  intros st. unfold Jump_predict, eval. split; intros ->.
  - destruct (probably_side_effect_free (jump_target j)); simpl;
      [|split; [tauto|split; [done|discriminate]]].
    destruct (py_eval (jump_target j) (store st)) as [[v|e] s'] eqn:Hev; simpl.
    + unfold Execution.has_label, Execution.lookup.
      destruct (Execution.lookup_or_none namemap (qualify (jump_global_label j) v))
        as [n|] eqn:Hl; simpl.
      * split; [tauto|]. split; [discriminate|].
        intros _ r s'' [= <- <-]. by rewrite Hl.
      * split; [tauto|]. split; [discriminate|].
        intros _ r s'' [= <- <-]. by rewrite Hl.
    + split; [tauto|]. split; [discriminate|]. by intros _ r s'' [= <- <-].
  - unfold Execution.lookup.
    destruct (Execution.lookup_or_none namemap (VStr (jump_target j))); done.
Qed.

Lemma Call_predict_contract c :
  is_Some (call_next c) →
  predict_contract (Call_predict c)
    (call_label c) (call_expression c) (call_global_label c).
Proof.
  intros [nx Hnx] st. unfold Call_predict, eval, next_name. rewrite Hnx.
  unfold Execution.Context_predict_call, mbind, M_bind, mret, M_ret.
  split; intros ->.
  - destruct (probably_side_effect_free (call_label c)); simpl;
      [|split; [tauto|split; [done|discriminate]]].
    destruct (py_eval (call_label c) (store st)) as [[v|e] s'] eqn:Hev; simpl.
    + unfold Execution.has_label, Execution.lookup.
      destruct (Execution.lookup_or_none namemap (qualify (call_global_label c) v))
        as [n|] eqn:Hl; simpl.
      * split; [tauto|]. split; [discriminate|].
        intros _ r s'' [= <- <-]. by rewrite Hl.
      * split; [tauto|]. split; [discriminate|].
        intros _ r s'' [= <- <-]. by rewrite Hl.
    + split; [tauto|]. split; [discriminate|]. by intros _ r s'' [= <- <-].
  - unfold Execution.lookup.
    destruct (Execution.lookup_or_none namemap (VStr (call_label c))); done.
Qed.

(** C4, as the code has it.  [Jump.predict], and [Call.predict] on a call
    whose [next] link is set, never raise on an expression target: they
    return the empty list when the expression is not probably side-effect
    free, when its evaluation fails, or when the resulting label is not in
    the script, and the one-element list of the resolved node otherwise.
    On a static target they return the one-element list of the resolved
    node when the script defines the label, and raise the lookup error when
    it does not. *)
Theorem predict_contracts :
  (∀ j, predict_contract (Jump_predict j)
          (jump_target j) (jump_expression j) (jump_global_label j)) ∧
  (∀ c, is_Some (call_next c) →
        predict_contract (Call_predict c)
          (call_label c) (call_expression c) (call_global_label c)).
Proof. split; [apply Jump_predict_contract|apply Call_predict_contract]. Qed.

(** *** The return site of a call *)

Lemma Call_execute_unlinked c st :
  call_next c = None →
  raises (Call_execute c st).1 ∧ context (Call_execute c st).2 = context st.
Proof.
  intros Hnx. unfold Call_execute, next_name, eval. rewrite Hnx.
  unfold mbind, M_bind, mret, M_ret, raise, statement_name, modify. simpl.
  destruct (call_expression c); simpl; [|done].
  destruct (py_eval (call_label c) (store st)) as [[v|e] s']; done.
Qed.

Lemma Call_predict_unlinked c st :
  call_next c = None →
  (∀ n, (Call_predict c st).1 ≠ Ok [n]) ∧
  (call_expression c = false → (Call_predict c st).1 = Raise AttributeError) ∧
  (call_expression c = true →
     (raises (Call_predict c st).1 ↔
        probably_side_effect_free (call_label c) = true ∧
        ∃ v s', py_eval (call_label c) (store st) = (Ok v, s') ∧
                Execution.has_label namemap (qualify (call_global_label c) v) = true) ∧
     (¬ raises (Call_predict c st).1 → (Call_predict c st).1 = Ok [])).
Proof.
  intros Hnx. unfold Call_predict, next_name, eval. rewrite Hnx.
  unfold mbind, M_bind, raise.
  destruct (call_expression c); simpl.
  - destruct (probably_side_effect_free (call_label c)); simpl.
    + destruct (py_eval (call_label c) (store st)) as [[v|e] s'] eqn:Hev; simpl.
      * destruct (Execution.has_label namemap (qualify (call_global_label c) v))
          eqn:Hl; simpl.
        -- split; [done|]. split; [done|]. intros _. split; [|tauto].
           split; [|done]. intros _. split; [done|]. by exists v, s'.
        -- split; [done|]. split; [done|]. intros _. split; [|done].
           split; [done|]. intros (_ & v' & s'' & [= <- <-] & Hl'). congruence.
      * split; [done|]. split; [done|]. intros _. split; [|done].
        split; [done|]. by intros (_ & v' & s'' & [=] & _).
    + split; [done|]. split; [done|]. intros _. split; [|done].
      split; [done|]. by intros [[=] _].
  - split; [done|]. split; [done|]. done.
Qed.

Lemma Call_execute_linked c nx st :
  call_next c = Some nx →
  let out := Call_execute c st in
  (return_stack (context out.2) = return_stack (context st) ++ [node_name nx] ∨
   (raises out.1 ∧ return_stack (context out.2) = return_stack (context st))) ∧
  (out.1 = Ok tt →
     return_stack (context out.2) = return_stack (context st) ++ [node_name nx] ∧
     abnormal (context out.2) = true ∧
     ∃ label n, next_node_ (context out.2) = Some n ∧
                  Execution.lookup namemap label = Ok n).
Proof.
  intros Hnx. unfold Call_execute, next_name, eval. rewrite Hnx.
  unfold mbind, M_bind, mret, M_ret, raise, statement_name, modify, next_node,
    Execution.Context_call.
  simpl.
  destruct (call_expression c); simpl;
    [destruct (py_eval (call_label c) (store st)) as [[v|e] s']; simpl;
       [|split; [by right|done]]|];
    (match goal with
     | |- context [Execution.lookup namemap ?l] =>
         destruct (Execution.lookup namemap l) as [n|e] eqn:Hl; simpl;
           [|split; [by right|done]]
     end);
    (destruct (call_arguments c) as [a|]; simpl;
       [match goal with
        | |- context [evaluate a ?s] =>
            destruct (evaluate a s) as [[[args kwargs]|e] s'']; simpl;
              [|split; [by left|done]]
        end|]);
    (split; [by left|]; intros _; split; [done|]; split; [done|]; eauto).
Qed.

(** C10, as the code has it.  [Call.execute] and [Call.predict] read
    [self.next.name] for the return site.  On a call whose [next] is
    [None], [execute] always raises and leaves the context as it was, and
    [predict] never yields a node: it raises on a static target, and on an
    expression target it raises exactly when the expression is probably
    side-effect free, evaluates, and names a label of the script, returning
    the empty list otherwise.  On a call whose [next] is the node [nx], the
    only entry [execute] can push on the return stack is the name of [nx],
    and a completed [execute] has pushed it, marked the transfer abnormal
    and set the next node to the looked-up target. *)
Theorem Call_return_site c st :
  (call_next c = None →
     raises (Call_execute c st).1 ∧
     context (Call_execute c st).2 = context st ∧
     (∀ n, (Call_predict c st).1 ≠ Ok [n]) ∧
     (call_expression c = false → (Call_predict c st).1 = Raise AttributeError) ∧
     (call_expression c = true →
        (raises (Call_predict c st).1 ↔
           probably_side_effect_free (call_label c) = true ∧
           ∃ v s', py_eval (call_label c) (store st) = (Ok v, s') ∧
                   Execution.has_label namemap
                     (qualify (call_global_label c) v) = true) ∧
        (¬ raises (Call_predict c st).1 → (Call_predict c st).1 = Ok []))) ∧
  (∀ nx, call_next c = Some nx →
     let out := Call_execute c st in
     (return_stack (context out.2) = return_stack (context st) ++ [node_name nx] ∨
      (raises out.1 ∧ return_stack (context out.2) = return_stack (context st))) ∧
     (out.1 = Ok tt →
        return_stack (context out.2) = return_stack (context st) ++ [node_name nx] ∧
        abnormal (context out.2) = true ∧
        ∃ label n, next_node_ (context out.2) = Some n ∧
                  Execution.lookup namemap label = Ok n)).
Proof.
  split.
  - intros Hnx. destruct (Call_execute_unlinked c st Hnx) as [Hr Hc].
    destruct (Call_predict_unlinked c st Hnx) as (Hp1 & Hp2 & Hp3). done.
  - intros nx Hnx. by apply Call_execute_linked.
Qed.

End statements.

(** *** A two-label script for the examples *)

Definition demo_namemap : gmap NodeName positive :=
  {[LabelName "start" := 1%positive; LabelName "ending" := 7%positive]}.

Definition demo_name (n : positive) : option NodeName :=
  Some (SerialName "game/script.rpy" 1 (Pos.to_nat n)).

(** Calls without arguments: there is no [ArgumentInfo] to evaluate. *)
Definition no_arguments (a : Empty_set) (s : gmap string Value)
    : Result (Value * Value) * gmap string Value :=
  match a with end.

(** [call start] as the last statement of its block, never chained to a
    successor. *)
Definition unlinked_call : Call (ArgumentInfo := Empty_set) :=
  mkCall None "start" false None "".

(** [call expression pick_route()] with no successor either. *)
Definition unlinked_computed_call : Call (ArgumentInfo := Empty_set) :=
  mkCall None "pick_route()" true None "".

(** [call expression destination], followed by node 2. *)
Definition linked_call : Call (ArgumentInfo := Empty_set) :=
  mkCall (Some 2%positive) "destination" true None "".

Definition destination_state : State :=
  with_store (λ _, {["destination" := VStr "ending"]}) fresh_state.

(** [jump nowhere], to a label the script does not define. *)
Definition stray_jump : Jump := mkJump None "nowhere" false "".

(** C4 as stated fails: [predict] raises on a call that has no successor
    (the return site is [self.next.name]) and on a jump to a static label
    the script does not define. *)
Lemma predict_never_raises_counterexample :
  ¬ (∀ py_eval namemap node_name (c : Call (ArgumentInfo := Empty_set)) st,
       ¬ raises (Call_predict py_eval namemap node_name c st).1) ∧
  ¬ (∀ py_eval namemap (j : Jump) st,
       ¬ raises (Jump_predict py_eval namemap j st).1).
Proof.
  split; intros Hclaim.
  - apply (Hclaim lookup_eval demo_namemap demo_name unlinked_call fresh_state).
    exact I.
  - apply (Hclaim lookup_eval demo_namemap stray_jump fresh_state).
    vm_compute. exact I.
Qed.

Lemma predict_contracts_witness :
  is_Some (call_next linked_call) ∧
  predict_contract lookup_eval demo_namemap
    (Call_predict lookup_eval demo_namemap demo_name linked_call)
    "destination" true "".
Proof.
  split; [by eexists|].
  apply (proj2 (predict_contracts lookup_eval demo_namemap demo_name) linked_call).
  by eexists.
Defined.

(** The linked call predicts the node of the label its expression names. *)
Example linked_call_predicts_target :
  (Call_predict lookup_eval demo_namemap demo_name linked_call destination_state).1
  = Ok [7%positive].
Proof. vm_compute. reflexivity. Qed.

(** C10 as stated fails for [predict]: on a call without successor whose
    target expression is not probably side-effect free, [predict] returns
    the empty list before it ever reads [self.next.name]. *)
Lemma Call_predict_unlinked_counterexample :
  ¬ (∀ py_eval namemap node_name (c : Call (ArgumentInfo := Empty_set)) st,
       call_next c = None →
       raises (Call_predict py_eval namemap node_name c st).1).
Proof.
  intros Hclaim.
  apply (Hclaim lookup_eval demo_namemap demo_name unlinked_computed_call
           fresh_state eq_refl).
Qed.

Lemma Call_return_site_witness :
  (call_next unlinked_call = None ∧
   raises (Call_execute lookup_eval demo_namemap demo_name no_arguments
             unlinked_call fresh_state).1) ∧
  (call_next linked_call = Some 2%positive ∧
   (Call_execute lookup_eval demo_namemap demo_name no_arguments
      linked_call destination_state).1 = Ok tt ∧
   return_stack (context (Call_execute lookup_eval demo_namemap demo_name
                            no_arguments linked_call destination_state).2)
   = return_stack (context destination_state) ++ [demo_name 2]).
Proof.
  split.
  - split; [reflexivity|].
    exact (proj1 (proj1 (Call_return_site lookup_eval demo_namemap demo_name
                           no_arguments unlinked_call fresh_state) eq_refl)).
  - split; [reflexivity|]. split; [vm_compute; reflexivity|].
    apply (proj2 (proj2 (Call_return_site lookup_eval demo_namemap demo_name
                           no_arguments linked_call destination_state)
                    2%positive eq_refl)).
    vm_compute. reflexivity.
Defined.

End Transfer.

(** ** The translation overlay *)

Module Translation.

(** The translation table of the script. *)
Record Translator : Type := mkTranslator {
  active_language : option string;
  language_translates : gmap (string * string) positive;
  default_translates : string → positive;
}.

(** Modelled from the spec: the translation-table lookup
    [lookup(identifier, alternate_identifier)].  It resolves to the active
    language's subtree for the identifier if there is one and to the
    canonical block otherwise; every identifier has exactly one canonical
    block.  The spec does not say what the alternate identifier is used
    for, and the model does not consult it. *)
Definition spec_lookup_translate (tl : Translator)
    (identifier : string) (alternate : option string) : option positive :=
  match active_language tl with
  | Some language =>
      match language_translates tl !! (identifier, language) with
      | Some n => Some n
      | None => Some (default_translates tl identifier)
      end
  | None => Some (default_translates tl identifier)
  end.

Definition not_directly : Exn :=
  Exception "Translation nodes cannot be run directly.".

Definition with_seen (seen : gset SeenKey) (seen_count new_count : Z) (st : State)
    : State :=
  mkState (context st) (store st) (config st) (current_statement_name st)
    seen seen_count new_count.

Section statements.
(** [script.translator.lookup_translate], [renpy.astsupport.hash64]. *)
Variable lookup_translate : string → option string → option positive.
Variable hash64 : string → Z.

Record Translate : Type := mkTranslate {
  translate_next : option positive;
  translate_identifier_ : string;
  translate_alternate : option string;
  translate_language : option string;
  translate_block : list positive;
}.

(** [Translate.execute]. *)
Definition Translate_execute (t : Translate) : M unit :=
  match translate_language t with
  | Some _ =>
      next_node (translate_next t) ;;
      raise not_directly
  | None =>
      next_node (lookup_translate (translate_identifier_ t) (translate_alternate t)) ;;
      modify (with_context
        (set_translate_identifiers
           (Some (translate_identifier_ t)) (translate_alternate t)))
  end.

(** The bookkeeping shared by [TranslateSay.execute] and
    [EndTranslate.execute]: an identifier is added to
    [persistent._seen_translates] once, raw or hashed by
    [config.hash_seen], and counted. *)
Definition mark_seen (identifier : string) (st : State) : State :=
  let hashed_key := HashedKey (hash64 identifier) in
  if bool_decide (RawKey identifier ∉ seen_translates st) &&
     bool_decide (hashed_key ∉ seen_translates st)
  then
    with_seen
      ((if hash_seen (config st) then {[hashed_key]} else {[RawKey identifier]})
         ∪ seen_translates st)
      (seen_translates_count st + 1) (new_translates_count st + 1) st
  else st.

(** "Perform the equivalent of an endtranslate block." *)
Definition clear_translate_identifiers (st : State) : State :=
  with_context (set_translate_identifiers None None) st.

Record TranslateSay : Type := mkTranslateSay {
  ts_self : positive;                       (* the node object itself *)
  ts_next : option positive;
  ts_identifier : string;
  ts_alternate : option string;
  ts_language : option string;
}.

(** [Say.execute(self)] for the say fields of the node: what it does to
    the session is the dialogue layer's business. *)
Variable Say_execute : TranslateSay → M unit.

(** Whether [TranslateSay.execute] hands over to a translation instead of
    saying the text itself. *)
Definition redirected (t : TranslateSay) : option positive :=
  match ts_language t with
  | Some _ => None
  | None =>
      match lookup_translate (ts_identifier t) (ts_alternate t) with
      | Some node => if bool_decide (node ≠ ts_self t) then Some node else None
      | None => None
      end
  end.

(** [TranslateSay.execute]. *)
Definition TranslateSay_execute (t : TranslateSay) : M unit :=
  next_node (ts_next t) ;;
  modify (with_context
    (set_translate_identifiers (Some (ts_identifier t)) (ts_alternate t))) ;;
  match redirected t with
  | Some node => next_node (Some node)
  | None =>
      finally (Say_execute t)
        (λ st, clear_translate_identifiers (mark_seen (ts_identifier t) st))
  end.

(** The session as [Say.execute] finds it inside [TranslateSay.execute]. *)
Definition entering_say (t : TranslateSay) (st : State) : State :=
  with_context
    (λ c, set_translate_identifiers (Some (ts_identifier t)) (ts_alternate t)
            (set_next_node (ts_next t) c)) st.

(** [EndTranslate.execute]. *)
Definition EndTranslate_execute (next : option positive) : M unit :=
  next_node next ;;
  tlid ← gets (λ st, translate_identifier (context st)) ;
  match tlid with
  | Some identifier => modify (mark_seen identifier)
  | None => mret tt
  end ;;
  modify clear_translate_identifiers.

(** *** [Translate] *)

(** C5. Executing a [Translate] node bound to a language sets the
    context's next node to the node's [next] and then raises; executing
    one with no language does not raise, sets the next node to the result
    of the translation-table lookup of (identifier, alternate) and records
    the identifier (and the alternate) as the context's current
    translation identifiers.  The lookup of the spec yields the active
    language's subtree when the table has one and the canonical block
    otherwise. *)
Theorem Translate_execute_cases t st :
  (∀ language, translate_language t = Some language →
     Translate_execute t st
     = (Raise not_directly, with_context (set_next_node (translate_next t)) st)) ∧
  (translate_language t = None →
     ∃ st',
       Translate_execute t st = (Ok tt, st') ∧
       next_node_ (context st')
         = lookup_translate (translate_identifier_ t) (translate_alternate t) ∧
       translate_identifier (context st') = Some (translate_identifier_ t) ∧
       alternate_translate_identifier (context st') = translate_alternate t) ∧
  (∀ tl identifier alternate,
     spec_lookup_translate tl identifier alternate
     = Some (default (default_translates tl identifier)
               (active_language tl ≫=
                  λ language, language_translates tl !! (identifier, language)))).
Proof.
  split; [|split].
  - intros language Hl. unfold Translate_execute. by rewrite Hl.
  - intros Hl. unfold Translate_execute. rewrite Hl. eexists. split; [done|]. done.
  - intros tl identifier alternate. unfold spec_lookup_translate.
    destruct (active_language tl) as [language|]; simpl; [|done].
    by destruct (language_translates tl !! (identifier, language)).
Qed.

(** *** Seen translations *)

Lemma mark_seen_fresh identifier st :
  RawKey identifier ∉ seen_translates st →
  HashedKey (hash64 identifier) ∉ seen_translates st →
  mark_seen identifier st
  = with_seen
      ((if hash_seen (config st) then {[HashedKey (hash64 identifier)]}
        else {[RawKey identifier]}) ∪ seen_translates st)
      (seen_translates_count st + 1) (new_translates_count st + 1) st.
Proof.
  intros Hraw Hhashed. unfold mark_seen.
  by rewrite !bool_decide_eq_true_2.
Qed.

Lemma mark_seen_known identifier st :
  RawKey identifier ∈ seen_translates st ∨
  HashedKey (hash64 identifier) ∈ seen_translates st →
  mark_seen identifier st = st.
Proof.
  intros Hin. unfold mark_seen.
  destruct (bool_decide (RawKey identifier ∉ seen_translates st)) eqn:Hraw;
    [|done].
  destruct (bool_decide (HashedKey (hash64 identifier) ∉ seen_translates st))
    eqn:Hhashed; [|done].
  apply bool_decide_eq_true in Hraw, Hhashed. tauto.
Qed.

Lemma mark_seen_recorded identifier st :
  RawKey identifier ∈ seen_translates (mark_seen identifier st) ∨
  HashedKey (hash64 identifier) ∈ seen_translates (mark_seen identifier st).
Proof.
  destruct (decide (RawKey identifier ∈ seen_translates st)) as [Hraw|Hraw].
  { rewrite mark_seen_known by tauto. tauto. }
  destruct (decide (HashedKey (hash64 identifier) ∈ seen_translates st))
    as [Hhashed|Hhashed].
  { rewrite mark_seen_known by tauto. tauto. }
  rewrite mark_seen_fresh by done. simpl.
  destruct (hash_seen (config st)); [right|left]; set_solver.
Qed.

(** C6. [TranslateSay.execute] on its say path and [EndTranslate.execute]
    under a current translation identifier both finish by [mark_seen] on
    that identifier.  When neither the identifier nor its hash is in
    [persistent._seen_translates], [mark_seen] adds exactly one key, the
    hash under [config.hash_seen] and the identifier otherwise, and adds
    one to both counters; when either is already there it changes nothing.
    After it either key is there, so a second [mark_seen] is the identity,
    whatever the policy then is. *)
Theorem seen_translates_once identifier st :
  let raw := RawKey identifier in
  let hashed := HashedKey (hash64 identifier) in
  let key := if hash_seen (config st) then hashed else raw in
  (∀ t, redirected t = None →
     TranslateSay_execute t st
     = ((Say_execute t (entering_say t st)).1,
        clear_translate_identifiers
          (mark_seen (ts_identifier t) (Say_execute t (entering_say t st)).2))) ∧
  (∀ next, translate_identifier (context st) = Some identifier →
     EndTranslate_execute next st
     = (Ok tt, clear_translate_identifiers
                 (mark_seen identifier (with_context (set_next_node next) st)))) ∧
  (raw ∉ seen_translates st → hashed ∉ seen_translates st →
     seen_translates (mark_seen identifier st) = {[key]} ∪ seen_translates st ∧
     size (seen_translates (mark_seen identifier st))
       = S (size (seen_translates st)) ∧
     seen_translates_count (mark_seen identifier st)
       = (seen_translates_count st + 1)%Z ∧
     new_translates_count (mark_seen identifier st)
       = (new_translates_count st + 1)%Z) ∧
  (raw ∈ seen_translates st ∨ hashed ∈ seen_translates st →
     mark_seen identifier st = st) ∧
  (raw ∈ seen_translates (mark_seen identifier st) ∨
   hashed ∈ seen_translates (mark_seen identifier st)) ∧
  mark_seen identifier (mark_seen identifier st) = mark_seen identifier st.
Proof.
  intros raw hashed key. split; [|split; [|split; [|split; [|split]]]].
  - intros t Hred. unfold TranslateSay_execute. rewrite Hred.
    unfold mbind, M_bind, next_node, modify, finally. simpl.
    change (with_context _ (with_context _ st)) with (entering_say t st).
    by destruct (Say_execute t (entering_say t st)) as [r st1].
  - intros next Htl. unfold EndTranslate_execute.
    unfold mbind, M_bind, next_node, modify, gets. simpl. by rewrite Htl.
  - intros Hraw Hhashed. rewrite mark_seen_fresh by done. simpl.
    fold hashed raw.
    replace (if hash_seen (config st) then {[hashed]} else {[raw]})
      with ({[key]} : gset SeenKey) by (unfold key; by destruct (hash_seen _)).
    split; [done|]. split; [|done].
    rewrite size_union, size_singleton; [done|].
    unfold key. destruct (hash_seen (config st)); set_solver.
  - apply mark_seen_known.
  - apply mark_seen_recorded.
  - apply mark_seen_known, mark_seen_recorded.
Qed.

End statements.

(** *** A script with one French line *)

Definition french : Translator :=
  mkTranslator (Some "fr") {[("start_a170b500", "fr") := 21%positive]}
    (λ _, 20%positive).

Definition german : Translator :=
  mkTranslator (Some "de") {[("start_a170b500", "fr") := 21%positive]}
    (λ _, 20%positive).

Definition start_line : Translate :=
  mkTranslate (Some 20%positive) "start_a170b500" None None [20%positive].

(** With German active there is no substitute, and the canonical block
    runs. *)
Example german_falls_back :
  (Translate_execute (spec_lookup_translate german) start_line fresh_state).1 = Ok tt ∧
  next_node_ (context
    (Translate_execute (spec_lookup_translate german) start_line fresh_state).2)
  = Some 20%positive.
Proof. vm_compute. done. Qed.

Lemma Translate_execute_cases_witness :
  translate_language start_line = None ∧
  ∃ st',
    Translate_execute (spec_lookup_translate french) start_line fresh_state
    = (Ok tt, st') ∧
    next_node_ (context st') = Some 21%positive ∧
    translate_identifier (context st') = Some "start_a170b500".
Proof.
  split; [reflexivity|].
  destruct (proj1 (proj2 (Translate_execute_cases (spec_lookup_translate french)
                            start_line fresh_state)) eq_refl)
    as (st' & Hrun & Hnext & Hid & _).
  exists st'. split; [exact Hrun|]. split; [|exact Hid].
  rewrite Hnext. vm_compute. reflexivity.
Defined.

(** A stand-in for [hash64] in the examples. *)
Definition length_hash (identifier : string) : Z :=
  Z.of_nat (String.length identifier).

Lemma seen_translates_once_witness :
  RawKey "start_a170b500" ∉ seen_translates fresh_state ∧
  HashedKey (length_hash "start_a170b500") ∉ seen_translates fresh_state ∧
  seen_translates (mark_seen length_hash "start_a170b500" fresh_state)
    = {[RawKey "start_a170b500"]} ∪ seen_translates fresh_state ∧
  seen_translates_count (mark_seen length_hash "start_a170b500" fresh_state)
    = (seen_translates_count fresh_state + 1)%Z.
Proof.
  assert (RawKey "start_a170b500" ∉ seen_translates fresh_state) as Hraw
    by (simpl; set_solver).
  assert (HashedKey (length_hash "start_a170b500") ∉ seen_translates fresh_state)
    as Hhashed by (simpl; set_solver).
  split; [exact Hraw|]. split; [exact Hhashed|].
  destruct (seen_translates_once (λ _ _, None) length_hash (λ _ st, (Ok tt, st))
              "start_a170b500" fresh_state)
    as (_ & _ & Hfresh & _).
  destruct (Hfresh Hraw Hhashed) as (Hset & _ & Hcount & _).
  split; [exact Hset|exact Hcount].
Defined.

End Translation.

(** ** [Menu] *)

Module MenuStmt.

(** An entry of [Menu.items]: [(label, condition, block)]. *)
Notation Item := (string * string * option (list positive))%type.

(** An entry of the list handed to the chooser: [(label, condition, value)],
    where the value is the index of the item, or [None] for an entry
    without a block. *)
Notation Choice := (string * string * option nat)%type.

(** Evaluated arguments: [(args, kwargs)]. *)
Notation Arguments := (list Value * gmap string Value)%type.

(** The three lists [Menu.execute] builds in its loop. *)
Record Collected : Type := mkCollected {
  choices : list Choice;
  narration : list string;
  item_arguments : list Arguments;
}.

(** [config.say_menu_text_filter], when set, applied to a label. *)
Definition filtered (cfg : Config) (label : string) : string :=
  match say_menu_text_filter cfg with
  | Some f => f label
  | None => label
  end.

(** The entries that go to the narrator: no block, and a label that is
    not empty, under [config.narrator_menu]. *)
Definition narrated (cfg : Config) (item : Item) : bool :=
  match item.2 with
  | None => narrator_menu cfg && negb (String.eqb (filtered cfg item.1.1) "")
  | Some _ => false
  end.

(** The choice an item stands for when it is the [i]-th of the menu. *)
Definition choice_of (cfg : Config) (i : nat) (item : Item) : Choice :=
  (filtered cfg item.1.1, item.1.2,
   match item.2 with Some _ => Some i | None => None end).

(** The choices of the items, in their order, numbered from [i]. *)
Fixpoint offered_from (cfg : Config) (i : nat) (items : list Item) : list Choice :=
  match items with
  | [] => []
  | item :: rest =>
      if narrated cfg item then offered_from cfg (S i) rest
      else choice_of cfg i item :: offered_from cfg (S i) rest
  end.

Definition offered (cfg : Config) (items : list Item) : list Choice :=
  offered_from cfg 0 items.

(** The labels that go to the narrator, in their order. *)
Definition narrated_labels (cfg : Config) (items : list Item) : list string :=
  (λ item : Item, filtered cfg item.1.1) <$> filter (λ item, narrated cfg item = true) items.

Section execute.
Variable py_eval : Evaluator.
Context {ArgumentInfo : Type}.
Variable evaluate :
  ArgumentInfo → gmap string Value → Result Arguments * gmap string Value.
(** [renpy.game.preferences.transitions]. *)
Variable transitions : Z.
(** [renpy.game.interface.set_transition]. *)
Variable set_transition : Value → M unit.
(** [renpy.exports.say(None, text, interact=False)]. *)
Variable narrator_say : string → M unit.
(** [renpy.exports.menu(choices, set, args, kwargs, item_arguments)]: the
    chooser returns the value of the picked choice, or [None]. *)
Variable exports_menu :
  list Choice → option string → option Arguments → list Arguments → M (option nat).

Record Menu : Type := mkMenu {
  menu_next : option positive;
  menu_items : list Item;
  menu_set : option string;
  menu_with : option string;
  menu_has_caption : bool;
  menu_arguments : option ArgumentInfo;
  menu_item_arguments : option (list (option ArgumentInfo));
}.

Definition run_evaluate (a : ArgumentInfo) : M Arguments :=
  λ st, let '(r, s') := evaluate a (store st) in (r, with_store (λ _, s') st).

(** [say_menu_with(expression, callback)]. *)
Definition say_menu_with (expression : option string) (callback : Value → M unit)
    : M unit :=
  what ← match expression with
         | Some e => v ← eval py_eval e ; mret (Some v)
         | None =>
             default_transition ←
               gets (λ st, default VNone (store st !! "default_transition")) ;
             if truthy default_transition && (transitions =? 2)%Z
             then mret (Some default_transition)
             else mret None
         end ;
  match what with
  | None => mret tt
  | Some w =>
      if negb (truthy w) then mret tt
      else if negb (transitions =? 0)%Z then callback w
      else mret tt
  end.

(** The item arguments appended for the [i]-th item. *)
Definition arguments_of_item (m : Menu) (i : nat) : M Arguments :=
  match menu_item_arguments m with
  | Some ((_ :: _) as l) =>
      match l !! i with
      | None => raise IndexError
      | Some (Some a) => run_evaluate a
      | Some None => mret ([], ∅)
      end
  | Some [] | None => mret ([], ∅)
  end.

(** One turn of [for i, (label, condition, block) in enumerate(self.items)]. *)
Definition Menu_item (m : Menu) (i : nat) (item : Item) (acc : Collected)
    : M Collected :=
  let '(label, condition, block) := item in
  cfg ← gets config ;
  let label := filtered cfg label in
  match block with
  | None =>
      if narrator_menu cfg && negb (String.eqb label "") then
        mret (mkCollected (choices acc) (narration acc ++ [label])
                (item_arguments acc))
      else
        a ← arguments_of_item m i ;
        mret (mkCollected (choices acc ++ [(label, condition, None)])
                (narration acc) (item_arguments acc ++ [a]))
  | Some b =>
      match b with
      | first :: _ =>
          next_node (Some first) ;;
          a ← arguments_of_item m i ;
          mret (mkCollected (choices acc ++ [(label, condition, Some i)])
                  (narration acc) (item_arguments acc ++ [a]))
      | [] => raise IndexError
      end
  end.

(** The loop over the items from index [i] on. *)
Fixpoint Menu_loop (m : Menu) (i : nat) (items : list Item) (acc : Collected)
    : M Collected :=
  match items with
  | [] => mret acc
  | item :: rest =>
      acc' ← Menu_item m i item acc ;
      Menu_loop m (S i) rest acc'
  end.

Definition Menu_collect (m : Menu) : M Collected :=
  Menu_loop m 0 (menu_items m) (mkCollected [] [] []).

(** The statement name reported for the menu. *)
Definition menu_statement_name (m : Menu) (kwargs : option (gmap string Value))
    (cfg : Config) : string :=
  let name :=
    match kwargs with
    | Some k =>
        match k !! "nvl" with
        | Some (VBool true) => "menu-nvl"
        | _ => "menu"
        end
    | None => "menu"
    end in
  if menu_has_caption m || choice_empty_window cfg
  then name +:+ "-with-caption" else name.

(** The end of [Menu.execute]: where control goes for the chooser's
    answer. *)
Definition Menu_finish (m : Menu) (choice : option nat) : M unit :=
  match choice with
  | Some c =>
      match menu_items m !! c with
      | None => raise IndexError
      | Some (_, _, None) => raise TypeError
      | Some (_, _, Some []) => raise IndexError
      | Some (_, _, Some (first :: _)) => next_node (Some first)
      end
  | None => next_node (menu_next m)
  end.

(** [Menu.execute]. *)
Definition Menu_execute (m : Menu) : M unit :=
  next_node (menu_next m) ;;
  arguments ← match menu_arguments m with
              | Some a => r ← run_evaluate a ; mret (Some r)
              | None => mret None
              end ;
  cfg ← gets config ;
  statement_name (menu_statement_name m (snd <$> arguments) cfg) ;;
  acc ← Menu_collect m ;
  match narration acc with
  | [] => mret tt
  | _ :: _ => narrator_say (String.concat (String (ascii_of_nat 10) "") (narration acc))
  end ;;
  say_menu_with (menu_with m) set_transition ;;
  choice ← exports_menu (choices acc) (menu_set m) arguments (item_arguments acc) ;
  Menu_finish m choice.

(** *** The loop builds the offered choices *)

Lemma arguments_of_item_config m i st :
  config (arguments_of_item m i st).2 = config st.
Proof.
  unfold arguments_of_item, run_evaluate.
  destruct (menu_item_arguments m) as [[|x l]|]; try done.
  destruct ((x :: l) !! i) as [[a|]|]; try done.
  by destruct (evaluate a (store st)) as [r s'].
Qed.

Lemma Menu_item_spec m i item acc st acc' st' :
  Menu_item m i item acc st = (Ok acc', st') →
  config st' = config st ∧
  choices acc' =
    choices acc ++ (if narrated (config st) item then []
                    else [choice_of (config st) i item]) ∧
  narration acc' =
    narration acc ++ (if narrated (config st) item
                      then [filtered (config st) item.1.1] else []).
Proof.
  destruct item as [[label condition] block].
  unfold Menu_item, narrated, choice_of, mbind, M_bind, gets, next_node, modify.
  simpl. destruct block as [[|first rest]|]; simpl.
  - discriminate.
  - pose proof (arguments_of_item_config m i
      (with_context (set_next_node (Some first)) st)) as Hcfg.
    destruct (arguments_of_item m i (with_context (set_next_node (Some first)) st))
      as [[a|e] st1]; [|discriminate].
    intros [= <- <-]. simpl in *. by rewrite app_nil_r.
  - destruct (narrator_menu (config st) &&
              negb (String.eqb (filtered (config st) label) "")); simpl.
    + intros [= <- <-]. simpl. by rewrite app_nil_r.
    + pose proof (arguments_of_item_config m i st) as Hcfg.
      destruct (arguments_of_item m i st) as [[a|e] st1]; [|discriminate].
      intros [= <- <-]. simpl in *. by rewrite app_nil_r.
Qed.

Lemma Menu_loop_spec m items :
  ∀ i acc st acc' st',
    Menu_loop m i items acc st = (Ok acc', st') →
    config st' = config st ∧
    choices acc' = choices acc ++ offered_from (config st) i items ∧
    narration acc' = narration acc ++ narrated_labels (config st) items.
Proof.
  induction items as [|item rest IH]; intros i acc st acc' st' Hrun; simpl in Hrun.
  - injection Hrun as <- <-. by rewrite !app_nil_r.
  - unfold mbind, M_bind in Hrun.
    destruct (Menu_item m i item acc st) as [[acc1|e] st1] eqn:Hitem;
      [|discriminate].
    apply Menu_item_spec in Hitem as (Hcfg & Hch & Hna).
    apply IH in Hrun as (Hcfg' & Hch' & Hna').
    rewrite Hcfg in *. split; [done|].
    rewrite Hch', Hna', Hch, Hna. unfold narrated_labels. simpl.
    destruct (narrated (config st) item) eqn:Hn.
    + rewrite filter_cons_True by done. simpl.
      by rewrite app_nil_r, <- !app_assoc.
    + rewrite filter_cons_False by (by rewrite Hn).
      by rewrite app_nil_r, <- !app_assoc.
Qed.

(** The offered choices keep the conditions of the items that are not
    narrated, in declaration order. *)
Lemma offered_from_conditions cfg items :
  ∀ i, (λ c : Choice, c.1.2) <$> offered_from cfg i items
       = (λ item : Item, item.1.2)
           <$> filter (λ item, narrated cfg item = false) items.
Proof.
  induction items as [|item rest IH]; intros i; simpl; [done|].
  destruct (narrated cfg item) eqn:Hn.
  - rewrite filter_cons_False by (by rewrite Hn). apply IH.
  - rewrite filter_cons_True by done. simpl. by rewrite IH.
Qed.

(** The value of an offered choice is the index of an item with a block. *)
Lemma offered_from_value cfg items :
  ∀ i label condition k,
    (label, condition, Some k) ∈ offered_from cfg i items →
    ∃ j caption block,
      k = i + j ∧ items !! j = Some (caption, condition, Some block) ∧
      label = filtered cfg caption.
Proof.
  induction items as [|item rest IH]; intros i label condition k Hin; simpl in Hin.
  - by apply elem_of_nil in Hin.
  - assert ((label, condition, Some k) ∈ offered_from cfg (S i) rest →
            ∃ j caption block,
              k = i + j ∧ (item :: rest) !! j = Some (caption, condition, Some block) ∧
              label = filtered cfg caption) as Hrest.
    { intros H. apply IH in H as (j & caption & block & -> & Hj & ->).
      exists (S j), caption, block. split; [lia|done]. }
    destruct (narrated cfg item); [by apply Hrest|].
    apply elem_of_cons in Hin as [Heq|Hin]; [|by apply Hrest].
    destruct item as [[caption cond] [block|]]; unfold choice_of in Heq;
      simpl in Heq; [|discriminate].
    injection Heq as -> -> ->. exists 0, caption, block.
    split; [lia|done].
Qed.

(** Every run of [Menu.execute] that returns, step by step: the loop, the
    narration if there is any, the transition, the chooser, and the
    transfer. *)
Lemma Menu_execute_trace m st st' :
  Menu_execute m st = (Ok tt, st') →
  ∃ arguments st0 acc st1 st2 st3 choice st4,
    config st0 = config st ∧
    next_node_ (context st0) = menu_next m ∧
    Menu_collect m st0 = (Ok acc, st1) ∧
    match narration acc with
    | [] => st2 = st1
    | _ :: _ =>
        narrator_say
          (String.concat (String (ascii_of_nat 10) "") (narration acc)) st1
        = (Ok tt, st2)
    end ∧
    say_menu_with (menu_with m) set_transition st2 = (Ok tt, st3) ∧
    exports_menu (choices acc) (menu_set m) arguments (item_arguments acc) st3
    = (Ok choice, st4) ∧
    Menu_finish m choice st4 = (Ok tt, st').
Proof.
  unfold Menu_execute. unfold mbind at 1 2 3 4 5 6 7 8, M_bind.
  unfold next_node at 1, modify at 1, gets at 1.
  set (sta := with_context (set_next_node (menu_next m)) st).
  destruct (match menu_arguments m with
            | Some a => r ← run_evaluate a ; mret (Some r)
            | None => mret None
            end sta) as [[arguments|e] stb] eqn:Hargs; [|discriminate].
  assert (config stb = config st ∧ next_node_ (context stb) = menu_next m)
    as [Hcfg Hnext].
  { destruct (menu_arguments m) as [a|].
    - unfold mbind, M_bind, run_evaluate in Hargs.
      destruct (evaluate a (store sta)) as [[r|e] s']; [|discriminate].
      by injection Hargs as _ <-.
    - by injection Hargs as _ <-. }
  unfold statement_name at 1, modify at 1.
  set (st0 := mkState _ _ _ _ _ _ _).
  destruct (Menu_collect m st0) as [[acc|e] st1] eqn:Hcollect; [|discriminate].
  destruct (match narration acc with
            | [] => mret tt
            | _ :: _ =>
                narrator_say
                  (String.concat (String (ascii_of_nat 10) "") (narration acc))
            end st1) as [[[]|e] st2] eqn:Hsay; [|discriminate].
  destruct (say_menu_with (menu_with m) set_transition st2) as [[[]|e] st3]
    eqn:Hwith; [|discriminate].
  destruct (exports_menu (choices acc) (menu_set m) arguments (item_arguments acc)
              st3) as [[choice|e] st4] eqn:Hmenu; [|discriminate].
  intros Hfinish.
  exists arguments, st0, acc, st1, st2, st3, choice, st4.
  split; [done|]. split; [done|]. split; [done|]. split; [|done].
  destruct (narration acc); [|done]. by injection Hsay as <-.
Qed.

(** The transfer at the end, for an answer it accepts. *)
Lemma Menu_finish_spec m choice st st' :
  Menu_finish m choice st = (Ok tt, st') →
  match choice with
  | Some c =>
      ∃ label condition first rest,
        menu_items m !! c = Some (label, condition, Some (first :: rest)) ∧
        st' = with_context (set_next_node (Some first)) st
  | None => st' = with_context (set_next_node (menu_next m)) st
  end.
Proof.
  unfold Menu_finish. destruct choice as [c|]; [|by intros [= <-]].
  destruct (menu_items m !! c) as [[[label condition] [[|first rest]|]]|];
    try discriminate.
  intros [= <-]. by exists label, condition, first, rest.
Qed.

(** C7, as the code has it.  Whenever [Menu.execute] returns, the chooser
    has been called, once the narration was said and the transition set,
    with the items' choices in declaration order, each with its
    (filtered) label and its guard condition, leaving out exactly the
    entries that go to the narrator: those with no block and a non-empty
    label, under [config.narrator_menu]; their labels, joined by
    newlines, are what the narrator said.  The value of every offered
    choice with a block is the index of its item.  The statement ends in
    the session the chooser left, with the context's next node at the
    first node of the block of the item the chooser answered with, or at
    the menu's [next] when it answered [None]. *)
Theorem Menu_choices_in_order m st st' :
  Menu_execute m st = (Ok tt, st') →
  let offer := offered (config st) (menu_items m) in
  let lines := narrated_labels (config st) (menu_items m) in
  (λ c : Choice, c.1.2) <$> offer
    = (λ item : Item, item.1.2)
        <$> filter (λ item, narrated (config st) item = false) (menu_items m) ∧
  (∀ label condition k, (label, condition, Some k) ∈ offer →
     ∃ caption block,
       menu_items m !! k = Some (caption, condition, Some block) ∧
       label = filtered (config st) caption) ∧
  ∃ arguments arguments_of_items st1 st2 st3 choice st4,
    match lines with
    | [] => st2 = st1
    | _ :: _ =>
        narrator_say (String.concat (String (ascii_of_nat 10) "") lines) st1
        = (Ok tt, st2)
    end ∧
    say_menu_with (menu_with m) set_transition st2 = (Ok tt, st3) ∧
    exports_menu offer (menu_set m) arguments arguments_of_items st3
    = (Ok choice, st4) ∧
    match choice with
    | Some c =>
        ∃ label condition first rest,
          menu_items m !! c = Some (label, condition, Some (first :: rest)) ∧
          st' = with_context (set_next_node (Some first)) st4
    | None => st' = with_context (set_next_node (menu_next m)) st4
    end.
Proof.
  intros Hrun offer lines.
  split; [apply offered_from_conditions|]. split.
  { intros label condition k Hin.
    apply offered_from_value in Hin as (j & caption & block & -> & Hj & ->).
    by exists caption, block. }
  destruct (Menu_execute_trace m st st' Hrun)
    as (arguments & st0 & acc & st1 & st2 & st3 & choice & st4
        & Hcfg & _ & Hcollect & Hsay & Hwith & Hmenu & Hfinish).
  apply Menu_loop_spec in Hcollect as (_ & Hch & Hna).
  simpl in Hch, Hna. rewrite Hcfg in Hch, Hna. rewrite Hch, Hna in *.
  exists arguments, (item_arguments acc), st1, st2, st3, choice, st4.
  split; [done|]. split; [done|]. split; [done|].
  by apply Menu_finish_spec.
Qed.

End execute.

(** *** Two menus under [config.narrator_menu] *)

Definition narrator_state : State :=
  mkState fresh_context ∅ (mkConfig false false true false None) "init" ∅ 0 0.

Definition no_item_arguments (a : Empty_set) (s : gmap string Value)
    : Result Arguments * gmap string Value :=
  match a with end.

(** A menu with a caption line and two guarded choices. *)
Definition door_menu : Menu (ArgumentInfo := Empty_set) :=
  mkMenu (Some 9%positive)
    [("Where to?", "True", None);
     ("Left", "door_open", Some [5; 6]%positive);
     ("Right", "True", Some [8%positive])]
    None None true None None.

(** A menu whose first entry has no block and an empty label. *)
Definition blank_menu : Menu (ArgumentInfo := Empty_set) :=
  mkMenu (Some 9%positive)
    [("", "True", None); ("Left", "True", Some [5%positive])]
    None None false None None.

(** Collaborators for the examples: a narrator and a transition setter
    that do nothing, and a chooser that takes the last choice offered. *)
Definition silent (A : Type) (x : A) : M unit := λ st, (Ok tt, st).

Definition last_choice (choices : list Choice) (set : option string)
    (arguments : option Arguments) (item_arguments : list Arguments)
    : M (option nat) :=
  λ st, (Ok (last choices ≫= λ c : Choice, c.2), st).

Example door_menu_collects :
  (Menu_collect no_item_arguments door_menu narrator_state).1
  = Ok (mkCollected [("Left", "door_open", Some 1); ("Right", "True", Some 2)]
          ["Where to?"] [([], ∅); ([], ∅)]).
Proof. vm_compute. reflexivity. Qed.

(** A chooser that tells whether it was offered the blank entry: it
    answers with item 1 if so, and with [None] if not. *)
Definition blank_spy (choices : list Choice) (set : option string)
    (arguments : option Arguments) (item_arguments : list Arguments)
    : M (option nat) :=
  λ st, (Ok (if bool_decide (("", "True", None) ∈ choices) then Some 1 else None),
         st).

(** C7 as stated fails on the entry with no block and no label text: the
    narrator takes an entry only when its label is not empty, so this one
    stays in the list the chooser gets.  Were every entry without a block
    diverted to the narration, taking such entries out of the list handed
    to the chooser could not change what [Menu.execute] does. *)
Lemma Menu_blank_entry_counterexample :
  ¬ (∀ (m : Menu (ArgumentInfo := Empty_set)) st chooser,
       narrator_menu (config st) = true →
       Menu_execute lookup_eval no_item_arguments 2 (silent Value)
         (silent string) chooser m st
       = Menu_execute lookup_eval no_item_arguments 2 (silent Value)
           (silent string)
           (λ choices, chooser (filter (λ c : Choice, is_Some c.2) choices))
           m st).
Proof.
  intros Hclaim.
  specialize (Hclaim blank_menu narrator_state blank_spy eq_refl).
  vm_compute in Hclaim. discriminate.
Qed.

Lemma Menu_choices_in_order_witness :
  ∃ st',
    Menu_execute lookup_eval no_item_arguments 2 (silent Value) (silent string)
      last_choice door_menu narrator_state = (Ok tt, st') ∧
    ∃ arguments arguments_of_items st1 st2 st3 choice st4,
      silent string "Where to?" st1 = (Ok tt, st2) ∧
      say_menu_with lookup_eval 2 None (silent Value) st2 = (Ok tt, st3) ∧
      last_choice [("Left", "door_open", Some 1); ("Right", "True", Some 2)]
        None arguments arguments_of_items st3
      = (Ok choice, st4) ∧
      match choice with
      | Some c =>
          ∃ label condition first rest,
            menu_items door_menu !! c
            = Some (label, condition, Some (first :: rest)) ∧
            st' = with_context (set_next_node (Some first)) st4
      | None => st' = with_context (set_next_node (Some 9%positive)) st4
      end.
Proof.
  destruct (Menu_execute lookup_eval no_item_arguments 2 (silent Value)
              (silent string) last_choice door_menu narrator_state)
    as [r st'] eqn:Hrun.
  assert (r = Ok tt) as -> by (vm_compute in Hrun; by injection Hrun as <- _).
  exists st'. split; [reflexivity|].
  exact (proj2 (proj2 (Menu_choices_in_order lookup_eval no_item_arguments 2
                         (silent Value) (silent string) last_choice door_menu
                         narrator_state st' Hrun))).
Defined.

End MenuStmt.

(** ** [diff_info] *)

Module Diff.

(** The class objects that head the tuples: every class of the module
    that defines a [diff_info] of its own. *)
Inductive Class : Type :=
| SayClass | LabelClass | PythonClass | EarlyPythonClass | ImageClass
| TransformClass | ShowClass | ShowLayerClass | CameraClass | SceneClass
| HideClass | WithClass | CallClass | ReturnClass | MenuClass | JumpClass
| PassClass | WhileClass | IfClass | UserStatementClass
| PostUserStatementClass | DefineClass | DefaultClass | ScreenClass
| StyleClass | TestcaseClass | RPYClass | TranslateClass | TranslateSayClass
| EndTranslateClass | TranslateStringClass | TranslatePythonClass.

(** The components of a [diff_info] tuple. *)
Inductive Field : Type :=
| OfClass (c : Class)
| OfId (a : positive)              (* [id(self)] *)
| OfStr (s : string)
| OfNone                           (* [None] *)
| OfBool (b : bool)
| OfTuple (names : list string).   (* a tuple of strings *)

#[export] Instance Class_eq_dec : EqDecision Class.
Proof. solve_decision. Defined.

#[export] Instance Field_eq_dec : EqDecision Field.
Proof. solve_decision. Defined.

(** A field of type [str | None]. *)
Definition of_optional (s : option string) : Field :=
  match s with
  | Some s => OfStr s
  | None => OfNone
  end.

(** The arguments of a statement, as parsed: optional keyword names with
    their expressions. *)
Notation ArgumentInfo := (list (option string * string)).

(** An object of another module (an ATL block, the parse of a user
    statement, a test block), by its identity. *)
Notation Foreign := positive.

(** The fields [Say.__init__] stores and [Say.execute] reads. *)
Record SayFields : Type := mkSay {
  who : option string;
  what : string;
  with_ : option string;
  interact : bool;
  attributes : option (list string);
  arguments : option ArgumentInfo;
  temporary_attributes : option (list string);
}.

(** An image specifier, in the longest of its three forms; [imspec[0]],
    the one component [diff_info] reads, is the image name in all
    three. *)
Record Imspec : Type := mkImspec {
  image_name : list string;
  image_expression : option string;
  image_tag : option string;
  image_at_list : list string;
  image_layer : option string;
  image_zorder : option string;
  image_behind : list string;
}.

(** The fields [UserStatement.__init__] gets. *)
Record UserStatementFields : Type := mkUserStatement {
  line : string;
  user_block : Foreign;
  parsed : Foreign;
}.

(** The screen object of a [Screen] node, with the attribute the node
    reads here. *)
Record SLScreen : Type := mkSLScreen {
  screen_name : string;
  screen_object : Foreign;
}.

(** The statements, by the fields their constructors store.  A [PyCode]
    is given by its [source]. *)
Inductive Node : Type :=
| Say (s : SayFields)
| Init (block : list positive) (priority : Z)
| Label (name : string) (block : list positive) (hide : bool)
| Python (source : string) (hide : bool) (store : string)
| EarlyPython (source : string) (hide : bool) (store : string)
| Image (imgname : list string) (source : option string) (atl : option Foreign)
| Transform (store : string) (varname : string) (atl : Foreign)
| Show (imspec : Imspec) (atl : option Foreign)
| ShowLayer (layer : string) (at_list : list string) (atl : option Foreign)
| Camera (layer : string) (at_list : list string) (atl : option Foreign)
| Scene (imspec : option Imspec) (layer : string) (atl : option Foreign)
| Hide (imspec : Imspec)
| With (expr : string) (paired : option string)
| Call (label : string) (expression : bool) (arguments : option ArgumentInfo)
    (global_label : string)
| Return (expression : option string)
| Menu (items : list (string * string * option (list positive)))
    (set : option string) (with_ : option string) (has_caption : bool)
| Jump (target : string) (expression : bool) (global_label : string)
| Pass
| While (condition : string) (block : list positive)
| If (entries : list (string * list positive))
| UserStatement (u : UserStatementFields)
| PostUserStatement (parent : UserStatementFields)
| Define (store : string) (varname : string) (index : option string)
    (operator : string) (source : string)
| Default (store : string) (varname : string) (source : string)
| Screen (screen : SLScreen)
| Style (style_name : string)
| Testcase (label : string) (test : Foreign)
| RPY (rest : list string)
| Translate (identifier : string) (language : option string)
    (block : list positive) (alternate : option string)
| TranslateSay (s : SayFields) (identifier : option string)
    (language : option string) (alternate : option string)
| EndTranslate
| TranslateString (language : string) (old : string) (new : string)
    (newloc : string * Z)
| TranslatePython (language : string) (source : string)
| TranslateBlock (language : string) (block : list positive)
| TranslateEarlyBlock (language : string) (block : list positive).

(** [Say.diff_info]. *)
Definition Say_diff_info (s : SayFields) : list Field :=
  [OfClass SayClass; of_optional (who s); OfStr (what s)].

(** [self.diff_info()] for the node object at address [self]. *)
Definition diff_info (self : positive) (n : Node) : list Field :=
  match n with
  | Say s => Say_diff_info s
  | Init _ _ | TranslateBlock _ _ | TranslateEarlyBlock _ _ =>
      [OfId self]                                        (* [Node.diff_info] *)
  | Label name _ _ => [OfClass LabelClass; OfStr name]
  | Python source _ _ => [OfClass PythonClass; OfStr source]
  | EarlyPython source _ _ => [OfClass EarlyPythonClass; OfStr source]
  | Image imgname _ _ => [OfClass ImageClass; OfTuple imgname]
  | Transform store varname _ =>
      [OfClass TransformClass; OfStr store; OfStr varname]
  | Show imspec _ => [OfClass ShowClass; OfTuple (image_name imspec)]
  | ShowLayer layer _ _ => [OfClass ShowLayerClass; OfStr layer]
  | Camera layer _ _ => [OfClass CameraClass; OfStr layer]
  | Scene imspec _ _ =>
      let data :=
        match imspec with
        | Some imspec => OfTuple (image_name imspec)
        | None => OfNone
        end in
      [OfClass SceneClass; data]
  | Hide imspec => [OfClass HideClass; OfTuple (image_name imspec)]
  | With expr _ => [OfClass WithClass; OfStr expr]
  | Call label expression _ _ =>
      [OfClass CallClass; OfStr label; OfBool expression]
  | Return _ => [OfClass ReturnClass]
  | Menu _ _ _ _ => [OfClass MenuClass]
  | Jump target expression _ =>
      [OfClass JumpClass; OfStr target; OfBool expression]
  | Pass => [OfClass PassClass]
  | While condition _ => [OfClass WhileClass; OfStr condition]
  | If _ => [OfClass IfClass]
  | UserStatement u => [OfClass UserStatementClass; OfStr (line u)]
  | PostUserStatement parent =>
      [OfClass PostUserStatementClass; OfStr (line parent)]
  | Define store varname _ _ _ =>
      [OfClass DefineClass; OfStr store; OfStr varname]
  | Default store varname _ =>
      [OfClass DefaultClass; OfStr store; OfStr varname]
  | Screen screen => [OfClass ScreenClass; OfStr (screen_name screen)]
  | Style style_name => [OfClass StyleClass; OfStr style_name]
  | Testcase label _ => [OfClass TestcaseClass; OfStr label]
  | RPY rest => [OfClass RPYClass; OfTuple rest]
  | Translate identifier language _ _ =>
      [OfClass TranslateClass; OfStr identifier; of_optional language]
  | TranslateSay s identifier language _ =>
      match language with
      | None => Say_diff_info s
      | Some _ =>
          [OfClass TranslateSayClass; of_optional identifier;
           of_optional language]
      end
  | EndTranslate => [OfClass EndTranslateClass]
  | TranslateString _ _ _ _ => [OfClass TranslateStringClass]
  | TranslatePython _ source => [OfClass TranslatePythonClass; OfStr source]
  end.

(** The classes that define a [diff_info] of their own: all but [Init],
    [TranslateBlock] and its subclass [TranslateEarlyBlock]. *)
Definition overrides_diff_info (n : Node) : bool :=
  match n with
  | Init _ _ | TranslateBlock _ _ | TranslateEarlyBlock _ _ => false
  | _ => true
  end.

(** [s] with another dialogue text. *)
Definition with_what (s : SayFields) (text : string) : SayFields :=
  mkSay (who s) text (with_ s) (interact s) (attributes s) (arguments s)
    (temporary_attributes s).

Lemma of_optional_inj s1 s2 : of_optional s1 = of_optional s2 → s1 = s2.
Proof. destruct s1, s2; simpl; congruence. Qed.

(** C8, as the code has it.  A [diff_info] defined by the node's own
    class depends on the stored fields only, so two nodes built from the
    same input get equal tuples; [Node.diff_info], which [Init],
    [TranslateBlock] and [TranslateEarlyBlock] keep, is the identity of the
    object and differs between two nodes.  The tuple of a [Say] node is its
    class, speaker and dialogue text: two [Say] nodes get the same tuple
    exactly when they agree on speaker and text, whatever their
    with-transition, interact flag, attributes and arguments are, and
    changing the text alone always changes the tuple.  A [TranslateSay]
    node with no language has the tuple of the [Say] node of the same
    fields; one bound to a language has its class, identifier and language
    as tuple, so two of them get the same tuple exactly when they agree on
    identifier and language, whatever their text is. *)
Theorem diff_info_key_fields :
  (∀ a b n, overrides_diff_info n = true → diff_info a n = diff_info b n) ∧
  (∀ a b n, overrides_diff_info n = false → a ≠ b →
            diff_info a n ≠ diff_info b n) ∧
  (∀ a b s1 s2,
     diff_info a (Say s1) = diff_info b (Say s2)
     ↔ who s1 = who s2 ∧ what s1 = what s2) ∧
  (∀ a b s text, text ≠ what s →
     diff_info a (Say (with_what s text)) ≠ diff_info b (Say s)) ∧
  (∀ a b s identifier alternate,
     diff_info a (TranslateSay s identifier None alternate)
     = diff_info b (Say s)) ∧
  (∀ a b s1 s2 identifier1 identifier2 language1 language2 alternate1 alternate2,
     diff_info a (TranslateSay s1 identifier1 (Some language1) alternate1)
     = diff_info b (TranslateSay s2 identifier2 (Some language2) alternate2)
     ↔ identifier1 = identifier2 ∧ language1 = language2).
Proof.
  split; [|split; [|split; [|split; [|split]]]].
  - intros a b n Hov. by destruct n.
  - intros a b n Hov Hab Heq.
    destruct n; try discriminate; simpl in Heq; congruence.
  - intros a b s1 s2. simpl. unfold Say_diff_info. split.
    + intros [= Hwho ->]. by apply of_optional_inj in Hwho as ->.
    + intros [-> ->]. done.
  - intros a b s text Hne. simpl. unfold Say_diff_info. simpl. congruence.
  - done.
  - intros. simpl. split.
    + intros [= Hid ->]. by apply of_optional_inj in Hid as ->.
    + intros [-> ->]. done.
Qed.

(** Two lines of the same speaker and text, one of them with a
    transition and without interaction. *)
Definition plain_line : SayFields :=
  mkSay (Some "e") "Hello." None true None None None.

Definition dissolved_line : SayFields :=
  mkSay (Some "e") "Hello." (Some "dissolve") false (Some ["happy"])
    (Some [(Some "multiple", "2")]) None.

(** C8 as stated fails three times: [Say] nodes that differ in fields
    [Say.execute] uses get the same tuple, two [Init] nodes built from the
    same input get different tuples, and a [TranslateSay] node bound to a
    language keeps its tuple when its dialogue text changes. *)
Lemma diff_info_counterexample :
  ¬ (∀ a b s1 s2,
       (with_ s1 ≠ with_ s2 ∨ interact s1 ≠ interact s2 ∨
        attributes s1 ≠ attributes s2 ∨ arguments s1 ≠ arguments s2) →
       diff_info a (Say s1) ≠ diff_info b (Say s2)) ∧
  ¬ (∀ a b n, diff_info a n = diff_info b n) ∧
  ¬ (∀ a b s identifier language alternate text, text ≠ what s →
       diff_info a (TranslateSay (with_what s text) identifier language alternate)
       ≠ diff_info b (TranslateSay s identifier language alternate)).
Proof.
  split; [|split]; intros Hclaim.
  - apply (Hclaim 1%positive 2%positive plain_line dissolved_line);
      [left; discriminate|reflexivity].
  - specialize (Hclaim 1%positive 2%positive (Init [] 0)). discriminate.
  - apply (Hclaim 1%positive 2%positive plain_line (Some "start_a170b500")
             (Some "french") None "Bonjour."); [discriminate|reflexivity].
Qed.

Lemma diff_info_key_fields_witness :
  overrides_diff_info (Init [] 0) = false ∧ 1%positive ≠ 2%positive ∧
  diff_info 1 (Init [] 0) ≠ diff_info 2 (Init [] 0) ∧
  "Goodbye." ≠ what plain_line ∧
  diff_info 1 (Say (with_what plain_line "Goodbye.")) ≠ diff_info 1 (Say plain_line) ∧
  diff_info 1 (TranslateSay (with_what plain_line "Bonjour.")
                 (Some "start_a170b500") (Some "french") None)
  = diff_info 2 (TranslateSay plain_line (Some "start_a170b500")
                   (Some "french") None).
Proof.
  destruct diff_info_key_fields as (_ & Hbase & _ & Htext & _ & Hbound).
  assert (1%positive ≠ 2%positive) as Hne by discriminate.
  assert ("Goodbye." ≠ what plain_line) as Htxt by discriminate.
  split; [reflexivity|]. split; [exact Hne|].
  split; [exact (Hbase 1%positive 2%positive (Init [] 0) eq_refl Hne)|].
  split; [exact Htxt|].
  split; [exact (Htext 1%positive 1%positive plain_line "Goodbye." Htxt)|].
  exact (proj2 (Hbound 1%positive 2%positive (with_what plain_line "Bonjour.")
                  plain_line (Some "start_a170b500") (Some "start_a170b500")
                  "french" "french" None None) (conj eq_refl eq_refl)).
Defined.

End Diff.

(** ** [scry] *)

Module Scrying.

(** [Scry.extend_text]: unknown, the [DoesNotExtend] sentinel, or a text. *)
Inductive ExtendText : Type :=
| NoExtendText
| DoesNotExtend
| ExtendsWith (text : string).

(** A [Scry] object; [Scry()] has every field at its class default. *)
Record Scry : Type := mkScry {
  scry_next : option positive;       (* [_next] *)
  interacts : bool;
  say : bool;
  menu_with_caption : bool;
  scry_who : Value;
  extend_text : ExtendText;
  multiple : Value;
}.

Definition new_scry : Scry :=
  mkScry None false false false VNone NoExtendText VNone.

Definition set_scry_next (n : option positive) (s : Scry) : Scry :=
  mkScry n (interacts s) (say s) (menu_with_caption s) (scry_who s)
    (extend_text s) (multiple s).

Definition set_interacts (b : bool) (s : Scry) : Scry :=
  mkScry (scry_next s) b (say s) (menu_with_caption s) (scry_who s)
    (extend_text s) (multiple s).

Definition sayer_not_defined (who : string) : Exn :=
  Exception ("Sayer '" +:+ who +:+ "' is not defined.").

(** [d.get(who, None)] followed by the test [rv is None]. *)
Definition get_defined (d : gmap string Value) (who : string) : option Value :=
  match d !! who with
  | Some VNone | None => None
  | Some v => Some v
  end.

Section scry.
Variable py_eval : Evaluator.
Variable namemap : gmap NodeName positive.
(** [renpy.python.store_dicts.get("store.character")]. *)
Variable character_store : option (gmap string Value).
Context {ArgumentInfo : Type}.
Variable evaluate :
  ArgumentInfo → gmap string Value
  → Result (list Value * gmap string Value) * gmap string Value.
(** [renpy.exports.scry_say(who, what, rv)], which fills in [rv]. *)
Variable scry_say : Value → string → Scry → M Scry.
(** The translation-table lookup. *)
Variable lookup_translate : string → option string → option positive.

(** [eval_who(who, fast)]. *)
Definition eval_who (who : option string) : M Value :=
  match who with
  | None => mret VNone
  | Some w =>
      λ st,
        let rv := match character_store with
                  | Some d => get_defined d w
                  | None => None
                  end in
        let rv := match rv with
                  | Some v => Some v
                  | None => get_defined (store st) w
                  end in
        match rv with
        | Some v => (Ok v, st)
        | None =>
            match eval py_eval w st with
            | (Ok v, st') => (Ok v, st')
            | (Raise _, st') => (Raise (sayer_not_defined w), st')
            end
        end
  end.

Record Say : Type := mkSay {
  say_next : option positive;
  say_who : option string;
  say_what : string;
  say_interact : bool;
  say_arguments : option ArgumentInfo;
}.

(** [Node.scry]. *)
Definition Node_scry (next : option positive) : Scry :=
  set_scry_next next new_scry.

(** [try: rv.multiple = self.arguments.evaluate()[1]["multiple"]
     except Exception: pass]. *)
Definition scry_multiple (arguments : option ArgumentInfo) (rv : Scry) : M Scry :=
  λ st,
    match arguments with
    | None => (Ok rv, st)
    | Some a =>
        match evaluate a (store st) with
        | (Ok (_, kwargs), s') =>
            (Ok match kwargs !! "multiple" with
                | Some v =>
                    mkScry (scry_next rv) (interacts rv) (say rv)
                      (menu_with_caption rv) (scry_who rv) (extend_text rv) v
                | None => rv
                end,
             with_store (λ _, s') st)
        | (Raise _, s') => (Ok rv, with_store (λ _, s') st)
        end
    end.

(** [Say.scry]. *)
Definition Say_scry (s : Say) : M Scry :=
  let rv := Node_scry (say_next s) in
  who ← eval_who (say_who s) ;
  let rv := mkScry (scry_next rv) (interacts rv) true (menu_with_caption rv)
              who (extend_text rv) (multiple rv) in
  rv ← scry_multiple (say_arguments s) rv ;
  if say_interact s then scry_say who (say_what s) rv
  else mret (mkScry (scry_next rv) false (say rv) (menu_with_caption rv)
               (scry_who rv) DoesNotExtend (multiple rv)).

(** The statements, by what their [scry] reads. *)
Inductive Node : Type :=
| NSay (s : Say)
| NPass (next : option positive)          (* any node with [Node.scry] *)
| NPython (next : option positive)
| NCall (next : option positive)
| NReturn (next : option positive)
| NMenu (next : option positive) (has_caption : bool)
| NJump (next : option positive) (target : string) (expression : bool)
| NWhile (next : option positive)
| NIf (next : option positive)
| NTranslate (identifier : string) (alternate : option string).



(** *** Where errors stop *)






End scry.

(** *** A line by a speaker nobody defined *)

Definition no_kwargs (a : Empty_set) (s : gmap string Value)
    : Result (list Value * gmap string Value) * gmap string Value :=
  match a with end.

(** A dialogue layer that only notes that a line interacts. *)
Definition plain_scry_say (who : Value) (what : string) (rv : Scry) : M Scry :=
  mret (set_interacts true rv).


(** [eileen "Hello."] in a session that never defined [eileen]. *)
Definition orphan_line : Say (ArgumentInfo := Empty_set) :=
  mkSay (Some 5%positive) (Some "eileen") "Hello." true None.



Example orphan_line_error :
  (Say_scry lookup_eval None no_kwargs plain_scry_say orphan_line fresh_state).1
  = Raise (sayer_not_defined "eileen").
Proof. reflexivity. Qed.


End Scrying.

(** ** More on the chaining pass *)

Module ChainFacts.
Import Chaining.

(** Two stores that hold the same links for the nodes of [S]. *)
Definition agree_on (S : gset positive) (h1 h2 : NextStore) : Prop :=
  ∀ a, a ∈ S → h1 !! a = h2 !! a.

(** The node reached from [start] after [k] hops along [next]. *)
Fixpoint walk (h : NextStore) (k : nat) (start : option positive) : option positive :=
  match k with
  | O => start
  | S k' => walk h k' (start ≫= (h !!.))
  end.

(** The successor of the [i]-th node of a block chained with [next]. *)
Definition successor (block : list Node) (next : option positive) (i : nat)
    : option positive :=
  match block !! S i with
  | Some y => Some (addr y)
  | None => next
  end.

Lemma set_next_agree S a v h1 h2 :
  agree_on S h1 h2 → agree_on ({[a]} ∪ S) (set_next a v h1) (set_next a v h2).
Proof.
  intros Hag b Hb. destruct (decide (b = a)) as [->|Hne].
  - by rewrite !set_next_eq.
  - rewrite !set_next_ne by done. apply Hag. set_solver.
Qed.

Lemma agree_on_mono S S' h1 h2 : S' ⊆ S → agree_on S h1 h2 → agree_on S' h1 h2.
Proof. intros Hsub Hag a Ha. apply Hag. set_solver. Qed.

Lemma chain_seq_agree block :
  Forall (λ x, ∀ S next h1 h2, agree_on S h1 h2 →
            agree_on (list_to_set (addrs x) ∪ S) (chain x next h1) (chain x next h2))
    block →
  ∀ S next h1 h2, agree_on S h1 h2 →
    agree_on (list_to_set (flat_map addrs block) ∪ S)
      (chain_seq chain block next h1) (chain_seq chain block next h2).
Proof.
  induction 1 as [|x rest Hx Hrest IH]; intros S next h1 h2 Hag.
  - simpl. eapply agree_on_mono; [|done]. set_solver.
  - simpl. destruct rest as [|y rest'].
    + eapply agree_on_mono; [|by apply (Hx S)]. simpl. set_solver.
    + eapply agree_on_mono; [|apply (IH (list_to_set (addrs x) ∪ S)), Hx, Hag].
      simpl. rewrite !list_to_set_app_L. set_solver.
Qed.

Lemma chain_blocks_agree blocks :
  Forall (Forall (λ x, ∀ S next h1 h2, agree_on S h1 h2 →
            agree_on (list_to_set (addrs x) ∪ S) (chain x next h1) (chain x next h2)))
    blocks →
  ∀ S next h1 h2, agree_on S h1 h2 →
    agree_on (list_to_set (flat_map (flat_map addrs) blocks) ∪ S)
      (chain_blocks blocks next h1) (chain_blocks blocks next h2).
Proof.
  unfold chain_blocks.
  induction 1 as [|block rest Hblock Hrest IH]; intros S next h1 h2 Hag.
  - simpl. eapply agree_on_mono; [|done]. set_solver.
  - simpl. eapply agree_on_mono;
      [|apply (IH (list_to_set (flat_map addrs block) ∪ S)),
          (chain_seq_agree _ Hblock), Hag].
    rewrite list_to_set_app_L. set_solver.
Qed.

Lemma chain_agree n :
  ∀ S next h1 h2, agree_on S h1 h2 →
    agree_on (list_to_set (addrs n) ∪ S) (chain n next h1) (chain n next h2).
Proof.
  induction n as [a|a name block IH|a t e|a e|a c block IH|a entries IH
                 |a items IH|a block IH|a code subparses IH|a i l block IH
                 |a block IH|a l e|a i l] using Node_block_ind;
    intros S next h1 h2 Hag.
  - simpl. eapply agree_on_mono; [|by apply set_next_agree]. set_solver.
  - simpl. destruct block as [|first rest].
    + eapply agree_on_mono; [|by apply set_next_agree]. set_solver.
    + eapply agree_on_mono;
        [|apply (chain_seq_agree _ IH), (set_next_agree S a), Hag].
      set_solver.
  - simpl. eapply agree_on_mono; [|by apply set_next_agree]. set_solver.
  - simpl. eapply agree_on_mono; [|by apply set_next_agree]. set_solver.
  - simpl. eapply agree_on_mono;
      [|apply (chain_seq_agree _ IH), (set_next_agree S a), Hag].
    set_solver.
  - rewrite (addrs_branches (If a entries)), !(chain_branches (If a entries)).
    eapply agree_on_mono;
      [|apply (chain_blocks_agree _ IH), (set_next_agree S a), Hag].
    set_solver.
  - rewrite (addrs_branches (Menu a items)), !(chain_branches (Menu a items)).
    eapply agree_on_mono;
      [|apply (chain_blocks_agree _ IH), (set_next_agree S a), Hag].
    set_solver.
  - simpl. eapply agree_on_mono;
      [|apply (chain_seq_agree _ IH), (set_next_agree S a), Hag].
    set_solver.
  - rewrite (addrs_branches (UserStatement a code subparses)),
      !(chain_branches (UserStatement a code subparses)).
    eapply agree_on_mono;
      [|apply (chain_blocks_agree _ IH), (set_next_agree S a), Hag].
    set_solver.
  - simpl. destruct block as [|first rest].
    + eapply agree_on_mono; [|by apply set_next_agree]. set_solver.
    + eapply agree_on_mono;
        [|apply (chain_seq_agree _ IH), (set_next_agree S a), Hag].
      set_solver.
  - simpl. eapply agree_on_mono;
      [|apply (chain_seq_agree _ IH), (set_next_agree S a), Hag].
    set_solver.
  - simpl. eapply agree_on_mono; [|by apply set_next_agree]. set_solver.
  - simpl. eapply agree_on_mono; [|by apply set_next_agree]. set_solver.
Qed.

(** The link of the [i]-th node of a chained block. *)
Lemma chain_seq_link block :
  ∀ next h i x,
    NoDup (flat_map addrs block) → block !! i = Some x →
    chain_seq chain block next h !! addr x = own_next x (successor block next i).
Proof.
  induction block as [|y rest IH]; intros next h i x Hnd Hx; [done|].
  simpl in Hnd. apply NoDup_app in Hnd as (Hy & Hdisj & Hrest).
  assert (addr y ∈ addrs y) as Hself by (destruct y; simpl; set_solver).
  destruct i as [|i]; simpl in Hx.
  - injection Hx as ->. unfold successor. simpl.
    destruct rest as [|z rest'].
    + simpl. by apply chain_own_next.
    + rewrite chain_block_frame by (by apply Hdisj).
      simpl. by apply chain_own_next.
  - destruct rest as [|z rest']; [done|].
    change (chain_seq chain (y :: z :: rest') next h)
      with (chain_seq chain (z :: rest') next (chain y (Some (addr z)) h)).
    by rewrite (IH next _ i x Hrest Hx).
Qed.

(** X1. Chaining a statement, or a block, writes the [next] link of no
    node outside the subtrees it is applied to. *)
Theorem chain_touches_only_subtree :
  (∀ n next h b, b ∉ addrs n → chain n next h !! b = h !! b) ∧
  (∀ block next h b, b ∉ flat_map addrs block →
     chain_block block next h !! b = h !! b).
Proof.
  split.
  - intros n next h b Hb. by apply chain_frame.
  - intros block next h b Hb. rewrite <- chain_seq_block. by apply chain_block_frame.
Qed.

Lemma chain_touches_only_subtree_witness :
  7%positive ∉ addrs (While 1 "tries < 3" [Pass 2; Jump 3 "game_over" false]) ∧
  chain (While 1 "tries < 3" [Pass 2; Jump 3 "game_over" false]) (Some 4%positive)
    {[7%positive := 8%positive]} !! 7%positive
  = ({[7%positive := 8%positive]} : NextStore) !! 7%positive.
Proof.
  assert (7%positive ∉ addrs (While 1 "tries < 3" [Pass 2; Jump 3 "game_over" false]))
    as Hout by (simpl; set_solver).
  split; [exact Hout|].
  exact (proj1 chain_touches_only_subtree _ _ _ _ Hout).
Defined.

(** X2. In a block whose subtrees share no node object, [chain_block]
    leaves every node with the link its own [chain] stores for the node
    that follows it in the block, and the last node with the one it stores
    for [next]. *)
Theorem chain_block_links_successors block next h i x :
  NoDup (flat_map addrs block) → block !! i = Some x →
  chain_block block next h !! addr x = own_next x (successor block next i).
Proof.
  intros Hnd Hx. rewrite <- chain_seq_block. by apply chain_seq_link.
Qed.

Lemma chain_block_links_successors_witness :
  let block := [Pass 2; While 3 "again" [Pass 4]; Return 5 None] in
  NoDup (flat_map addrs block) ∧ block !! 1 = Some (While 3 "again" [Pass 4]) ∧
  chain_block block None ∅ !! 3%positive = Some 5%positive.
Proof.
  intros block.
  assert (NoDup (flat_map addrs block)) as Hnd
    by (simpl; repeat (constructor; [set_solver|]); constructor).
  split; [exact Hnd|]. split; [reflexivity|].
  exact (chain_block_links_successors block None ∅ 1 (While 3 "again" [Pass 4])
           Hnd eq_refl).
Defined.

(** X3. Chaining is idempotent: the links a statement gets do not depend
    on the links the store held before, so chaining it again with the same
    successor changes nothing. *)
Theorem chain_idempotent n next h :
  chain n next (chain n next h) = chain n next h.
Proof.
  apply map_eq. intros a. destruct (decide (a ∈ addrs n)) as [Hin|Hout].
  - apply (chain_agree n ∅ next (chain n next h) h); [by intros ? ?|].
    apply elem_of_union_l, elem_of_list_to_set, Hin.
  - by rewrite !chain_frame.
Qed.

(** X4. In a block of plain statements that are distinct objects, the
    [next] links lead from the first statement through the block in order
    and, after as many hops as the block has statements, to the block's
    successor; for the body of a [While] loop that is the loop node. *)
Theorem plain_block_walk (l : list positive) next h :
  NoDup l →
  (∀ i, i < length l →
     walk (chain_block (Pass <$> l) next h) i (head l) = l !! i) ∧
  (l ≠ [] → walk (chain_block (Pass <$> l) next h) (length l) (head l) = next) ∧
  (∀ a condition following, l ≠ [] →
     walk (chain (While a condition (Pass <$> l)) following h) (length l) (head l)
     = Some a).
Proof.
  intros Hnd.
  assert (NoDup (flat_map addrs (Pass <$> l))) as Hnd'.
  { replace (flat_map addrs (Pass <$> l)) with l; [done|].
    clear. induction l as [|x l IH]; simpl; [done|]. by f_equal. }
  assert (∀ nx h0 i x, l !! i = Some x →
            chain_block (Pass <$> l) nx h0 !! x
            = match l !! S i with Some y => Some y | None => nx end) as Hlink.
  { intros nx h0 i x Hx. rewrite <- chain_seq_block.
    assert ((Pass <$> l) !! i = Some (Pass x)) as Hx'
      by (by rewrite list_lookup_fmap, Hx).
    pose proof (chain_seq_link (Pass <$> l) nx h0 i (Pass x) Hnd' Hx') as Hl.
    simpl in Hl. rewrite Hl. unfold successor. rewrite list_lookup_fmap.
    by destruct (l !! S i). }
  assert (∀ nx h0 k i, i < length l → i + k ≤ length l →
            walk (chain_block (Pass <$> l) nx h0) k (l !! i)
            = if decide (i + k < length l) then l !! (i + k) else nx) as Hwalk.
  { intros nx h0 k. induction k as [|k IH]; intros i Hi Hle; simpl.
    - rewrite Nat.add_0_r. by rewrite decide_True.
    - destruct (l !! i) as [x|] eqn:Hx;
        [|apply lookup_ge_None in Hx; lia].
      simpl. rewrite (Hlink nx h0 i x Hx).
      destruct (l !! S i) as [y|] eqn:Hy.
      + pose proof (lookup_lt_Some _ _ _ Hy) as Hlt.
        rewrite <- Hy, IH by lia.
        replace (S i + k) with (i + S k) by lia. done.
      + apply lookup_ge_None in Hy.
        assert (k = 0) as -> by lia.
        simpl. rewrite decide_False by lia. done. }
  assert (head l = l !! 0) as Hhead by (by destruct l).
  assert (l ≠ [] → 0 < length l) as Hpos by (destruct l; [done|simpl; lia]).
  split; [|split].
  - intros i Hi. rewrite Hhead, (Hwalk next h i 0) by lia.
    by rewrite decide_True by lia.
  - intros Hne. specialize (Hpos Hne).
    rewrite Hhead, (Hwalk next h (length l) 0) by lia.
    by rewrite decide_False by lia.
  - intros a condition following Hne. specialize (Hpos Hne).
    rewrite chain_While.
    rewrite Hhead, (Hwalk (Some a) _ (length l) 0) by lia.
    by rewrite decide_False by lia.
Qed.

Lemma plain_block_walk_witness :
  let l := [2; 3; 4]%positive in
  NoDup l ∧
  walk (chain (While 1 "again" (Pass <$> l)) (Some 9%positive) ∅) 3 (head l)
  = Some 1%positive.
Proof.
  intros l.
  assert (NoDup l) as Hnd by (repeat (constructor; [set_solver|]); constructor).
  split; [exact Hnd|].
  apply (proj2 (proj2 (plain_block_walk l None ∅ Hnd)) 1%positive "again"
           (Some 9%positive)). discriminate.
Defined.

End ChainFacts.

(** ** More on the reachability engine *)

Module ReachFacts.
Section engine.
Context {Node Name : Type} `{Countable Name}.
Variable name : Node → Name.
Variable get_reachable : Node → list Node.

Local Notation names := (Reach.names name).
Local Notation succs := (Reach.succs get_reachable).
Local Notation first_occ := (Reach.first_occ name).
Local Notation discovery := (Reach.discovery get_reachable).
Local Notation closed := (Reach.closed get_reachable).
Local Notation enough_fuel := (Reach.enough_fuel name get_reachable).
Local Notation get_reachable_nodes := (Reach.get_reachable_nodes name get_reachable).

(** A node is reachable when a path of admissible edges leads to it from
    an entry node. *)
Inductive reachable (node_validator : Node → Node → bool) (entry_nodes : list Node)
    : Node → Prop :=
| reachable_entry x : x ∈ entry_nodes → reachable node_validator entry_nodes x
| reachable_step x y :
    reachable node_validator entry_nodes x → y ∈ succs node_validator x →
    reachable node_validator entry_nodes y.

Lemma weight_antitone U (s : gset Name) :
  Reach.weight name get_reachable U s ≤ Reach.weight name get_reachable U ∅.
Proof.
  induction U as [|u U IH]; simpl; [done|].
  rewrite (decide_False (P := name u ∈ (∅ : gset Name))) by set_solver.
  destruct (decide (name u ∈ s)); lia.
Qed.

(** One run of the engine from a given [seen] set, with what the loop
    invariant says of its result. *)
Lemma run_from U entry_nodes v (s : gset Name) :
  closed U → (∀ x, x ∈ entry_nodes → x ∈ U) →
  ∃ r,
    (∀ fuel, enough_fuel U entry_nodes ≤ fuel →
       Reach.loop name get_reachable fuel v entry_nodes s []
       = Some (r, names r ∪ s)) ∧
    first_occ s r = r ∧
    r = first_occ s (discovery v entry_nodes r) ∧
    Reach.discovered_in_order get_reachable v entry_nodes r.
Proof.
  intros Hcl HU.
  destruct (Reach.loop_terminates name get_reachable U v Hcl
              (enough_fuel U entry_nodes) entry_nodes s [] HU) as [[r seen'] Hrun].
  { pose proof (weight_antitone U s). unfold Reach.enough_fuel. lia. }
  destruct (Reach.loop_inv name get_reachable v entry_nodes s _ _ _ _ _ _ Hrun)
    as (Hseen & Hfix & Hdisc & Hord).
  - rewrite Reach.names_nil. set_solver.
  - done.
  - unfold Reach.discovery. simpl. by rewrite app_nil_r.
  - intros p x s' Heq. by destruct p.
  - intros x Hx. by left.
  - exists r. split; [|done]. intros fuel Hfuel.
    rewrite (Reach.loop_fuel_mono name get_reachable _ _ _ _ _ _ _ Hrun Hfuel).
    by rewrite Hseen.
Qed.

Lemma discovered_reachable v entry_nodes r :
  Reach.discovered_in_order get_reachable v entry_nodes r →
  ∀ x, x ∈ r → reachable v entry_nodes x.
Proof.
  intros Hord.
  assert (∀ n m x, m < n → r !! m = Some x → reachable v entry_nodes x) as Hn.
  { induction n as [|n IH]; intros m x Hm Hx; [lia|].
    destruct (Hord (take m r) x (drop (S m) r)
                (eq_sym (take_drop_middle r m x Hx))) as [He|(u & Hu & Hxu)].
    - by apply reachable_entry.
    - apply list_elem_of_lookup in Hu as [k Hk].
      pose proof (lookup_lt_Some _ _ _ Hk) as Hlen.
      rewrite length_take in Hlen.
      rewrite lookup_take_lt in Hk by lia.
      eapply reachable_step; [|done]. apply (IH k); [lia|done]. }
  intros x Hx. apply list_elem_of_lookup in Hx as [m Hm].
  apply (Hn (S m) m); [lia|done].
Qed.

Lemma reachable_in_universe U v entry_nodes :
  closed U → (∀ x, x ∈ entry_nodes → x ∈ U) →
  ∀ y, reachable v entry_nodes y → y ∈ U.
Proof.
  intros Hcl HU y Hy. induction Hy as [x Hx|x y _ IH Hxy]; [by apply HU|].
  apply list_elem_of_filter in Hxy as [_ Hxy]. by eapply Hcl.
Qed.

(** X5. On a finite graph the engine returns exactly what is reachable:
    every node of the result is reachable from an entry node along edges
    the filter admits, and, where no two nodes of the graph share a name,
    every node reachable that way is in the result. *)
Theorem get_reachable_nodes_exact (U entry_nodes : list Node)
    (node_validator : Node → Node → bool) :
  closed U →
  (∀ x, x ∈ entry_nodes → x ∈ U) →
  ∃ r,
    (∀ fuel, enough_fuel U entry_nodes ≤ fuel →
       get_reachable_nodes fuel entry_nodes node_validator None
       = Some (r, names r)) ∧
    (∀ x, x ∈ r → reachable node_validator entry_nodes x) ∧
    ((∀ a b, a ∈ U → b ∈ U → name a = name b → a = b) →
     ∀ y, reachable node_validator entry_nodes y → y ∈ r).
Proof.
  intros Hcl HU.
  destruct (run_from U entry_nodes node_validator ∅ Hcl HU)
    as (r & Hrun & Hfixed & Hfix & Hord).
  pose proof (discovered_reachable _ _ _ Hord) as Hsound.
  exists r. split; [|split; [done|]].
  - intros fuel Hfuel. unfold Reach.get_reachable_nodes. simpl.
    rewrite (Hrun fuel Hfuel). do 2 f_equal. set_solver.
  - intros Hinj.
    assert (∀ y, y ∈ discovery node_validator entry_nodes r → y ∈ U → y ∈ r)
      as Hclosed.
    { intros y Hy HyU.
      pose proof (Reach.first_occ_names name get_reachable ∅
                    (discovery node_validator entry_nodes r)) as Hn.
      rewrite <- Hfix in Hn. rewrite !(right_id_L ∅ (∪)) in Hn.
      apply (Reach.elem_of_names name) in Hy. rewrite <- Hn in Hy.
      unfold Reach.names in Hy.
      apply elem_of_list_to_set, list_elem_of_fmap in Hy as (y' & Heq & Hy').
      rewrite (Hinj y y'); [done|done| |done].
      eapply reachable_in_universe; [done..|]. by apply Hsound. }
    intros y Hy.
    pose proof (reachable_in_universe U _ _ Hcl HU y Hy) as HyU.
    induction Hy as [x Hx|x y Hx IH Hxy].
    + apply Hclosed; [|done]. unfold Reach.discovery. apply elem_of_app. by left.
    + apply Hclosed; [|done]. unfold Reach.discovery. apply elem_of_app. right.
      apply list_elem_of_In, in_flat_map. exists x.
      split; apply list_elem_of_In; [|done].
      apply IH. by eapply reachable_in_universe.
Qed.

(** X6. A caller's [seen] set is honoured and brought up to date: no
    returned node has a name that was in the set, afterwards the set holds
    the old names and those of the result, and a second traversal of the
    same entry nodes over the updated set returns nothing. *)
Theorem get_reachable_nodes_shared_seen (U entry_nodes : list Node)
    (node_validator : Node → Node → bool) (seen : gset Name) :
  closed U →
  (∀ x, x ∈ entry_nodes → x ∈ U) →
  ∃ r,
    (∀ fuel, enough_fuel U entry_nodes ≤ fuel →
       get_reachable_nodes fuel entry_nodes node_validator (Some seen)
       = Some (r, names r ∪ seen)) ∧
    NoDup (name <$> r) ∧
    (∀ x, x ∈ r → name x ∉ seen) ∧
    (∀ fuel, enough_fuel U entry_nodes ≤ fuel →
       get_reachable_nodes fuel entry_nodes node_validator (Some (names r ∪ seen))
       = Some ([], names r ∪ seen)).
Proof.
  intros Hcl HU.
  destruct (run_from U entry_nodes node_validator seen Hcl HU)
    as (r & Hrun & Hfixed & Hfix & Hord).
  destruct (Reach.first_occ_fixed name get_reachable seen r Hfixed) as [Hnd Hfresh].
  exists r. split; [done|]. split; [done|]. split; [done|].
  intros fuel Hfuel.
  assert (∀ x, x ∈ entry_nodes → name x ∈ names r ∪ seen) as Hall.
  { intros x Hx.
    pose proof (Reach.first_occ_names name get_reachable seen
                  (discovery node_validator entry_nodes r)) as Hn.
    rewrite <- Hfix in Hn. rewrite Hn.
    apply elem_of_union_l, Reach.elem_of_names.
    unfold Reach.discovery. apply elem_of_app. by left. }
  unfold Reach.get_reachable_nodes. simpl.
  assert (length entry_nodes < fuel) as Hlen by (unfold Reach.enough_fuel in Hfuel; lia).
  clear -Hall Hlen. revert fuel Hlen.
  induction entry_nodes as [|x l IH]; intros fuel Hlen.
  - destruct fuel; [simpl in Hlen; lia|done].
  - destruct fuel as [|fuel]; [simpl in Hlen; lia|]. simpl.
    rewrite decide_True by (apply Hall; by left).
    apply IH; [|simpl in Hlen; lia]. intros y Hy. apply Hall. by right.
Qed.

End engine.

(** Both, on the looping script of [Script]. *)
Lemma get_reachable_nodes_exact_witness :
  let U := [1; 2; 3; 4; 5]%positive in
  Reach.closed Script.loop_reachable U ∧
  (∀ x, x ∈ [1%positive] → x ∈ U) ∧
  ∃ r,
    (∀ fuel, Reach.enough_fuel Script.loop_name Script.loop_reachable U [1%positive]
             ≤ fuel →
       Reach.get_reachable_nodes Script.loop_name Script.loop_reachable fuel
         [1%positive] Reach._reach_any None
       = Some (r, Reach.names Script.loop_name r)) ∧
    (∀ x, x ∈ r →
       reachable Script.loop_reachable Reach._reach_any [1%positive] x) ∧
    (∀ y, reachable Script.loop_reachable Reach._reach_any [1%positive] y →
       y ∈ r).
Proof.
  intros U.
  assert (Reach.closed Script.loop_reachable U) as Hcl.
  { intros n m Hn Hm. unfold U in *.
    repeat (apply elem_of_cons in Hn as [->|Hn]);
      try (by apply elem_of_nil in Hn);
      vm_compute in Hm;
      repeat (apply elem_of_cons in Hm as [->|Hm]);
      try (by apply elem_of_nil in Hm); set_solver. }
  assert (∀ x, x ∈ [1%positive] → x ∈ U) as HU
    by (intros x Hx; unfold U; set_solver).
  split; [exact Hcl|]. split; [exact HU|].
  destruct (get_reachable_nodes_exact Script.loop_name Script.loop_reachable U
              [1%positive] Reach._reach_any Hcl HU) as (r & Hrun & Hsound & Hall).
  exists r. split; [exact Hrun|]. split; [exact Hsound|].
  apply Hall. intros a b _ _ Hab. exact Hab.
Defined.

Lemma get_reachable_nodes_shared_seen_witness :
  let U := [1; 2; 3; 4; 5]%positive in
  Reach.closed Script.loop_reachable U ∧
  (∀ x, x ∈ [2%positive] → x ∈ U) ∧
  ∃ r,
    (∀ fuel, Reach.enough_fuel Script.loop_name Script.loop_reachable U [2%positive]
             ≤ fuel →
       Reach.get_reachable_nodes Script.loop_name Script.loop_reachable fuel
         [2%positive] Reach._reach_any (Some {[5%positive]})
       = Some (r, Reach.names Script.loop_name r ∪ {[5%positive]})) ∧
    (∀ x, x ∈ r → Script.loop_name x ∉ ({[5%positive]} : gset positive)).
Proof.
  intros U.
  assert (Reach.closed Script.loop_reachable U) as Hcl.
  { intros n m Hn Hm. unfold U in *.
    repeat (apply elem_of_cons in Hn as [->|Hn]);
      try (by apply elem_of_nil in Hn);
      vm_compute in Hm;
      repeat (apply elem_of_cons in Hm as [->|Hm]);
      try (by apply elem_of_nil in Hm); set_solver. }
  assert (∀ x, x ∈ [2%positive] → x ∈ U) as HU
    by (intros x Hx; unfold U; set_solver).
  split; [exact Hcl|]. split; [exact HU|].
  destruct (get_reachable_nodes_shared_seen Script.loop_name Script.loop_reachable U
              [2%positive] Reach._reach_any {[5%positive]} Hcl HU)
    as (r & Hrun & _ & Hfresh & _).
  exists r. split; [exact Hrun|exact Hfresh].
Defined.

End ReachFacts.

(** ** Branching: the [If] statement, and what [predict] and
    [get_reachable] say of [If] and [While] *)

Module Branching.
Import Chaining.

(** An [If] node: the node object and its [(condition, block)] entries. *)
Record If : Type := mkIf {
  if_addr : positive;
  entries : list (string * list Node);
}.

(** All node objects of the statement. *)
Definition If_addrs (n : If) : list positive :=
  if_addr n :: flat_map (λ e : string * list Node, flat_map addrs e.2) (entries n).

(** [If.chain]: [self.next = next], then every block is chained with
    [next]. *)
Definition If_chain (n : If) (next : option positive) (h : NextStore) : NextStore :=
  fold_left (λ h' (e : string * list Node), chain_block e.2 next h') (entries n)
    (set_next (if_addr n) next h).

(** The loop of [If.execute] over the entries. *)
Fixpoint If_branch (py_eval : Evaluator) (entries : list (string * list Node))
    : M unit :=
  match entries with
  | [] => mret tt
  | (condition, block) :: rest =>
      v ← eval py_eval condition ;
      if truthy v then
        match block with
        | first :: _ => next_node (Some (addr first))
        | [] => raise IndexError
        end
      else If_branch py_eval rest
  end.

(** [If.execute]. *)
Definition If_execute (py_eval : Evaluator) (nexts : NextStore) (n : If) : M unit :=
  next_node (nexts !! if_addr n) ;;
  statement_name "if" ;;
  If_branch py_eval (entries n).

(** [[block[0] for _condition, block in self.entries]]. *)
Fixpoint first_nodes (entries : list (string * list Node)) : Result (list positive) :=
  match entries with
  | [] => Ok []
  | (_, block) :: rest =>
      match block with
      | [] => Raise IndexError
      | first :: _ => l ← first_nodes rest ; Ok (addr first :: l)
      end
  end.

(** [If.predict]: the first node of every block, then [self.next] (also
    when it is [None]). *)
Definition If_predict (nexts : NextStore) (n : If) : Result (list (option positive)) :=
  l ← first_nodes (entries n) ;
  Ok ((Some <$> l) ++ [nexts !! if_addr n]).

(** The loop of [If.get_reachable]: it stops at the first entry whose
    condition is the text [True]. *)
Fixpoint If_reachable_from (next : option positive)
    (entries : list (string * list Node)) (rv : list positive)
    : Result (list positive) :=
  match entries with
  | [] => Ok (rv ++ option_list next)
  | (condition, block) :: rest =>
      match block with
      | [] => Raise IndexError
      | first :: _ =>
          if String.eqb condition "True" then Ok (rv ++ [addr first])
          else If_reachable_from next rest (rv ++ [addr first])
      end
  end.

(** [If.get_reachable]. *)
Definition If_get_reachable (nexts : NextStore) (n : If) : Result (list positive) :=
  If_reachable_from (nexts !! if_addr n) (entries n) [].

(** [While.predict]. *)
Definition While_predict (nexts : NextStore) (a : positive) (block : list Node)
    : Result (list (option positive)) :=
  match block with
  | [] => Raise IndexError
  | first :: _ => Ok [Some (addr first); nexts !! a]
  end.

(** An evaluator that knows the literal [True] and variable names. *)
Definition literal_eval : Evaluator :=
  λ source s,
    if String.eqb source "True" then (Ok (VBool true), s) else lookup_eval source s.

(** An evaluator under which the text [True] is true. *)
Definition True_is_true (py_eval : Evaluator) : Prop :=
  ∀ s, ∃ v s', py_eval "True" s = (Ok v, s') ∧ truthy v = true.

(** *** Chaining the branches *)

Lemma addr_in_addrs (x : Node) : addr x ∈ addrs x.
Proof. destruct x; simpl; set_solver. Qed.

Lemma branches_frame (es : list (string * list Node)) next :
  ∀ h b, b ∉ flat_map (λ e : string * list Node, flat_map addrs e.2) es →
    fold_left (λ h' (e : string * list Node), chain_block e.2 next h') es h !! b
    = h !! b.
Proof.
  induction es as [|e es IH]; intros h b Hb; [done|].
  simpl in Hb. rewrite elem_of_app in Hb. simpl.
  rewrite IH by tauto. rewrite <- chain_seq_block. apply chain_block_frame. tauto.
Qed.

Lemma branches_last (es : list (string * list Node)) next :
  ∀ h condition block final,
    NoDup (flat_map (λ e : string * list Node, flat_map addrs e.2) es) →
    (condition, block) ∈ es → last block = Some final →
    fold_left (λ h' (e : string * list Node), chain_block e.2 next h') es h
      !! addr final
    = own_next final next.
Proof.
  induction es as [|e es IH]; intros h condition block final Hnd Hin Hlast.
  - by apply elem_of_nil in Hin.
  - simpl in Hnd. apply NoDup_app in Hnd as (He & Hdisj & Hes). simpl.
    apply elem_of_cons in Hin as [<-|Hin]; [|by eapply IH].
    simpl in *.
    assert (final ∈ block) as Hfinal by (by apply last_Some_elem_of).
    assert (addr final ∈ flat_map addrs block) as Haddr.
    { apply list_elem_of_In, in_flat_map. exists final.
      split; apply list_elem_of_In; [done|apply addr_in_addrs]. }
    rewrite branches_frame by (by apply Hdisj).
    destruct (chain_block_last block final next h Hlast) as [h' ->].
    apply chain_own_next. by eapply NoDup_flat_map_elem.
Qed.

(** *** Where [If.execute] goes *)

Lemma eval_context py_eval source st :
  context (eval py_eval source st).2 = context st.
Proof. unfold eval. by destruct (py_eval source (store st)). Qed.

Lemma If_branch_target py_eval es :
  ∀ st,
    next_node_ (context (If_branch py_eval es st).2) = next_node_ (context st) ∨
    ∃ condition first rest,
      (condition, first :: rest) ∈ es ∧
      next_node_ (context (If_branch py_eval es st).2) = Some (addr first).
Proof.
  induction es as [|[condition block] es IH]; intros st; simpl; [by left|].
  unfold mbind, M_bind.
  pose proof (eval_context py_eval condition st) as Hctx.
  destruct (eval py_eval condition st) as [[v|e] st1]; simpl in Hctx;
    [|left; simpl; by rewrite Hctx].
  destruct (truthy v).
  - destruct block as [|first rest]; simpl.
    + left. by rewrite Hctx.
    + right. exists condition, first, rest. split; [by left|done].
  - destruct (IH st1) as [Hsame|(c & first & rest & Hin & Ht)].
    + left. by rewrite Hsame, Hctx.
    + right. exists c, first, rest. split; [by right|done].
Qed.

Lemma first_nodes_elem es :
  ∀ l condition first rest,
    first_nodes es = Ok l → (condition, first :: rest) ∈ es → addr first ∈ l.
Proof.
  induction es as [|[c block] es IH]; intros l condition first rest Hl Hin.
  - by apply elem_of_nil in Hin.
  - simpl in Hl. destruct block as [|b0 bs]; [discriminate|].
    destruct (first_nodes es) as [l0|] eqn:Hes; [|discriminate].
    injection Hl as <-.
    apply elem_of_cons in Hin as [Heq|Hin].
    + injection Heq as _ -> _. by left.
    + right. by eapply IH.
Qed.

Lemma If_reachable_from_keeps next es :
  ∀ rv l x, If_reachable_from next es rv = Ok l → x ∈ rv → x ∈ l.
Proof.
  induction es as [|[c block] es IH]; intros rv l x Hl Hx; simpl in Hl.
  - injection Hl as <-. apply elem_of_app. by left.
  - destruct block as [|first rest]; [discriminate|].
    destruct (String.eqb c "True").
    + injection Hl as <-. apply elem_of_app. by left.
    + eapply IH; [done|]. apply elem_of_app. by left.
Qed.

Lemma If_branch_reported py_eval next es :
  True_is_true py_eval →
  ∀ rv l st st',
    If_reachable_from next es rv = Ok l →
    If_branch py_eval es st = (Ok tt, st') →
    (∃ t, next_node_ (context st') = Some t ∧ t ∈ l) ∨
    (next_node_ (context st') = next_node_ (context st) ∧
     ∀ t, next = Some t → t ∈ l).
Proof.
  intros Htrue.
  induction es as [|[c block] es IH]; intros rv l st st' Hl Hrun; simpl in *.
  - injection Hrun as <-. injection Hl as <-. right. split; [done|].
    intros t ->. apply elem_of_app. right. simpl. by left.
  - destruct block as [|first rest]; [discriminate|].
    unfold mbind, M_bind in Hrun.
    pose proof (eval_context py_eval c st) as Hctx.
    destruct (eval py_eval c st) as [[v|e] st1] eqn:Hev; [|discriminate].
    simpl in Hctx.
    destruct (truthy v) eqn:Hv.
    + injection Hrun as <-. left. exists (addr first). split; [done|].
      destruct (String.eqb c "True").
      * injection Hl as <-. apply elem_of_app. right. by left.
      * eapply If_reachable_from_keeps; [done|]. apply elem_of_app. right. by left.
    + destruct (String.eqb c "True") eqn:Hc.
      * apply String.eqb_eq in Hc as ->.
        destruct (Htrue (store st)) as (v' & s' & Hpy & Hv').
        unfold eval in Hev. rewrite Hpy in Hev. injection Hev as <- _. congruence.
      * destruct (IH _ _ _ _ Hl Hrun) as [?|[Hsame ?]]; [by left|].
        right. by rewrite Hsame, Hctx.
Qed.

Lemma If_reachable_from_predicted next es :
  ∀ rv hs,
    first_nodes es = Ok hs →
    ∃ l, If_reachable_from next es rv = Ok l ∧
         ∀ t, t ∈ l → t ∈ rv ∨ t ∈ hs ∨ next = Some t.
Proof.
  induction es as [|[c block] es IH]; intros rv hs Hhs; simpl in *.
  - injection Hhs as <-. eexists. split; [done|].
    intros t Ht. apply elem_of_app in Ht as [?|Ht]; [by left|].
    right. right. destruct next; simpl in Ht; set_solver.
  - destruct block as [|first rest]; [discriminate|].
    destruct (first_nodes es) as [l0|] eqn:Hes; [|discriminate].
    injection Hhs as <-.
    destruct (String.eqb c "True").
    + eexists. split; [done|]. intros t Ht. set_solver.
    + destruct (IH (rv ++ [addr first]) l0 eq_refl) as (l & -> & Hl).
      exists l. split; [done|]. intros t Ht.
      destruct (Hl t Ht) as [H1|[H2|H3]]; set_solver.
Qed.

(** X7. [If_chain] is the [chain] of an [If] node.  After
    [If.chain(next)] on a statement that shares no node object between its
    parts, whatever statements its branches hold, the node's own [next] is
    [next] and the last statement of every branch holds the link its own
    [chain] stores for [next]: every branch continues after the [if],
    unless its last statement is a [Jump] or [Return], which keep no link,
    or a [Label] or [Translate] with children, which point at their first
    child. *)
Theorem If_chain_rejoins (n : If) next h :
  NoDup (If_addrs n) →
  If_chain n next h = chain (Chaining.If (if_addr n) (entries n)) next h ∧
  If_chain n next h !! if_addr n = next ∧
  ∀ condition block final,
    (condition, block) ∈ entries n → last block = Some final →
    If_chain n next h !! addr final
    = match final with
      | Jump _ _ _ | Return _ _ => None
      | Label _ _ (child :: _) | Translate _ _ _ (child :: _) => Some (addr child)
      | _ => next
      end.
Proof.
  unfold If_addrs, If_chain. intros Hnd.
  apply NoDup_cons in Hnd as [Ha Hes]. split; [|split].
  - simpl. clear Ha Hes. generalize (set_next (if_addr n) next h) as h0.
    induction (entries n) as [|e es IH]; intros h0; simpl; [done|].
    by rewrite chain_seq_block, IH.
  - rewrite branches_frame by done. apply set_next_eq.
  - intros condition block final Hin Hlast.
    rewrite (branches_last _ _ _ condition block final Hes Hin Hlast).
    by destruct final as [|? ? [|]| | | | | | | |? ? ? [|]| | |].
Qed.

(** X8. When [If.predict] returns, it lists the node [If.execute] leaves
    as the context's next node, whatever the conditions evaluate to and
    also when the evaluation raises. *)
Theorem If_execute_within_predict py_eval nexts (n : If) l st :
  If_predict nexts n = Ok l →
  next_node_ (context (If_execute py_eval nexts n st).2) ∈ l.
Proof.
  unfold If_predict, If_execute. intros Hl.
  destruct (first_nodes (entries n)) as [hs|] eqn:Hhs; [|discriminate].
  injection Hl as <-.
  unfold mbind at 1 2, M_bind, next_node, statement_name, modify. simpl.
  match goal with |- context [If_branch py_eval (entries n) ?s] =>
    destruct (If_branch_target py_eval (entries n) s)
      as [Hsame|(c & first & rest & Hin & Ht)] end.
  - rewrite Hsame. simpl. apply elem_of_app. right. by left.
  - rewrite Ht. apply elem_of_app. left. apply list_elem_of_fmap.
    exists (addr first). split; [done|]. by eapply first_nodes_elem.
Qed.

(** X9. Under an evaluator for which the text [True] is true, the node
    [If.execute] leaves as next when it returns is one [If.get_reachable]
    reports; it is [None] only when the statement has no [next]. *)
Theorem If_execute_within_get_reachable py_eval nexts (n : If) l st st' :
  True_is_true py_eval →
  If_get_reachable nexts n = Ok l →
  If_execute py_eval nexts n st = (Ok tt, st') →
  match next_node_ (context st') with
  | Some t => t ∈ l
  | None => nexts !! if_addr n = None
  end.
Proof.
  unfold If_get_reachable, If_execute. intros Htrue Hl Hrun.
  unfold mbind at 1 2, M_bind, next_node, statement_name, modify in Hrun.
  simpl in Hrun.
  destruct (If_branch_reported py_eval _ _ Htrue _ _ _ _ Hl Hrun)
    as [(t & -> & Ht)|[Hsame Hnext]]; [done|].
  rewrite Hsame. simpl.
  destruct (nexts !! if_addr n) as [t|]; [by apply Hnext|done].
Qed.

(** X10. Whenever [If.predict] returns, [If.get_reachable] returns too,
    and every node it reports is among the predicted ones. *)
Theorem If_get_reachable_within_predict nexts (n : If) p :
  If_predict nexts n = Ok p →
  ∃ l, If_get_reachable nexts n = Ok l ∧ ∀ t, t ∈ l → Some t ∈ p.
Proof.
  unfold If_predict, If_get_reachable. intros Hp.
  destruct (first_nodes (entries n)) as [hs|] eqn:Hhs; [|discriminate].
  injection Hp as <-.
  destruct (If_reachable_from_predicted (nexts !! if_addr n) (entries n) [] hs Hhs)
    as (l & Hl & Hsub).
  exists l. split; [done|]. intros t Ht.
  destruct (Hsub t Ht) as [H1|[H2|H3]].
  - by apply elem_of_nil in H1.
  - apply elem_of_app. left. apply list_elem_of_fmap. eauto.
  - apply elem_of_app. right. rewrite H3. by left.
Qed.

(** X11. The same for [While]: under an evaluator for which the text
    [True] is true, the node [While.execute] leaves as next when it
    returns is one that [get_reachable] reports, and one that [predict]
    lists. *)
Theorem While_execute_covered py_eval c nexts lookup_or_none a condition block
    l p st st' :
  True_is_true py_eval →
  Script.get_reachable c nexts lookup_or_none (While a condition block) = Ok l →
  While_predict nexts a block = Ok p →
  While_execute py_eval nexts a condition block st = (Ok tt, st') →
  next_node_ (context st') ∈ p ∧
  match next_node_ (context st') with
  | Some t => t ∈ l
  | None => nexts !! a = None
  end.
Proof.
  intros Htrue Hl Hp Hrun. simpl in Hl. unfold While_predict in Hp.
  destruct block as [|first rest]; [discriminate|]. injection Hp as <-.
  unfold While_execute, mbind, M_bind, next_node, statement_name, modify in Hrun.
  simpl in Hrun.
  match type of Hrun with context [eval py_eval condition ?s] =>
    pose proof (eval_context py_eval condition s) as Hctx;
    destruct (eval py_eval condition s) as [[v|e] st1] eqn:Hev; [|discriminate]
  end.
  simpl in Hctx. destruct (truthy v) eqn:Hv.
  - injection Hrun as <-. simpl. split; [by left|].
    destruct (String.eqb condition "True"); injection Hl as <-; by left.
  - injection Hrun as <-. rewrite Hctx. simpl. split; [right; by left|].
    destruct (String.eqb condition "True") eqn:Hc.
    + apply String.eqb_eq in Hc as ->.
      unfold eval in Hev. simpl in Hev.
      destruct (Htrue (store st)) as (v' & s' & Hpy & Hv').
      rewrite Hpy in Hev. injection Hev as <- _. congruence.
    + injection Hl as <-. unfold Script.Node_get_reachable.
      destruct (nexts !! a); [right; by left|done].
Qed.

(** *** An [if] / [elif] / [else] statement *)

(** [if lucky: pass; jump win -- elif tired: pass -- else: pass], node 1,
    followed by node 9. *)
Definition fork : If :=
  mkIf 1 [("lucky", [Pass 2; Jump 3 "win" false]);
          ("tired", [Pass 4]);
          ("True", [Pass 5])].

Definition fork_nexts : NextStore := If_chain fork (Some 9%positive) ∅.

Lemma literal_eval_True : True_is_true literal_eval.
Proof. intros s. by exists (VBool true), s. Qed.

Lemma If_chain_rejoins_witness :
  NoDup (If_addrs fork) ∧
  fork_nexts !! 1%positive = Some 9%positive ∧
  fork_nexts !! 4%positive = Some 9%positive ∧
  fork_nexts !! 3%positive = None.
Proof.
  assert (NoDup (If_addrs fork)) as Hnd
    by (unfold If_addrs; simpl; repeat (constructor; [set_solver|]); constructor).
  destruct (If_chain_rejoins fork (Some 9%positive) ∅ Hnd) as (_ & Hown & Hlast).
  split; [exact Hnd|]. split; [exact Hown|]. split.
  - apply (Hlast "tired" [Pass 4] (Pass 4)); [set_solver|reflexivity].
  - apply (Hlast "lucky" [Pass 2; Jump 3 "win" false] (Jump 3 "win" false));
      [set_solver|reflexivity].
Defined.

Lemma If_execute_within_predict_witness :
  let l := [Some 2; Some 4; Some 5; Some 9]%positive in
  If_predict fork_nexts fork = Ok l ∧
  next_node_ (context (If_execute literal_eval fork_nexts fork fresh_state).2) ∈ l.
Proof.
  intros l. split; [reflexivity|].
  exact (If_execute_within_predict literal_eval fork_nexts fork l fresh_state eq_refl).
Defined.

Lemma If_execute_within_get_reachable_witness :
  True_is_true literal_eval ∧
  If_get_reachable fork_nexts fork = Ok [2; 4; 5]%positive ∧
  If_execute literal_eval fork_nexts fork
    (with_store (λ _, {["lucky" := VBool false; "tired" := VInt 0]}) fresh_state)
  = (Ok tt,
     with_context (set_next_node (Some 5%positive))
       (statement_name "if"
          (with_store (λ _, {["lucky" := VBool false; "tired" := VInt 0]})
             fresh_state)).2) ∧
  5%positive ∈ [2; 4; 5]%positive.
Proof.
  split; [exact literal_eval_True|]. split; [reflexivity|].
  assert (If_execute literal_eval fork_nexts fork
            (with_store (λ _, {["lucky" := VBool false; "tired" := VInt 0]})
               fresh_state)
          = (Ok tt,
             with_context (set_next_node (Some 5%positive))
               (statement_name "if"
                  (with_store (λ _, {["lucky" := VBool false; "tired" := VInt 0]})
                     fresh_state)).2)) as Hrun by reflexivity.
  split; [exact Hrun|].
  exact (If_execute_within_get_reachable literal_eval fork_nexts fork
           [2; 4; 5]%positive _ _ literal_eval_True eq_refl Hrun).
Defined.

Lemma If_get_reachable_within_predict_witness :
  If_predict fork_nexts fork = Ok [Some 2; Some 4; Some 5; Some 9]%positive ∧
  ∃ l, If_get_reachable fork_nexts fork = Ok l ∧
       ∀ t, t ∈ l → Some t ∈ [Some 2; Some 4; Some 5; Some 9]%positive.
Proof.
  split; [reflexivity|].
  exact (If_get_reachable_within_predict fork_nexts fork _ eq_refl).
Defined.

Lemma While_execute_covered_witness :
  let nexts : NextStore := chain (While 1 "True" [Pass 2]) (Some 9%positive) ∅ in
  True_is_true literal_eval ∧
  Script.get_reachable Script.plain_script nexts (λ _, None)
    (While 1 "True" [Pass 2])
  = Ok [2%positive] ∧
  While_predict nexts 1 [Pass 2] = Ok [Some 2; Some 9]%positive ∧
  next_node_ (context
    (While_execute literal_eval nexts 1 "True" [Pass 2] fresh_state).2)
  ∈ [Some 2; Some 9]%positive.
Proof.
  intros nexts.
  split; [exact literal_eval_True|]. split; [reflexivity|]. split; [reflexivity|].
  assert (While_execute literal_eval nexts 1 "True" [Pass 2] fresh_state
          = (Ok tt, (While_execute literal_eval nexts 1 "True" [Pass 2]
                       fresh_state).2)) as Hrun by reflexivity.
  rewrite Hrun at 1.
  exact (proj1 (While_execute_covered literal_eval Script.plain_script nexts
                  (λ _, None) 1 "True" [Pass 2] _ _ fresh_state _
                  literal_eval_True eq_refl eq_refl Hrun)).
Defined.

End Branching.

(** ** What a chained block reports as reachable *)

Module ScriptFacts.
Import Chaining.

(** What [get_reachable] answers for a statement whose successor in its
    block is [following]. *)
Definition reported (c : Script.Collaborators)
    (lookup_or_none : string → option positive)
    (x : Node) (following : option positive) : Result (list positive) :=
  match x with
  | Pass _ | Label _ _ [] | Init _ _ | TranslateBlock _ _ =>
      Ok (option_list following)
  | Label _ _ (first :: _) => Ok [addr first]
  | Jump _ target expression =>
      Ok (if expression then [] else option_list (lookup_or_none target))
  | Call _ target expression =>
      Ok ((if expression then [] else option_list (lookup_or_none target))
          ++ option_list following)
  | Return _ _ => Ok []
  | While _ _ [] => Raise IndexError
  | While _ condition (first :: _) =>
      Ok (addr first ::
          (if String.eqb condition "True" then [] else option_list following))
  | If _ entries => Script.reachable_entries (option_list following) entries []
  | Menu _ items =>
      Ok (omap (λ item : string * string * option (list Node),
                  item.2 ≫= λ block, addr <$> head block) items
          ++ option_list following)
  | UserStatement a _ _ =>
      names ← Script.reachable c a ; Script.reachable_names c names
  | Translate _ identifier language block =>
      Ok (match block with
          | first :: _ => [addr first]
          | [] => option_list following
          end
          ++ match language with
             | Some _ => []
             | None =>
                 Script.translation_heads (Script.get_all_translates c identifier)
             end)
  | TranslateSay _ identifier language =>
      Ok (option_list following
          ++ match language with
             | Some _ => []
             | None =>
                 Script.translation_heads (Script.get_all_translates c identifier)
             end)
  end.

(** X12. In a chained block whose subtrees share no node object, what a
    statement reports as reachable is fixed by the statement and by the
    one that follows it in the block (the block's successor for the last
    one).  A statement that keeps [Node.get_reachable] reports the
    following statement, a [Label] or [Translate] with children its first
    child instead; a [Jump] reports only its static target, if the script
    defines it, and a [Return] nothing, whatever follows them; a [Call]
    its static target and the following statement; a [While] its first
    child, and the following statement unless its condition is the text
    [True]; an [If] the first nodes of its blocks up to a condition
    [True], else the following statement too; a [Menu] the first nodes
    of its blocks and the following statement; a translation with no
    language also the first nodes of the blocks translating it; a user
    statement what its own [reachable] names. *)
Theorem chained_block_reachable c block next h lookup_or_none i x :
  NoDup (flat_map addrs block) →
  block !! i = Some x →
  Script.get_reachable c (chain_block block next h) lookup_or_none x
  = reported c lookup_or_none x (ChainFacts.successor block next i).
Proof.
  intros Hnd Hx.
  pose proof (ChainFacts.chain_seq_link block next h i x Hnd Hx) as Hlink.
  rewrite chain_seq_block in Hlink.
  assert (∀ own : option positive,
            match own with Some n => [n] | None => [] end = option_list own)
    as Hown by (by intros []).
  destruct x as [a|a name children|a target expression|a expression
                |a condition children|a entries|a items|a children
                |a code subparses|a identifier language children|a children
                |a target expression|a identifier language];
    simpl in *; unfold Script.Node_get_reachable; rewrite ?Hlink, ?Hown;
    try done.
  - by destruct children.
  - destruct expression; [done|]. by destruct (lookup_or_none target).
  - destruct children as [|first rest]; [done|].
    by destruct (String.eqb condition "True").
  - destruct children as [|first rest]; destruct language; simpl;
      by rewrite ?app_nil_r.
  - destruct expression; [done|]. by destruct (lookup_or_none target).
  - destruct language; simpl; by rewrite ?app_nil_r.
Qed.

Lemma chained_block_reachable_witness :
  let block := [Pass 2; Jump 3 "start" false; If 4 [("True", [Pass 5])]] in
  NoDup (flat_map addrs block) ∧ block !! 1 = Some (Jump 3 "start" false) ∧
  Script.get_reachable Script.plain_script (chain_block block (Some 9%positive) ∅)
    Script.loop_labels (Jump 3 "start" false)
  = Ok [1%positive].
Proof.
  intros block.
  assert (NoDup (flat_map addrs block)) as Hnd
    by (simpl; repeat (constructor; [set_solver|]); constructor).
  split; [exact Hnd|]. split; [reflexivity|].
  exact (chained_block_reachable Script.plain_script block (Some 9%positive) ∅
           Script.loop_labels 1 (Jump 3 "start" false) Hnd eq_refl).
Defined.

End ScriptFacts.

(** ** More on [Jump] and [Call] *)

Module TransferFacts.
Import Transfer.

Section statements.
Variable py_eval : Evaluator.
Variable namemap : gmap NodeName positive.
Variable node_name : positive → option NodeName.
Context {ArgumentInfo : Type}.
Variable evaluate :
  ArgumentInfo → gmap string Value → Result (Value * Value) * gmap string Value.

(** X13. Prediction agrees with execution.  When [Jump.execute] returns
    and the target is static, or an expression that is probably free of
    side effects, [Jump.predict] from the same session predicts exactly
    the node the jump goes to; likewise [Call.predict] for
    [Call.execute]. *)
Theorem predict_agrees_with_execute st st' :
  (∀ j : Jump,
     Jump_execute py_eval namemap j st = (Ok tt, st') →
     (jump_expression j = true →
        probably_side_effect_free (jump_target j) = true) →
     ∃ n, next_node_ (context st') = Some n ∧
          (Jump_predict py_eval namemap j st).1 = Ok [n]) ∧
  (∀ c : Call,
     Call_execute py_eval namemap node_name evaluate c st = (Ok tt, st') →
     (call_expression c = true →
        probably_side_effect_free (call_label c) = true) →
     ∃ n, next_node_ (context st') = Some n ∧
          (Call_predict py_eval namemap node_name c st).1 = Ok [n]).
Proof.
  split.
  - intros j Hrun Hfree.
    unfold Jump_execute, Jump_predict, mbind, M_bind, mret, M_ret, statement_name,
      modify, next_node, eval in *.
    simpl in *. destruct (jump_expression j).
    + rewrite (Hfree eq_refl). simpl in *.
      destruct (py_eval (jump_target j) (store st)) as [[v|e] s'];
        simpl in *; [|discriminate].
      unfold Execution.has_label, Execution.lookup in *.
      destruct (Execution.lookup_or_none namemap (qualify (jump_global_label j) v))
        as [n|]; simpl in *; [|discriminate].
      injection Hrun as <-. by exists n.
    + simpl in *. unfold Execution.lookup in *.
      destruct (Execution.lookup_or_none namemap (VStr (jump_target j)))
        as [n|]; simpl in *; [|discriminate].
      injection Hrun as <-. by exists n.
  - intros c Hrun Hfree.
    assert (∀ (label : Value) (s0 s1 : State),
              store s1 = store s0 →
              (return_site ← next_name node_name (call_next c) ;
               rv ← Execution.Context_call namemap label return_site ;
               next_node (Some rv) ;;
               modify (with_context (set_abnormal true)) ;;
               match call_arguments c with
               | Some a =>
                   '(args, kwargs) ←
                     (λ st, let '(r, s') := evaluate a (store st) in
                            (r, with_store (λ _, s') st)) ;
                   modify (with_store
                     (λ s, <["_kwargs" := kwargs]> (<["_args" := args]> s)))
               | None =>
                   modify (with_store
                     (λ s, <["_kwargs" := VNone]> (<["_args" := VNone]> s)))
               end) s0 = (Ok tt, st') →
              ∃ n, next_node_ (context st') = Some n ∧
                   ((return_site ← next_name node_name (call_next c) ;
                     n ← Execution.Context_predict_call namemap label return_site ;
                     mret [n]) s1).1 = Ok [n] ∧
                   Execution.lookup_or_none namemap label = Some n) as Hfinish.
    { intros label s0 s1 Hstore Hrest.
      unfold mbind, M_bind, mret, M_ret, next_name, Execution.Context_call,
        Execution.Context_predict_call, next_node, modify in *.
      destruct (call_next c) as [nx|]; simpl in *; [|discriminate].
      unfold Execution.lookup in *.
      destruct (Execution.lookup_or_none namemap label) as [n|];
        simpl in *; [|discriminate].
      exists n. split; [|done].
      destruct (call_arguments c) as [a|]; simpl in *.
      - destruct (evaluate a (store s0)) as [[[args kwargs]|e] s'];
          simpl in *; [|discriminate].
        by injection Hrest as <-.
      - by injection Hrest as <-. }
    unfold Call_execute, Call_predict in *.
    unfold mbind at 1 2, M_bind at 1 2, statement_name, modify in Hrun.
    simpl in Hrun. destruct (call_expression c).
    + rewrite (Hfree eq_refl). simpl.
      unfold mbind at 1, M_bind at 1, eval in Hrun. unfold eval. simpl in *.
      destruct (py_eval (call_label c) (store st)) as [[v|e] s'];
        simpl in *; [|discriminate].
      match type of Hrun with _ ?s0 = _ =>
        destruct (Hfinish (qualify (call_global_label c) v) s0
                    (with_store (λ _, s') st) eq_refl Hrun) as (n & Hn & Hp & Hl)
      end.
      exists n. split; [done|].
      unfold Execution.has_label. rewrite Hl. simpl. exact Hp.
    + simpl in Hrun.
      match type of Hrun with _ ?s0 = _ =>
        destruct (Hfinish (VStr (call_label c)) s0 st eq_refl Hrun)
          as (n & Hn & Hp & Hl)
      end.
      by exists n.
Qed.

(** X14. A jump moves the context only when it succeeds: when
    [Jump.execute] raises (the target fails to evaluate or is not a
    label of the script) the context is as it was, next node and
    [abnormal] flag included; when it returns, only the next node and the
    [abnormal] flag have changed, the call stack and the dynamic scopes
    are untouched.  In both cases the statement name is [jump]. *)
Theorem Jump_execute_moves_on_success (j : Jump) st :
  let r := Jump_execute py_eval namemap j st in
  current_statement_name r.2 = "jump" ∧
  match r.1 with
  | Raise _ => context r.2 = context st
  | Ok _ =>
      ∃ n, context r.2 = set_next_node (Some n) (set_abnormal true (context st))
  end.
Proof.
  unfold Jump_execute, mbind, M_bind, mret, M_ret, statement_name, modify,
    next_node, eval.
  simpl. destruct (jump_expression j); simpl.
  - destruct (py_eval (jump_target j) (store st)) as [[v|e] s']; simpl; [|done].
    destruct (Execution.lookup namemap (qualify (jump_global_label j) v));
      simpl; eauto.
  - destruct (Execution.lookup namemap (VStr (jump_target j))); simpl; eauto.
Qed.

End statements.

Lemma predict_agrees_with_execute_witness :
  let j := mkJump None "chapter" true "" in
  let st := with_store (λ _, {["chapter" := VStr "start"]}) fresh_state in
  ∃ st',
    Jump_execute lookup_eval demo_namemap j st = (Ok tt, st') ∧
    probably_side_effect_free (jump_target j) = true ∧
    ∃ n, next_node_ (context st') = Some n ∧
         (Jump_predict lookup_eval demo_namemap j st).1 = Ok [n].
Proof.
  intros j st.
  destruct (Jump_execute lookup_eval demo_namemap j st) as [r st'] eqn:Hrun.
  assert (r = Ok tt) as -> by (by vm_compute in Hrun; injection Hrun as <- _).
  exists st'. split; [reflexivity|]. split; [reflexivity|].
  exact (proj1 (predict_agrees_with_execute lookup_eval demo_namemap
                  (λ _, None) no_arguments st st') j Hrun (λ _, eq_refl)).
Defined.

End TransferFacts.

(** ** More on translations *)

Module TranslationFacts.
Import Translation.

Section statements.
Variable lookup_translate : string → option string → option positive.
Variable hash64 : string → Z.
Variable Say_execute : TranslateSay → M unit.

(** The identifier is in [persistent._seen_translates], raw or hashed. *)
Definition seen (identifier : string) (st : State) : Prop :=
  RawKey identifier ∈ seen_translates st ∨
  HashedKey (hash64 identifier) ∈ seen_translates st.

(** A run of identifiers marked one after the other. *)
Definition mark_all (identifiers : list string) (st : State) : State :=
  foldl (λ st' identifier, mark_seen hash64 identifier st') st identifiers.

Lemma mark_seen_step identifier st :
  let st' := mark_seen hash64 identifier st in
  seen_translates st ⊆ seen_translates st' ∧
  config st' = config st ∧
  (∃ grown : nat,
     grown ≤ 1 ∧
     size (seen_translates st') = size (seen_translates st) + grown ∧
     seen_translates_count st' = (seen_translates_count st + Z.of_nat grown)%Z ∧
     new_translates_count st' = (new_translates_count st + Z.of_nat grown)%Z).
Proof.
  simpl.
  destruct (decide (RawKey identifier ∈ seen_translates st ∨
                    HashedKey (hash64 identifier) ∈ seen_translates st))
    as [Hknown|Hfresh].
  - rewrite mark_seen_known by done. split; [done|]. split; [done|].
    exists 0. repeat split; lia.
  - rewrite mark_seen_fresh by tauto. simpl. split; [set_solver|]. split; [done|].
    exists 1. split; [lia|]. split; [|split; lia].
    rewrite size_union.
    + destruct (hash_seen (config st)); rewrite size_singleton; lia.
    + destruct (hash_seen (config st)); set_solver.
Qed.

Lemma mark_all_steps identifiers :
  ∀ st,
    seen_translates st ⊆ seen_translates (mark_all identifiers st) ∧
    config (mark_all identifiers st) = config st ∧
    ∃ grown : nat,
      grown ≤ length identifiers ∧
      size (seen_translates (mark_all identifiers st))
        = size (seen_translates st) + grown ∧
      seen_translates_count (mark_all identifiers st)
        = (seen_translates_count st + Z.of_nat grown)%Z ∧
      new_translates_count (mark_all identifiers st)
        = (new_translates_count st + Z.of_nat grown)%Z.
Proof.
  induction identifiers as [|identifier rest IH]; intros st.
  - split; [done|]. split; [done|]. exists 0. simpl. repeat split; lia.
  - change (mark_all (identifier :: rest) st)
      with (mark_all rest (mark_seen hash64 identifier st)).
    destruct (mark_seen_step identifier st)
      as (Hsub & Hcfg & g1 & Hg1 & Hsize1 & Hcount1 & Hnew1).
    destruct (IH (mark_seen hash64 identifier st))
      as (Hsub' & Hcfg' & g2 & Hg2 & Hsize2 & Hcount2 & Hnew2).
    split; [set_solver|]. split; [congruence|].
    exists (g1 + g2). simpl. repeat split; lia.
Qed.

(** X15. However many translations are marked as seen, in whatever order
    and with repetitions, the two counters grow by exactly the number of
    keys that were added to [persistent._seen_translates], which is at
    most the number of markings; the set only grows, and every marked
    identifier is in it afterwards, raw or hashed. *)
Theorem mark_seen_counts_new_keys identifiers st :
  let st' := mark_all identifiers st in
  seen_translates st ⊆ seen_translates st' ∧
  size (seen_translates st') ≤ size (seen_translates st) + length identifiers ∧
  (seen_translates_count st' - seen_translates_count st
   = Z.of_nat (size (seen_translates st')) - Z.of_nat (size (seen_translates st)))%Z ∧
  (new_translates_count st' - new_translates_count st
   = Z.of_nat (size (seen_translates st')) - Z.of_nat (size (seen_translates st)))%Z ∧
  ∀ identifier, identifier ∈ identifiers → seen identifier st'.
Proof.
  simpl.
  destruct (mark_all_steps identifiers st)
    as (Hsub & _ & g & Hg & Hsize & Hcount & Hnew).
  split; [done|]. split; [lia|]. split; [lia|]. split; [lia|].
  clear Hsub g Hg Hsize Hcount Hnew. revert st.
  induction identifiers as [|x rest IH]; intros st identifier Hin.
  - by apply elem_of_nil in Hin.
  - change (mark_all (x :: rest) st) with (mark_all rest (mark_seen hash64 x st)).
    apply elem_of_cons in Hin as [->|Hin]; [|by apply IH].
    destruct (mark_all_steps rest (mark_seen hash64 x st)) as (Hsub & _).
    destruct (mark_seen_recorded lookup_translate hash64 x st) as [Hraw|Hhashed];
      [left|right]; set_solver.
Qed.

Lemma mark_seen_context identifier st :
  context (mark_seen hash64 identifier st) = context st.
Proof. unfold mark_seen. by destruct (_ && _). Qed.

Lemma EndTranslate_execute_current identifier st next :
  translate_identifier (context st) = Some identifier →
  EndTranslate_execute hash64 next st
  = (Ok tt, clear_translate_identifiers
              (mark_seen hash64 identifier (with_context (set_next_node next) st))).
Proof.
  intros Htl. unfold EndTranslate_execute.
  unfold mbind, M_bind, next_node, modify, gets. simpl. by rewrite Htl.
Qed.

(** X16. A line that is handed over to its translation is recorded when
    the translated block ends: [Translate.execute] of a node with no
    language, and [TranslateSay.execute] on its redirect path, return
    without touching [persistent._seen_translates] and leave the node's
    identifier as the context's current one; [EndTranslate.execute] in a
    session that still holds that identifier returns with the identifier
    seen and no current identifier, and an [EndTranslate] after that adds
    nothing. *)
Theorem translation_recorded_at_block_end st :
  let closes (identifier : string) (r : Result unit * State) : Prop :=
    r.1 = Ok tt ∧
    seen_translates r.2 = seen_translates st ∧
    translate_identifier (context r.2) = Some identifier ∧
    ∀ st1 next next',
      translate_identifier (context st1) = translate_identifier (context r.2) →
      let r2 := EndTranslate_execute hash64 next st1 in
      r2.1 = Ok tt ∧
      seen identifier r2.2 ∧
      next_node_ (context r2.2) = next ∧
      translate_identifier (context r2.2) = None ∧
      alternate_translate_identifier (context r2.2) = None ∧
      seen_translates (EndTranslate_execute hash64 next' r2.2).2
        = seen_translates r2.2 in
  (∀ t, translate_language t = None →
     closes (translate_identifier_ t) (Translate_execute lookup_translate t st)) ∧
  (∀ t node, redirected lookup_translate t = Some node →
     closes (ts_identifier t) (TranslateSay_execute lookup_translate hash64 Say_execute t st) ∧
     next_node_ (context
       (TranslateSay_execute lookup_translate hash64 Say_execute t st).2) = Some node).
Proof.
  assert (∀ identifier st1 next next',
            translate_identifier (context st1) = Some identifier →
            let r2 := EndTranslate_execute hash64 next st1 in
            r2.1 = Ok tt ∧
            seen identifier r2.2 ∧
            next_node_ (context r2.2) = next ∧
            translate_identifier (context r2.2) = None ∧
            alternate_translate_identifier (context r2.2) = None ∧
            seen_translates (EndTranslate_execute hash64 next' r2.2).2
              = seen_translates r2.2) as Hend.
  { intros identifier st1 next next' Hid.
    rewrite (EndTranslate_execute_current identifier st1 next Hid). simpl.
    split; [done|]. split.
    { apply (mark_seen_recorded lookup_translate hash64 identifier
               (with_context (set_next_node next) st1)). }
    rewrite !mark_seen_context. simpl. repeat split; done. }
  simpl. split.
  - intros t Hl. unfold Translate_execute. rewrite Hl.
    unfold mbind, M_bind, next_node, modify. simpl.
    repeat split; try done.
    all: by apply (Hend (translate_identifier_ t) st1 next next').
  - intros t node Hred. unfold TranslateSay_execute. rewrite Hred.
    unfold mbind, M_bind, next_node, modify. simpl.
    repeat split; try done.
    all: by apply (Hend (ts_identifier t) st1 next next').
Qed.

End statements.

Lemma translation_recorded_at_block_end_witness :
  translate_language start_line = None ∧
  let r := Translate_execute (spec_lookup_translate french) start_line fresh_state in
  r.1 = Ok tt ∧
  seen length_hash "start_a170b500"
    (EndTranslate_execute length_hash (Some 30%positive) r.2).2.
Proof.
  split; [reflexivity|].
  destruct (proj1 (translation_recorded_at_block_end
                     (spec_lookup_translate french) length_hash
                     (λ _ st, (Ok tt, st)) fresh_state) start_line eq_refl)
    as (Hok & _ & _ & Hend).
  split; [exact Hok|].
  exact (proj1 (proj2 (Hend _ (Some 30%positive) None eq_refl))).
Defined.

End TranslationFacts.

(** ** More on menus *)

Module MenuFacts.
Import MenuStmt.

(** The first nodes of the items' blocks, for the items that have a
    block with a statement in it. *)
Definition block_heads (items : list Item) : list positive :=
  omap (λ item : Item, item.2 ≫= head) items.

Section execute.
Variable py_eval : Evaluator.
Context {ArgumentInfo : Type}.
Variable evaluate :
  ArgumentInfo → gmap string Value → Result Arguments * gmap string Value.
Variable transitions : Z.
Variable set_transition : Value → M unit.
Variable narrator_say : string → M unit.
Variable exports_menu :
  list Choice → option string → option Arguments → list Arguments → M (option nat).

(** [Menu.get_reachable]: the first node of every block that is neither
    [None] nor empty, then [self.next] unless it is [None]. *)
Definition Menu_get_reachable (m : Menu (ArgumentInfo := ArgumentInfo))
    : list positive :=
  block_heads (menu_items m) ++ option_list (menu_next m).

Lemma arguments_of_item_context (m : Menu) i st :
  context (arguments_of_item evaluate m i st).2 = context st.
Proof.
  unfold arguments_of_item, run_evaluate.
  destruct (menu_item_arguments m) as [[|x l]|]; try done.
  destruct ((x :: l) !! i) as [[a|]|]; try done.
  simpl. by destruct (evaluate a (store st)).
Qed.

(** One turn of the loop: the lists stay aligned, a block is not empty,
    and the next node moves to the head of the item's block. *)
Lemma Menu_item_step (m : Menu) i item acc st acc' st' :
  Menu_item evaluate m i item acc st = (Ok acc', st') →
  item.2 ≠ Some [] ∧
  length (item_arguments acc') + length (choices acc)
    = length (item_arguments acc) + length (choices acc') ∧
  next_node_ (context st')
    = default (next_node_ (context st)) (Some <$> (item.2 ≫= head)).
Proof.
  destruct item as [[label condition] block].
  unfold Menu_item, mbind, M_bind, gets, next_node, modify.
  simpl. destruct block as [[|first rest]|]; simpl.
  - discriminate.
  - pose proof (arguments_of_item_context m i
      (with_context (set_next_node (Some first)) st)) as Hctx.
    destruct (arguments_of_item evaluate m i
                (with_context (set_next_node (Some first)) st))
      as [[a|e] st1]; [|discriminate].
    intros [= <- <-]. simpl in *. rewrite !length_app. simpl.
    split; [done|]. split; [lia|]. by rewrite Hctx.
  - destruct (narrator_menu (config st) &&
              negb (String.eqb (filtered (config st) label) "")); simpl.
    + intros [= <- <-]. simpl. split; [done|]. split; [lia|done].
    + pose proof (arguments_of_item_context m i st) as Hctx.
      destruct (arguments_of_item evaluate m i st) as [[a|e] st1]; [|discriminate].
      intros [= <- <-]. simpl in *. rewrite !length_app. simpl.
      split; [done|]. split; [lia|]. by rewrite Hctx.
Qed.

Lemma Menu_loop_steps (m : Menu) items :
  ∀ i acc st acc' st',
    Menu_loop evaluate m i items acc st = (Ok acc', st') →
    (∀ item, item ∈ items → item.2 ≠ Some []) ∧
    length (item_arguments acc') + length (choices acc)
      = length (item_arguments acc) + length (choices acc') ∧
    next_node_ (context st')
      = default (next_node_ (context st)) (Some <$> last (block_heads items)).
Proof.
  induction items as [|item rest IH]; intros i acc st acc' st' Hrun; simpl in Hrun.
  - injection Hrun as <- <-. split; [|done]. intros item Hin.
    by apply elem_of_nil in Hin.
  - unfold mbind, M_bind in Hrun.
    destruct (Menu_item evaluate m i item acc st) as [[acc1|e] st1] eqn:Hitem;
      [|discriminate].
    apply Menu_item_step in Hitem as (Hne & Hlen & Hnext).
    apply IH in Hrun as (Hne' & Hlen' & Hnext').
    split; [|split; [lia|]].
    + intros x Hx. apply elem_of_cons in Hx as [->|Hx]; auto.
    + rewrite Hnext', Hnext. unfold block_heads. simpl.
      destruct (item.2 ≫= head) as [first|]; simpl; [|done].
      change (list_omap Item positive (λ item0 : Item, item0.2 ≫= head) rest)
        with (omap (λ item0 : Item, item0.2 ≫= head) rest).
      rewrite last_cons.
      by destruct (last (omap (λ item0 : Item, item0.2 ≫= head) rest)).
Qed.

Lemma block_heads_elem items k label condition first rest :
  items !! k = Some (label, condition, Some (first :: rest)) →
  first ∈ block_heads items.
Proof.
  intros Hk. unfold block_heads. apply list_elem_of_omap.
  exists (label, condition, Some (first :: rest)).
  split; [by eapply list_elem_of_lookup_2|done].
Qed.

(** X17. Whenever [Menu.execute] returns, the chooser was called with the
    offered choices and with as many item-argument pairs as choices; and
    the session in which the first collaborator after the loop was called
    (the narrator if there is a narration, the transition otherwise) had
    the context's next node at the first node of the last item that has a
    block (the loop moves it at every such item), or at the menu's [next]
    when no item has one. *)
Theorem Menu_execute_calls_chooser (m : Menu) st st' :
  Menu_execute py_eval evaluate transitions set_transition narrator_say
    exports_menu m st = (Ok tt, st') →
  let offer := offered (config st) (menu_items m) in
  ∃ arguments arguments_of_items st1 st2 st3 choice st4,
    match narrated_labels (config st) (menu_items m) with
    | [] => st2 = st1
    | lines =>
        narrator_say (String.concat (String (ascii_of_nat 10) "") lines) st1
        = (Ok tt, st2)
    end ∧
    say_menu_with py_eval transitions (menu_with m) set_transition st2
    = (Ok tt, st3) ∧
    exports_menu offer (menu_set m) arguments arguments_of_items st3
    = (Ok choice, st4) ∧
    length arguments_of_items = length offer ∧
    next_node_ (context st1)
    = default (menu_next m) (Some <$> last (block_heads (menu_items m))).
Proof.
  intros Hrun offer.
  destruct (Menu_execute_trace _ _ _ _ _ _ m st st' Hrun)
    as (arguments & st0 & acc & st1 & st2 & st3 & choice & st4
        & Hcfg & Hnext & Hcollect & Hsay & Hwith & Hmenu & Hfinish).
  pose proof Hcollect as Hloop.
  apply Menu_loop_steps in Hloop as (_ & Hlen & Hlast).
  apply Menu_loop_spec in Hcollect as (_ & Hch & Hna).
  simpl in Hch, Hna, Hlen. rewrite Hcfg in Hch, Hna. rewrite Hch, Hna in *.
  exists arguments, (item_arguments acc), st1, st2, st3, choice, st4.
  split; [by destruct (narrated_labels _ _)|]. split; [done|]. split; [done|].
  split; [unfold offer, offered; lia|]. by rewrite Hlast, Hnext.
Qed.

(** X18. Whenever [Menu.execute] returns, the node it leaves as the
    context's next node is one that [Menu.get_reachable] reports: the
    first node of the block of the item the chooser answered with, or the
    menu's [next]; it is [None] only when the menu has no [next]. *)
Theorem Menu_execute_target_reported (m : Menu) st st' :
  Menu_execute py_eval evaluate transitions set_transition narrator_say
    exports_menu m st = (Ok tt, st') →
  match next_node_ (context st') with
  | Some t => t ∈ Menu_get_reachable m
  | None => menu_next m = None
  end.
Proof.
  intros Hrun.
  destruct (Menu_execute_trace _ _ _ _ _ _ m st st' Hrun)
    as (arguments & st0 & acc & st1 & st2 & st3 & choice & st4
        & _ & _ & _ & _ & _ & _ & Hfinish).
  apply Menu_finish_spec in Hfinish. unfold Menu_get_reachable.
  destruct choice as [c|].
  - destruct Hfinish as (label & condition & first & rest & Hc & ->). simpl.
    apply elem_of_app. left. by eapply block_heads_elem.
  - rewrite Hfinish. simpl. destruct (menu_next m) as [t|]; [|done].
    apply elem_of_app. right. by left.
Qed.

End execute.

Lemma Menu_execute_calls_chooser_witness :
  ∃ st',
    Menu_execute lookup_eval no_item_arguments 2 (silent Value) (silent string)
      last_choice door_menu narrator_state = (Ok tt, st') ∧
    ∃ arguments arguments_of_items st1 st2 st3 choice st4,
      silent string "Where to?" st1 = (Ok tt, st2) ∧
      say_menu_with lookup_eval 2 None (silent Value) st2 = (Ok tt, st3) ∧
      last_choice [("Left", "door_open", Some 1); ("Right", "True", Some 2)]
        None arguments arguments_of_items st3
      = (Ok choice, st4) ∧
      length arguments_of_items = 2 ∧
      next_node_ (context st1) = Some 8%positive.
Proof.
  destruct (Menu_execute lookup_eval no_item_arguments 2 (silent Value)
              (silent string) last_choice door_menu narrator_state)
    as [r st'] eqn:Hrun.
  assert (r = Ok tt) as -> by (vm_compute in Hrun; by injection Hrun as <- _).
  exists st'. split; [reflexivity|].
  exact (Menu_execute_calls_chooser lookup_eval no_item_arguments 2
           (silent Value) (silent string) last_choice door_menu
           narrator_state st' Hrun).
Defined.

Lemma Menu_execute_target_reported_witness :
  ∃ st',
    Menu_execute lookup_eval no_item_arguments 2 (silent Value) (silent string)
      last_choice door_menu narrator_state = (Ok tt, st') ∧
    match next_node_ (context st') with
    | Some t => t ∈ [5; 8; 9]%positive
    | None => False
    end.
Proof.
  destruct (Menu_execute lookup_eval no_item_arguments 2 (silent Value)
              (silent string) last_choice door_menu narrator_state)
    as [r st'] eqn:Hrun.
  assert (r = Ok tt) as -> by (vm_compute in Hrun; by injection Hrun as <- _).
  exists st'. split; [reflexivity|].
  pose proof (Menu_execute_target_reported lookup_eval no_item_arguments 2
                (silent Value) (silent string) last_choice door_menu
                narrator_state st' Hrun) as Hin.
  destruct (next_node_ (context st')) as [t|]; [exact Hin|discriminate Hin].
Defined.

End MenuFacts.

(** ** The [name] property of a node *)

Module NodeNames.

(** An element of a name tuple: a string or an integer (the integer slots
    of a node hold unsigned integers). *)
Inductive Item : Type :=
| IStr (s : string)
| IInt (n : N).

(** A value of [Node.name]: [None], a string, or a tuple. *)
Inductive Name : Type :=
| NameNone
| NameStr (s : string)
| NameTuple (items : list Item).

(** The attributes of a node behind the property. *)
Record Node : Type := mkNode {
  filename : string;
  _name : Name;
  name_version : N;
  name_serial : N;
}.

(** Truth value of a name in [if self._name:]. *)
Definition name_truthy (value : Name) : bool :=
  match value with
  | NameNone => false
  | NameStr s => negb (String.eqb s "")
  | NameTuple items => match items with [] => false | _ :: _ => true end
  end.

(** The getter of [Node.name]. *)
Definition get_name (n : Node) : Name :=
  if name_truthy (_name n) then _name n
  else if negb (name_version n =? 0)%N then
    NameTuple [IStr (filename n); IInt (name_version n); IInt (name_serial n)]
  else NameNone.

(** The setter of [Node.name]:
    [case (self.filename, int(version), int(serial))] stores the two
    integers; any other value goes to [_name]. *)
Definition set_name (value : Name) (n : Node) : Node :=
  match value with
  | NameTuple [IStr f; IInt version; IInt serial] =>
      if String.eqb f (filename n)
      then mkNode (filename n) NameNone version serial
      else mkNode (filename n) value (name_version n) (name_serial n)
  | _ => mkNode (filename n) value (name_version n) (name_serial n)
  end.

(** The names that read back as they were assigned to a node of the file
    [file]: a string that is not empty, or a tuple that is not empty and
    is not [(file, 0, serial)]. *)
Definition reads_back (file : string) (value : Name) : bool :=
  match value with
  | NameNone => false
  | NameStr s => negb (String.eqb s "")
  | NameTuple [IStr f; IInt version; IInt serial] =>
      if String.eqb f file then negb (version =? 0)%N else true
  | NameTuple items => match items with [] => false | _ :: _ => true end
  end.

(** X19. Assigning a name and reading it back.  A non-empty string, and a
    non-empty tuple other than [(filename, 0, serial)] of the node's own
    file, read back as assigned; a triple [(filename, version, serial)]
    of the node's own file is kept in the two integer attributes, with
    [_name] set to [None].  [(filename, 0, serial)] reads back as [None].
    Assigning [None], the empty string or the empty tuple does not clear a
    name kept in the integer attributes: the node reads back that triple,
    and [None] only when its version is 0.  The file name never
    changes. *)
Theorem name_assign_read value n :
  filename (set_name value n) = filename n ∧
  (reads_back (filename n) value = true → get_name (set_name value n) = value) ∧
  (∀ version serial,
     value = NameTuple [IStr (filename n); IInt version; IInt serial] →
     _name (set_name value n) = NameNone ∧
     name_version (set_name value n) = version ∧
     name_serial (set_name value n) = serial ∧
     (version = 0%N → get_name (set_name value n) = NameNone)) ∧
  (name_truthy value = false →
     get_name (set_name value n)
     = if (name_version n =? 0)%N then NameNone
       else NameTuple [IStr (filename n); IInt (name_version n);
                       IInt (name_serial n)]).
Proof.
  split; [|split; [|split]].
  - destruct value as [|s|[|[f|v] [|[f2|v2] [|[f3|v3] [|x l]]]]]; try done.
    simpl. by destruct (String.eqb f (filename n)).
  - intros Hok. unfold get_name.
    destruct value as [|s|[|[f|v] [|[f2|v2] [|[f3|v3] [|x l]]]]]; simpl in *;
      try done; try (by rewrite Hok).
    destruct (String.eqb f (filename n)) eqn:Hf; simpl; [|done].
    apply String.eqb_eq in Hf as ->. by rewrite Hok.
  - intros version serial ->. simpl. rewrite String.eqb_refl. simpl.
    repeat split. intros ->. done.
  - intros Hfalsy. unfold get_name.
    destruct value as [|s|[|x l]]; simpl in *; try done.
    + by destruct (name_version n =? 0)%N.
    + rewrite Hfalsy. simpl. by destruct (name_version n =? 0)%N.
    + by destruct (name_version n =? 0)%N.
Qed.

Lemma name_assign_read_witness :
  let n := mkNode "script.rpy" NameNone 0 0 in
  let value := NameTuple [IStr "script.rpy"; IInt 2; IInt 17] in
  reads_back (filename n) value = true ∧
  get_name (set_name value n) = value ∧
  name_truthy NameNone = false ∧
  get_name (set_name NameNone (set_name value n)) = value.
Proof.
  intros n value.
  split; [reflexivity|]. split.
  - exact (proj1 (proj2 (name_assign_read value n)) eq_refl).
  - split; [reflexivity|].
    exact (proj2 (proj2 (proj2 (name_assign_read NameNone (set_name value n))))
             eq_refl).
Defined.

End NodeNames.

(** ** renpy.compat: bytes helpers *)

Module Compat.

Inductive Error : Type :=
| ValueError                              (* bytes must be in range(0, 256) *)
| BytesIndexError                         (* [IndexError]: index out of range *)
| UnicodeEncodeError (position : nat).    (* ordinal not in range(256) *)

Inductive Outcome (A : Type) : Type :=
| Returns (a : A)
| Raises (e : Error).
Arguments Returns {A} a.
Arguments Raises {A} e.

(** The byte of an integer, as [bytes([i])] converts it. *)
Definition byte_of_int (i : Z) : Outcome Byte.byte :=
  if (i <? 0)%Z then Raises ValueError
  else match Byte.of_N (Z.to_N i) with
       | Some b => Returns b
       | None => Raises ValueError
       end.

(** [bytes(s)] for an iterable of integers. *)
Fixpoint bytes_of_ints (s : list Z) : Outcome (list Byte.byte) :=
  match s with
  | [] => Returns []
  | i :: rest =>
      match byte_of_int i with
      | Raises e => Raises e
      | Returns b =>
          match bytes_of_ints rest with
          | Raises e => Raises e
          | Returns bs => Returns (b :: bs)
          end
      end
  end.

(** [s.encode("latin-1")] for a string given by its code points, from
    position [position] on. *)
Fixpoint encode_latin1 (position : nat) (s : list N) : Outcome (list Byte.byte) :=
  match s with
  | [] => Returns []
  | c :: rest =>
      match Byte.of_N c with
      | None => Raises (UnicodeEncodeError position)
      | Some b =>
          match encode_latin1 (S position) rest with
          | Raises e => Raises e
          | Returns bs => Returns (b :: bs)
          end
      end
  end.

(** [b.decode("latin-1")]. *)
Definition decode_latin1 (b : list Byte.byte) : list N := Byte.to_N <$> b.

(** [bord(s)]: [s[0]]. *)
Definition bord (s : list Byte.byte) : Outcome Z :=
  match s with
  | [] => Raises BytesIndexError
  | b :: _ => Returns (Z.of_N (Byte.to_N b))
  end.

(** [bchr(i)]: [bytes([i])]. *)
Definition bchr (i : Z) : Outcome (list Byte.byte) := bytes_of_ints [i].

(** The arguments of [tobytes]. *)
Inductive Text : Type :=
| OfBytes (b : list Byte.byte)
| OfStr (s : list N)
| OfInts (s : list Z).

(** [tobytes(s)]. *)
Definition tobytes (s : Text) : Outcome (list Byte.byte) :=
  match s with
  | OfBytes b => Returns b
  | OfStr s => encode_latin1 0 s
  | OfInts s => bytes_of_ints s
  end.

Lemma byte_of_int_range i b :
  byte_of_int i = Returns b ↔ (0 ≤ i < 256)%Z ∧ Z.of_N (Byte.to_N b) = i.
Proof.
  unfold byte_of_int. destruct (Z.ltb_spec i 0) as [Hneg|Hpos].
  - split; [done|]. pose proof (Byte.to_N_bounded b). lia.
  - destruct (Byte.of_N (Z.to_N i)) as [b'|] eqn:Hb.
    + pose proof (Byte.to_of_N _ Hb) as Hto.
      pose proof (Byte.to_N_bounded b') as Hle.
      split.
      * intros [= <-]. lia.
      * intros [_ Heq]. f_equal.
        assert (Byte.to_N b = Byte.to_N b') as Hn by lia.
        pose proof (Byte.of_to_N b) as H1. pose proof (Byte.of_to_N b') as H2.
        rewrite Hn in H1. congruence.
    + apply Byte.of_N_None_iff in Hb. split; [done|]. lia.
Qed.

Lemma encode_latin1_decode b : ∀ position,
  encode_latin1 position (decode_latin1 b) = Returns b.
Proof.
  induction b as [|x b IH]; intros position; simpl; [done|].
  by rewrite Byte.of_to_N, IH.
Qed.

Lemma encode_latin1_spec s : ∀ position,
  match encode_latin1 position s with
  | Returns b => decode_latin1 b = s
  | Raises e =>
      ∃ p c, e = UnicodeEncodeError (position + p) ∧ s !! p = Some c ∧
             (255 < c)%N ∧
             ∀ q c', q < p → s !! q = Some c' → (c' ≤ 255)%N
  end.
Proof.
  induction s as [|c rest IH]; intros position; simpl; [done|].
  destruct (Byte.of_N c) as [b|] eqn:Hb.
  - pose proof (Byte.to_of_N _ Hb) as Hto.
    specialize (IH (S position)).
    destruct (encode_latin1 (S position) rest) as [bs|e].
    + simpl. by rewrite Hto, IH.
    + destruct IH as (p & c' & -> & Hp & Hc & Hbefore).
      exists (S p), c'. split; [f_equal; lia|]. split; [done|]. split; [done|].
      intros [|q] c'' Hq Hl; simpl in Hl.
      * injection Hl as <-. pose proof (Byte.to_N_bounded b). lia.
      * apply (Hbefore q); [lia|done].
  - apply Byte.of_N_None_iff in Hb.
    exists 0, c. split; [f_equal; lia|]. split; [done|]. split; [done|].
    intros q c' Hq. lia.
Qed.

(** X20. [bchr] and [bord] are inverse on single bytes: for an integer
    from 0 to 255 [bchr] returns one byte and [bord] of it is the integer;
    [bord] returns the value of the first byte, from 0 to 255, and [bchr]
    of it is that byte.  Outside 0 to 255 [bchr] raises [ValueError], and
    [bord] of empty bytes raises [IndexError]. *)
Theorem bchr_bord_inverse :
  (∀ i, (0 ≤ i < 256)%Z → ∃ b, bchr i = Returns [b] ∧ bord [b] = Returns i) ∧
  (∀ i, ¬ (0 ≤ i < 256)%Z → bchr i = Raises ValueError) ∧
  (∀ b rest, ∃ i, bord (b :: rest) = Returns i ∧ (0 ≤ i < 256)%Z ∧
                  bchr i = Returns [b]) ∧
  bord [] = Raises BytesIndexError.
Proof.
  split; [|split; [|split; [|done]]].
  - intros i Hi. unfold bchr. simpl.
    destruct (byte_of_int i) as [b|e] eqn:Hb.
    + exists b. split; [done|]. apply byte_of_int_range in Hb as [_ <-]. done.
    + exfalso. unfold byte_of_int in Hb.
      destruct (Z.ltb_spec i 0); [lia|].
      destruct (Byte.of_N (Z.to_N i)) eqn:Hn; [done|].
      apply Byte.of_N_None_iff in Hn. lia.
  - intros i Hi. unfold bchr. simpl.
    destruct (byte_of_int i) as [b|e] eqn:Hb.
    + apply byte_of_int_range in Hb as [? _]. done.
    + unfold byte_of_int in Hb. destruct (i <? 0)%Z; [congruence|].
      destruct (Byte.of_N (Z.to_N i)); congruence.
  - intros b rest. exists (Z.of_N (Byte.to_N b)). split; [done|].
    pose proof (Byte.to_N_bounded b). split; [lia|].
    unfold bchr. simpl.
    by rewrite (proj2 (byte_of_int_range (Z.of_N (Byte.to_N b)) b)) by (split; [lia|done]).
Qed.

(** X21. [tobytes] returns bytes as they are, so applying it to its own
    result changes nothing.  A string is encoded exactly when all its code
    points are below 256, and the result decodes back to the string; if
    not, the error names the position of the first code point above 255.
    Bytes decoded as latin-1 encode back to the same bytes.  An iterable
    of integers is converted element by element, and raises [ValueError]
    if an element is outside 0 to 255. *)
Theorem tobytes_latin1 :
  (∀ s b, tobytes s = Returns b → tobytes (OfBytes b) = Returns b) ∧
  (∀ s, match tobytes (OfStr s) with
        | Returns b => decode_latin1 b = s ∧ Forall (λ c, (c ≤ 255)%N) s
        | Raises e =>
            ∃ p c, e = UnicodeEncodeError p ∧ s !! p = Some c ∧ (255 < c)%N ∧
                   ∀ q c', q < p → s !! q = Some c' → (c' ≤ 255)%N
        end) ∧
  (∀ b, tobytes (OfStr (decode_latin1 b)) = Returns b) ∧
  (∀ s, match tobytes (OfInts s) with
        | Returns b => (λ x, Z.of_N (Byte.to_N x)) <$> b = s
        | Raises e => e = ValueError ∧ ∃ i, i ∈ s ∧ ¬ (0 ≤ i < 256)%Z
        end).
Proof.
  split; [done|]. split; [|split].
  - intros s. simpl. pose proof (encode_latin1_spec s 0) as Hspec.
    destruct (encode_latin1 0 s) as [b|e]; [|done].
    split; [done|]. rewrite <- Hspec. unfold decode_latin1.
    apply Forall_fmap, Forall_forall. intros x _. apply Byte.to_N_bounded.
  - intros b. apply encode_latin1_decode.
  - intros s. simpl. induction s as [|i rest IH]; simpl; [done|].
    destruct (byte_of_int i) as [b|e] eqn:Hb.
    + apply byte_of_int_range in Hb as [_ Hb].
      destruct (bytes_of_ints rest) as [bs|e].
      * change ((λ x, Z.of_N (Byte.to_N x)) <$> (b :: bs) = i :: rest).
        by rewrite fmap_cons, Hb, IH.
      * destruct IH as (-> & j & Hj & Hout). split; [done|].
        exists j. split; [by right|done].
    + assert (e = ValueError ∧ ¬ (0 ≤ i < 256)%Z) as [-> Hout].
      { unfold byte_of_int in Hb. destruct (Z.ltb_spec i 0).
        - injection Hb as <-. split; [done|lia].
        - destruct (Byte.of_N (Z.to_N i)) eqn:Hn; [done|].
          injection Hb as <-. apply Byte.of_N_None_iff in Hn. split; [done|lia]. }
      split; [done|]. exists i. split; [by left|done].
Qed.

Lemma bchr_bord_inverse_witness :
  (0 ≤ 233 < 256)%Z ∧ ∃ b, bchr 233 = Returns [b] ∧ bord [b] = Returns 233%Z.
Proof.
  assert (0 ≤ 233 < 256)%Z as Hrange by lia.
  split; [exact Hrange|]. exact (proj1 bchr_bord_inverse 233%Z Hrange).
Defined.

Lemma tobytes_latin1_witness :
  tobytes (OfStr [99; 97; 102; 233]%N) = Returns [Byte.x63; Byte.x61; Byte.x66; Byte.xe9] ∧
  tobytes (OfBytes [Byte.x63; Byte.x61; Byte.x66; Byte.xe9])
  = Returns [Byte.x63; Byte.x61; Byte.x66; Byte.xe9].
Proof.
  assert (tobytes (OfStr [99; 97; 102; 233]%N)
          = Returns [Byte.x63; Byte.x61; Byte.x66; Byte.xe9]) as Hrun by reflexivity.
  split; [exact Hrun|].
  exact (proj1 tobytes_latin1 _ _ Hrun).
Defined.

End Compat.

(** ** The [default] statement *)

Module Defaults.

Inductive Error : Type :=
| KeyError (key : string)
| TypeError
| AttributeError
| Exception (msg : string)
| EvalError.

Inductive Outcome (A : Type) : Type :=
| Returns (a : A)
| Raises (e : Error).
Arguments Returns {A} a.
Arguments Raises {A} e.

(** The values an expression yields here. *)
Inductive Scalar : Type :=
| SNone
| SBool (b : bool)
| SInt (z : Z)
| SStr (s : string).

(** What a store dictionary holds under a key: a value, or the set of
    names kept under [_defaults_set]. *)
Inductive Obj : Type :=
| Plain (v : Scalar)
| Names (names : gset string).

(** A store dictionary, with its [ever_been_changed] set. *)
Record StoreDict : Type := mkStoreDict {
  entries : gmap string Obj;
  ever_been_changed : gset string;
}.

(** [renpy.python.store_dicts]. *)
Notation World := (gmap string StoreDict).

Definition scalar_truthy (v : Scalar) : bool :=
  match v with
  | SNone => false
  | SBool b => b
  | SInt z => negb (z =? 0)%Z
  | SStr s => negb (String.eqb s "")
  end.

(** [x in s] for strings: [x] occurs in [s]. *)
Fixpoint occurs_in (x s : string) : bool :=
  String.prefix x s ||
  match s with
  | EmptyString => false
  | String _ rest => occurs_in x rest
  end.

(** [varname in defaults_set]. *)
Definition contains_name (varname : string) (defaults_set : Obj) : Outcome bool :=
  match defaults_set with
  | Names names => Returns (bool_decide (varname ∈ names))
  | Plain (SStr s) => Returns (occurs_in varname s)
  | Plain _ => Raises TypeError
  end.

(** The first step of the normal branch: [d.get("_defaults_set", None)],
    and a fresh set under that key if there is none. *)
Definition ensure_defaults_set (d : StoreDict) : Obj * StoreDict :=
  match entries d !! "_defaults_set" with
  | None | Some (Plain SNone) =>
      (Names ∅,
       mkStoreDict (<["_defaults_set" := Names ∅]> (entries d))
         ({["_defaults_set"]} ∪ ever_been_changed d))
  | Some o => (o, d)
  end.

Record Default : Type := mkDefault {
  default_store : string;
  varname : string;
  code : string;
}.

Definition second_time (self : Default) : Error :=
  Exception (default_store self +:+ "." +:+ varname self
             +:+ " is being given a default a second time.").

Definition store_exists (self : Default) : Error :=
  Exception (default_store self +:+ "." +:+ varname self
             +:+ " is being given a default, but a store with that name already exists.").

Section execute.
(** [renpy.config.special_namespaces] (its keys) and the [set_default]
    of those namespaces; [renpy.config.developer]. *)
Variable special_namespaces : gset string.
Variable set_default : string → string → Scalar → World → Outcome unit * World.
Variable developer : Scalar.
(** [renpy.python.py_eval_bytecode(self.code.bytecode)]: the value of the
    expression in the stores as they are, or an exception.  Expressions
    are evaluated for their value; one that itself writes to the stores
    is outside this model. *)
Variable py_eval_bytecode : string → World → Outcome Scalar.

(** [Default.execute_default(start)]. *)
Definition execute_default (self : Default) (start : bool) (w : World)
    : Outcome unit * World :=
  if bool_decide (default_store self ∈ special_namespaces) then
    match py_eval_bytecode (code self) w with
    | Raises e => (Raises e, w)
    | Returns value => set_default (default_store self) (varname self) value w
    end
  else
    match w !! default_store self with
    | None => (Raises (KeyError (default_store self)), w)
    | Some d =>
        let '(defaults_set, d) := ensure_defaults_set d in
        let w := <[default_store self := d]> w in
        match contains_name (varname self) defaults_set with
        | Raises e => (Raises e, w)
        | Returns true =>
            if start && scalar_truthy developer
            then (Raises (second_time self), w)
            else (Returns tt, w)
        | Returns false =>
            if start && match developer with SBool true => true | _ => false end
               && bool_decide
                    (is_Some (w !! (default_store self +:+ "." +:+ varname self)))
            then (Raises (store_exists self), w)
            else
              let assigned : Outcome (option Scalar) :=
                if start || bool_decide (varname self ∉ ever_been_changed d) then
                  match py_eval_bytecode (code self) w with
                  | Returns value => Returns (Some value)
                  | Raises e => Raises e
                  end
                else Returns None in
              match assigned with
              | Raises e => (Raises e, w)
              | Returns value =>
                  let d :=
                    mkStoreDict
                      match value with
                      | Some v => <[varname self := Plain v]> (entries d)
                      | None => entries d
                      end
                      ({[varname self]} ∪ ever_been_changed d) in
                  (* [defaults_set.add(self.varname)] acts on the set
                     object; the dictionary still holds it unless the
                     assignment has just replaced it *)
                  match defaults_set with
                  | Names names =>
                      let replaced :=
                        bool_decide (varname self = "_defaults_set")
                        && bool_decide (is_Some value) in
                      let d :=
                        if replaced then d
                        else mkStoreDict
                               (<["_defaults_set" := Names ({[varname self]} ∪ names)]>
                                  (entries d))
                               (ever_been_changed d) in
                      (Returns tt, <[default_store self := d]> w)
                  | Plain _ => (Raises AttributeError, <[default_store self := d]> w)
                  end
              end
        end
    end.

(** *** The set of names that were given a default *)

Lemma ensure_defaults_set_spec d :
  let '(o, d1) := ensure_defaults_set d in
  entries d1 !! "_defaults_set" = Some o ∧
  o ≠ Plain SNone ∧
  (∀ x, x ≠ "_defaults_set" → entries d1 !! x = entries d !! x) ∧
  (∀ x, x ≠ "_defaults_set" →
     x ∈ ever_been_changed d1 ↔ x ∈ ever_been_changed d) ∧
  ever_been_changed d ⊆ ever_been_changed d1 ∧
  ensure_defaults_set d1 = (o, d1).
Proof.
  unfold ensure_defaults_set.
  destruct (entries d !! "_defaults_set") as [[[]|]|] eqn:Hd; simpl;
    try (rewrite Hd; repeat split; (done || set_solver)).
  - rewrite lookup_insert_eq. repeat split; try done; try set_solver.
    intros x Hx. by rewrite lookup_insert_ne.
  - rewrite lookup_insert_eq. repeat split; try done; try set_solver.
    intros x Hx. by rewrite lookup_insert_ne.
Qed.

Lemma execute_default_normal self start w :
  default_store self ∉ special_namespaces →
  execute_default self start w
  = match w !! default_store self with
    | None => (Raises (KeyError (default_store self)), w)
    | Some d =>
        let '(defaults_set, d) := ensure_defaults_set d in
        let w := <[default_store self := d]> w in
        match contains_name (varname self) defaults_set with
        | Raises e => (Raises e, w)
        | Returns true =>
            if start && scalar_truthy developer
            then (Raises (second_time self), w)
            else (Returns tt, w)
        | Returns false =>
            if start && match developer with SBool true => true | _ => false end
               && bool_decide
                    (is_Some (w !! (default_store self +:+ "." +:+ varname self)))
            then (Raises (store_exists self), w)
            else
              let assigned : Outcome (option Scalar) :=
                if start || bool_decide (varname self ∉ ever_been_changed d) then
                  match py_eval_bytecode (code self) w with
                  | Returns value => Returns (Some value)
                  | Raises e => Raises e
                  end
                else Returns None in
              match assigned with
              | Raises e => (Raises e, w)
              | Returns value =>
                  let d :=
                    mkStoreDict
                      match value with
                      | Some v => <[varname self := Plain v]> (entries d)
                      | None => entries d
                      end
                      ({[varname self]} ∪ ever_been_changed d) in
                  match defaults_set with
                  | Names names =>
                      let replaced :=
                        bool_decide (varname self = "_defaults_set")
                        && bool_decide (is_Some value) in
                      let d :=
                        if replaced then d
                        else mkStoreDict
                               (<["_defaults_set" := Names ({[varname self]} ∪ names)]>
                                  (entries d))
                               (ever_been_changed d) in
                      (Returns tt, <[default_store self := d]> w)
                  | Plain _ => (Raises AttributeError, <[default_store self := d]> w)
                  end
              end
        end
    end.
Proof.
  intros Hnormal. unfold execute_default. by rewrite bool_decide_eq_false_2.
Qed.

(** When a default has been given, the store holds a set with the name
    in it. *)
Lemma execute_default_recorded self start w w' :
  default_store self ∉ special_namespaces →
  varname self ≠ "_defaults_set" →
  execute_default self start w = (Returns tt, w') →
  ∃ d' o,
    w' !! default_store self = Some d' ∧
    entries d' !! "_defaults_set" = Some o ∧ o ≠ Plain SNone ∧
    contains_name (varname self) o = Returns true.
Proof.
  intros Hnormal Hvar. rewrite execute_default_normal by done.
  destruct (w !! default_store self) as [d|]; [|discriminate].
  pose proof (ensure_defaults_set_spec d) as Hens.
  destruct (ensure_defaults_set d) as [o d1].
  destruct Hens as (Ho & Hnone & _). simpl.
  destruct (contains_name (varname self) o) as [[|]|e] eqn:Hin; [| |discriminate].
  - destruct (start && scalar_truthy developer); [discriminate|].
    intros [= <-]. exists d1, o. by rewrite lookup_insert_eq.
  - destruct (_ && _ && _); [discriminate|].
    destruct (start || bool_decide (varname self ∉ ever_been_changed d1)).
    + destruct (py_eval_bytecode _ _) as [v|e]; [|discriminate].
      destruct o as [p|names]; [discriminate|].
      rewrite bool_decide_eq_false_2 by done. simpl.
      intros [= <-]. eexists _, _. rewrite lookup_insert_eq.
      split; [done|]. simpl. rewrite lookup_insert_eq.
      split; [done|]. split; [done|].
      simpl. f_equal. apply bool_decide_eq_true_2. set_solver.
    + destruct o as [p|names]; [discriminate|].
      rewrite andb_false_r.
      intros [= <-]. eexists _, _. rewrite lookup_insert_eq.
      split; [done|]. simpl. rewrite lookup_insert_eq.
      split; [done|]. split; [done|].
      simpl. f_equal. apply bool_decide_eq_true_2. set_solver.
Qed.

(** X22. A default is given once.  After [execute_default] has returned
    for a variable of a normal store, running it again changes nothing:
    it returns at once, without evaluating the expression, except at the
    start of a game in developer mode, where it raises "is being given a
    default a second time" (and still changes nothing). *)
Theorem default_given_once self start w w' :
  default_store self ∉ special_namespaces →
  varname self ≠ "_defaults_set" →
  execute_default self start w = (Returns tt, w') →
  ∀ again,
    execute_default self again w'
    = (if again && scalar_truthy developer
       then Raises (second_time self) else Returns tt, w').
Proof.
  intros Hnormal Hvar Hrun again.
  destruct (execute_default_recorded self start w w' Hnormal Hvar Hrun)
    as (d' & o & Hd' & Ho & Hnone & Hin).
  rewrite execute_default_normal by done. rewrite Hd'.
  unfold ensure_defaults_set. rewrite Ho.
  assert (match o with
          | Plain SNone =>
              (Names ∅,
               mkStoreDict (<["_defaults_set" := Names ∅]> (entries d'))
                 ({["_defaults_set"]} ∪ ever_been_changed d'))
          | _ => (o, d')
          end = (o, d')) as -> by (by destruct o as [[]|]).
  simpl. rewrite Hin. rewrite (insert_id w') by done.
  by destruct (again && scalar_truthy developer).
Qed.

(** X23. What a first default does to the variable.  For a variable of a
    normal store that has no default yet (and no store of the same full
    name, at the start of a game in developer mode): at the start of a
    game, or when the variable has never been changed, the expression is
    evaluated and its value stored, and an error of the evaluation is
    raised; otherwise (a game being loaded, the variable changed before)
    the expression is not evaluated and the variable keeps what it had.
    Where the call returns, the variable counts as changed. *)
Theorem default_assigns_when_due self start w d :
  default_store self ∉ special_namespaces →
  varname self ≠ "_defaults_set" →
  w !! default_store self = Some d →
  (entries d !! "_defaults_set" = None ∨
   ∃ names, entries d !! "_defaults_set" = Some (Names names) ∧
            varname self ∉ names) →
  (start = true → developer = SBool true →
   w !! (default_store self +:+ "." +:+ varname self) = None) →
  let w1 := <[default_store self := (ensure_defaults_set d).2]> w in
  let r := execute_default self start w in
  if start || bool_decide (varname self ∉ ever_been_changed d) then
    match py_eval_bytecode (code self) w1 with
    | Returns v =>
        r.1 = Returns tt ∧
        ∃ d', r.2 !! default_store self = Some d' ∧
              entries d' !! varname self = Some (Plain v) ∧
              varname self ∈ ever_been_changed d'
    | Raises e => r = (Raises e, w1)
    end
  else
    r.1 = Returns tt ∧
    ∃ d', r.2 !! default_store self = Some d' ∧
          entries d' !! varname self = entries d !! varname self ∧
          varname self ∈ ever_been_changed d'.
Proof.
  intros Hnormal Hvar Hd Hfresh Hshadow. simpl.
  rewrite execute_default_normal by done. rewrite Hd.
  pose proof (ensure_defaults_set_spec d) as Hens.
  assert (∃ names, (ensure_defaults_set d).1 = Names names ∧ varname self ∉ names)
    as (names & Ho & Hnotin).
  { unfold ensure_defaults_set.
    destruct Hfresh as [->|(names & -> & Hn)]; simpl; eauto.
    exists ∅. split; [done|]. set_solver. }
  destruct (ensure_defaults_set d) as [o d1]. simpl in *. subst o.
  destruct Hens as (Hset & _ & Hkeep & Hchanged & _ & _).
  unfold contains_name.
  rewrite (bool_decide_eq_false_2 (varname self ∈ names)) by done.
  assert (start && match developer with SBool true => true | _ => false end
          && bool_decide
               (is_Some (<[default_store self := d1]> w
                           !! (default_store self +:+ "." +:+ varname self)))
          = false) as ->.
  { destruct start; [|done]. destruct developer as [|[|]| |]; try done. simpl.
    apply bool_decide_eq_false_2. intros His.
    apply lookup_insert_is_Some in His as [Heq|[_ His]].
    - specialize (Hshadow eq_refl eq_refl). rewrite <- Heq in Hshadow. congruence.
    - rewrite Hshadow in His by done. by destruct His. }
  assert (bool_decide (varname self ∉ ever_been_changed d1)
          = bool_decide (varname self ∉ ever_been_changed d)) as ->.
  { apply bool_decide_ext. by rewrite Hchanged. }
  rewrite (bool_decide_eq_false_2 (varname self = "_defaults_set")) by done. simpl.
  destruct (start || bool_decide (varname self ∉ ever_been_changed d)).
  - destruct (py_eval_bytecode (code self) (<[default_store self := d1]> w))
      as [v|e]; [|done].
    simpl. split; [done|]. eexists. rewrite lookup_insert_eq. split; [done|].
    simpl. rewrite lookup_insert_ne by done. rewrite lookup_insert_eq.
    split; [done|]. set_solver.
  - simpl. split; [done|]. eexists. rewrite lookup_insert_eq. split; [done|].
    simpl. rewrite lookup_insert_ne by done. split; [by apply Hkeep|]. set_solver.
Qed.

(** X24. A default touches nothing but its own variable.  In a normal
    store, [execute_default] leaves every other store as it was, whether
    it returns or raises; in its own store it changes no entry other than
    the variable and [_defaults_set], and removes no name from
    [ever_been_changed].  If the store does not exist it raises
    [KeyError] and changes nothing. *)
Theorem default_touches_own_variable self start w :
  default_store self ∉ special_namespaces →
  let r := execute_default self start w in
  (∀ other, other ≠ default_store self → r.2 !! other = w !! other) ∧
  (∀ d, w !! default_store self = Some d →
     ∃ d', r.2 !! default_store self = Some d' ∧
           ever_been_changed d ⊆ ever_been_changed d' ∧
           ∀ x, x ≠ varname self → x ≠ "_defaults_set" →
                entries d' !! x = entries d !! x) ∧
  (w !! default_store self = None →
     r = (Raises (KeyError (default_store self)), w)).
Proof.
  intros Hnormal. simpl. rewrite execute_default_normal by done.
  destruct (w !! default_store self) as [d|] eqn:Hd; [|by split; [|split]].
  pose proof (ensure_defaults_set_spec d) as Hens.
  destruct (ensure_defaults_set d) as [o d1].
  destruct Hens as (_ & _ & Hkeep & _ & Hsub & _). simpl.
  assert (∀ (res : Outcome unit) (d' : StoreDict),
            ever_been_changed d ⊆ ever_been_changed d' →
            (∀ x, x ≠ varname self → x ≠ "_defaults_set" →
                  entries d' !! x = entries d !! x) →
            (∀ other, other ≠ default_store self →
               (res, <[default_store self := d']> w).2 !! other = w !! other) ∧
            (∀ d0, Some d = Some d0 →
               ∃ d'0, (res, <[default_store self := d']> w).2
                        !! default_store self = Some d'0 ∧
                      ever_been_changed d0 ⊆ ever_been_changed d'0 ∧
                      ∀ x, x ≠ varname self → x ≠ "_defaults_set" →
                           entries d'0 !! x = entries d0 !! x) ∧
            (Some d = None →
               (res, <[default_store self := d']> w)
               = (Raises (KeyError (default_store self)), w))) as Hframe.
  { intros res d' Hs He. simpl. split; [|split; [|done]].
    - intros other Hother. by rewrite lookup_insert_ne.
    - intros d0 [= <-]. exists d'. by rewrite lookup_insert_eq. }
  assert (∀ x, x ≠ varname self → x ≠ "_defaults_set" →
               entries d1 !! x = entries d !! x) as Hkeep1
    by (intros x _ Hx; by apply Hkeep).
  destruct (contains_name (varname self) o) as [[|]|e]; [| |by apply Hframe].
  - destruct (start && scalar_truthy developer); by apply Hframe.
  - destruct (_ && _ && _); [by apply Hframe|].
    destruct (start || bool_decide (varname self ∉ ever_been_changed d1)); simpl.
    + destruct (py_eval_bytecode _ _) as [v|e]; [|by apply Hframe].
      destruct o as [p|names]; [|destruct (_ && _)];
        rewrite !insert_insert_eq;
        (apply Hframe; simpl;
         [etrans; [exact Hsub|apply union_subseteq_r]
         |intros x Hx Hx';
          rewrite ?(lookup_insert_ne _ "_defaults_set") by done;
          rewrite lookup_insert_ne by done; by apply Hkeep]).
    + destruct o as [p|names]; [|destruct (_ && _)];
        rewrite !insert_insert_eq;
        (apply Hframe; simpl;
         [etrans; [exact Hsub|apply union_subseteq_r]
         |intros x Hx Hx';
          rewrite ?(lookup_insert_ne _ "_defaults_set") by done;
          by apply Hkeep]).
Qed.

End execute.

(** *** A game variable *)

Definition points : Default := mkDefault "store" "points" "0".

(** An evaluator for integer literals of one digit. *)
Definition digit_eval (source : string) (w : World) : Outcome Scalar :=
  if String.eqb source "0" then Returns (SInt 0) else Raises EvalError.

Definition no_special (store_name var : string) (v : Scalar) (w : World)
    : Outcome unit * World :=
  (Returns tt, w).

(** A game being loaded, in which [points] was changed to 7. *)
Definition loaded_game : World :=
  {["store" := mkStoreDict {["points" := Plain (SInt 7)]} {["points"]}]}.

Lemma default_given_once_witness :
  let r := execute_default ∅ no_special (SBool true) digit_eval points true
             {["store" := mkStoreDict ∅ ∅]} in
  r.1 = Returns tt ∧
  execute_default ∅ no_special (SBool true) digit_eval points true r.2
  = (Raises (second_time points), r.2) ∧
  execute_default ∅ no_special (SBool true) digit_eval points false r.2
  = (Returns tt, r.2).
Proof.
  intros r.
  assert (default_store points ∉ (∅ : gset string)) as Hnormal by set_solver.
  assert (varname points ≠ "_defaults_set") as Hvar by discriminate.
  assert (r = (Returns tt, r.2)) as Hrun by reflexivity.
  split; [reflexivity|].
  pose proof (default_given_once ∅ no_special (SBool true) digit_eval points true
                _ _ Hnormal Hvar Hrun) as Hagain.
  split; [exact (Hagain true)|exact (Hagain false)].
Defined.

Lemma default_assigns_when_due_witness :
  let r := execute_default ∅ no_special (SBool false) digit_eval points false
             loaded_game in
  r.1 = Returns tt ∧
  ∃ d', r.2 !! "store" = Some d' ∧
        entries d' !! "points" = Some (Plain (SInt 7)).
Proof.
  intros r.
  assert (default_store points ∉ (∅ : gset string)) as Hnormal by set_solver.
  assert (varname points ≠ "_defaults_set") as Hvar by discriminate.
  destruct (default_assigns_when_due ∅ no_special (SBool false) digit_eval points
              false loaded_game
              (mkStoreDict {["points" := Plain (SInt 7)]} {["points"]})
              Hnormal Hvar eq_refl (or_introl eq_refl)
              (λ H : false = true, ltac:(discriminate H)))
    as (Hok & d' & Hd' & Hvalue & _).
  split; [exact Hok|]. exists d'. split; [exact Hd'|exact Hvalue].
Defined.

Lemma default_touches_own_variable_witness :
  default_store points ∉ (∅ : gset string) ∧
  (execute_default ∅ no_special (SBool false) digit_eval points true
     loaded_game).2 !! "store.audio"
  = loaded_game !! "store.audio".
Proof.
  assert (default_store points ∉ (∅ : gset string)) as Hnormal by set_solver.
  split; [exact Hnormal|].
  exact (proj1 (default_touches_own_variable ∅ no_special (SBool false) digit_eval
                  points true loaded_game Hnormal) "store.audio" ltac:(discriminate)).
Defined.

End Defaults.

(** ** [PyCode.dedent] *)

Module Dedent.

Definition space : ascii := " "%char.
Definition newline : ascii := ascii_of_nat 10.

(** [s.startswith(p)]. *)
Fixpoint startswith (s p : string) : bool :=
  match p, s with
  | EmptyString, _ => true
  | String x p', String y s' => Ascii.eqb x y && startswith s' p'
  | String _ _, EmptyString => false
  end.

(** [s[n:]]. *)
Fixpoint skip (n : nat) (s : string) : string :=
  match n, s with
  | S n', String _ s' => skip n' s'
  | _, _ => s
  end.

(** The lines of a text: what lies between its newline characters. *)
Fixpoint split_lines (text : string) : list string :=
  match text with
  | EmptyString => [EmptyString]
  | String c rest =>
      if Ascii.eqb c newline then EmptyString :: split_lines rest
      else match split_lines rest with
           | line :: lines => String c line :: lines
           | [] => [String c EmptyString]
           end
  end.

Fixpoint join_lines (lines : list string) : string :=
  match lines with
  | [] => EmptyString
  | line :: rest =>
      match rest with
      | [] => line
      | _ :: _ => line +:+ String newline (join_lines rest)
      end
  end.

(** The run of spaces a line starts with: the group of the pattern. *)
Fixpoint leading_spaces (line : string) : string :=
  match line with
  | String c rest =>
      if Ascii.eqb c space then String c (leading_spaces rest) else EmptyString
  | EmptyString => EmptyString
  end.

(** Whether a character other than a space follows the leading spaces
    within the line. *)
Fixpoint has_text (line : string) : bool :=
  match line with
  | String c rest => if Ascii.eqb c space then has_text rest else true
  | EmptyString => false
  end.

(** [_leading_whitespace_re.findall(text)].  The pattern, under
    [re.MULTILINE], is a group of spaces at the start of a line followed
    by one character that is not a space: it yields, at the start of every
    line, the leading spaces, provided a character other than a space
    follows them.  The newline that ends a line is such a character, so
    only the last line can fail to match. *)
Fixpoint line_indents (lines : list string) : list string :=
  match lines with
  | [] => []
  | line :: rest =>
      match rest with
      | [] => if has_text line then [leading_spaces line] else []
      | _ :: _ => leading_spaces line :: line_indents rest
      end
  end.

Definition findall_indents (text : string) : list string :=
  line_indents (split_lines text).

(** [for i, (x, y) in enumerate(zip(margin, indent)):
       if x != y: margin = margin[:i]; break]: the new margin, if a
    difference is found. *)
Fixpoint cut_at_difference (margin indent : string) : option string :=
  match margin, indent with
  | String x m, String y i =>
      if Ascii.eqb x y then String x <$> cut_at_difference m i
      else Some EmptyString
  | _, _ => None
  end.

(** One turn of the loop over the indents. *)
Definition narrow (margin : option string) (indent : string) : option string :=
  match margin with
  | None => Some indent
  | Some m =>
      if startswith indent m then Some m
      else if startswith m indent then Some indent
      else Some (default m (cut_at_difference m indent))
  end.

Definition find_margin (text : string) : option string :=
  fold_left narrow (findall_indents text) None.

(** One line under [re.sub(r"(?m)^" + margin, "", text)]. *)
Definition strip_margin (margin line : string) : string :=
  if startswith line margin then skip (String.length margin) line else line.

(** [PyCode.dedent(text)]. *)
Definition dedent (text : string) : string * nat :=
  match find_margin text with
  | Some (String c m) =>
      (join_lines (strip_margin (String c m) <$> split_lines text),
       String.length (String c m))
  | _ => (text, 0)
  end.

(** *** Indents are runs of spaces *)

Fixpoint spaces (n : nat) : string :=
  match n with
  | O => EmptyString
  | S n' => String space (spaces n')
  end.

(** The number of spaces a line starts with. *)
Definition indent_width (line : string) : nat :=
  String.length (leading_spaces line).

Lemma length_spaces n : String.length (spaces n) = n.
Proof. induction n; simpl; congruence. Qed.

Lemma leading_spaces_spaces line :
  leading_spaces line = spaces (indent_width line).
Proof.
  unfold indent_width. induction line as [|c rest IH]; simpl; [done|].
  destruct (Ascii.eqb_spec c space) as [->|Hne]; simpl; [|done].
  by rewrite <- IH.
Qed.

Lemma indent_width_spaces n : indent_width (spaces n) = n.
Proof.
  unfold indent_width. induction n as [|n IH]; simpl; [done|]. by f_equal.
Qed.

Lemma startswith_spaces n : ∀ line,
  startswith line (spaces n) = bool_decide (n ≤ indent_width line).
Proof.
  unfold indent_width.
  induction n as [|n IH]; intros line.
  - destruct line; simpl; symmetry;
      (done || (apply bool_decide_eq_true_2; lia)).
  - destruct line as [|c rest]; [done|].
    change (startswith (String c rest) (spaces (S n)))
      with (Ascii.eqb space c && startswith rest (spaces n)).
    change (leading_spaces (String c rest))
      with (if Ascii.eqb c space then String c (leading_spaces rest)
            else EmptyString).
    destruct (Ascii.eqb_spec c space) as [->|Hne].
    + rewrite Ascii.eqb_refl, IH. simpl. apply bool_decide_ext. lia.
    + by destruct (Ascii.eqb_spec space c) as [<-|_].
Qed.

Lemma narrow_spaces a b :
  narrow (Some (spaces a)) (spaces b) = Some (spaces (a `min` b)).
Proof.
  unfold narrow. rewrite !startswith_spaces, !indent_width_spaces.
  destruct (decide (a ≤ b)) as [Hle|Hgt].
  - rewrite bool_decide_eq_true_2 by done. by rewrite Nat.min_l.
  - rewrite bool_decide_eq_false_2 by done.
    rewrite bool_decide_eq_true_2 by lia. by rewrite Nat.min_r by lia.
Qed.

Lemma fold_narrow_spaces ks : ∀ a,
  fold_left narrow (spaces <$> ks) (Some (spaces a))
  = Some (spaces (foldl Nat.min a ks)).
Proof.
  induction ks as [|k ks IH]; intros a; [done|].
  change (fold_left narrow (spaces <$> k :: ks) (Some (spaces a)))
    with (fold_left narrow (spaces <$> ks) (narrow (Some (spaces a)) (spaces k))).
  rewrite narrow_spaces. apply IH.
Qed.

Lemma foldl_min_spec ks : ∀ a,
  foldl Nat.min a ks ≤ a ∧
  (∀ k, k ∈ ks → foldl Nat.min a ks ≤ k) ∧
  (foldl Nat.min a ks = a ∨ foldl Nat.min a ks ∈ ks).
Proof.
  induction ks as [|k ks IH]; intros a; simpl.
  - split; [done|]. split; [|by left]. intros k Hk. by apply elem_of_nil in Hk.
  - destruct (IH (a `min` k)) as (Hle & Hall & Hin).
    split; [lia|]. split.
    + intros k' Hk'. apply elem_of_cons in Hk' as [->|Hk']; [lia|by apply Hall].
    + destruct Hin as [Heq|Hin]; [|right; by right].
      destruct (Nat.min_spec a k) as [[_ Hm]|[_ Hm]]; rewrite Hm in *.
      * by left.
      * right. rewrite Heq. by left.
Qed.

(** The least of a list of widths, 0 for the empty list. *)
Definition least (widths : list nat) : nat :=
  match widths with
  | [] => 0
  | k :: ks => foldl Nat.min k ks
  end.

Lemma least_spec widths :
  (∀ k, k ∈ widths → least widths ≤ k) ∧
  (widths ≠ [] → least widths ∈ widths).
Proof.
  destruct widths as [|k ks]; simpl.
  - split; [|done]. intros k Hk. by apply elem_of_nil in Hk.
  - destruct (foldl_min_spec ks k) as (Hle & Hall & Hin). split.
    + intros k' Hk'. apply elem_of_cons in Hk' as [->|Hk']; [done|by apply Hall].
    + intros _. destruct Hin as [->|Hin]; [by left|by right].
Qed.

(** The widths of the indents [findall] reports. *)
Fixpoint line_widths (lines : list string) : list nat :=
  match lines with
  | [] => []
  | line :: rest =>
      match rest with
      | [] => if has_text line then [indent_width line] else []
      | _ :: _ => indent_width line :: line_widths rest
      end
  end.

Lemma line_indents_widths lines :
  line_indents lines = spaces <$> line_widths lines.
Proof.
  induction lines as [|line rest IH]; simpl; [done|].
  destruct rest as [|l2 rest'].
  - destruct (has_text line); simpl; [|done]. by rewrite leading_spaces_spaces.
  - rewrite IH. simpl. by rewrite leading_spaces_spaces.
Qed.

Lemma find_margin_least text :
  find_margin text
  = match line_widths (split_lines text) with
    | [] => None
    | widths => Some (spaces (least widths))
    end.
Proof.
  unfold find_margin, findall_indents. rewrite line_indents_widths.
  destruct (line_widths (split_lines text)) as [|k ks]; simpl; [done|].
  apply fold_narrow_spaces.
Qed.

Lemma strip_margin_spaces n line :
  strip_margin (spaces n) line
  = if bool_decide (n ≤ indent_width line) then skip n line else line.
Proof. unfold strip_margin. by rewrite startswith_spaces, length_spaces. Qed.

Lemma dedent_least text :
  let n := least (line_widths (split_lines text)) in
  dedent text
  = if bool_decide (n = 0) then (text, 0)
    else (join_lines (strip_margin (spaces n) <$> split_lines text), n).
Proof.
  simpl. unfold dedent. rewrite find_margin_least.
  destruct (line_widths (split_lines text)) as [|k ks] eqn:Hw; [done|].
  destruct (least (k :: ks)) as [|n]; [done|].
  rewrite bool_decide_eq_false_2 by done.
  simpl. by rewrite length_spaces.
Qed.

(** *** Splitting and joining *)

Fixpoint has_newline (s : string) : bool :=
  match s with
  | String c rest => Ascii.eqb c newline || has_newline rest
  | EmptyString => false
  end.

Lemma split_lines_cons text : ∃ line lines, split_lines text = line :: lines.
Proof.
  destruct text as [|c rest]; simpl; [eauto|].
  destruct (Ascii.eqb c newline); [eauto|].
  destruct (split_lines rest); eauto.
Qed.

Lemma join_lines_cons c line lines :
  join_lines (String c line :: lines) = String c (join_lines (line :: lines)).
Proof. simpl. by destruct lines. Qed.

Lemma join_split text : join_lines (split_lines text) = text.
Proof.
  induction text as [|c rest IH]; [done|].
  simpl. destruct (Ascii.eqb_spec c newline) as [->|Hne].
  - destruct (split_lines_cons rest) as (line & lines & Hs).
    rewrite Hs in *. simpl in *. by rewrite IH.
  - destruct (split_lines_cons rest) as (line & lines & Hs).
    rewrite Hs in *. rewrite join_lines_cons. by rewrite IH.
Qed.

Lemma split_lines_no_newline text :
  Forall (λ line, has_newline line = false) (split_lines text).
Proof.
  induction text as [|c rest IH]; simpl; [by repeat constructor|].
  destruct (Ascii.eqb c newline) eqn:Hc; [by constructor|].
  destruct (split_lines rest) as [|line lines]; simpl.
  - repeat constructor. simpl. by rewrite Hc.
  - apply Forall_cons in IH as [Hline Hlines]. constructor; [|done].
    simpl. by rewrite Hc.
Qed.

Lemma split_line line :
  has_newline line = false → split_lines line = [line].
Proof.
  induction line as [|c rest IH]; simpl; [done|].
  destruct (Ascii.eqb c newline); [done|]. simpl. intros Hrest.
  by rewrite IH.
Qed.

Lemma split_line_app line text :
  has_newline line = false →
  split_lines (line +:+ String newline text) = line :: split_lines text.
Proof.
  induction line as [|c rest IH]; simpl.
  - done.
  - destruct (Ascii.eqb c newline); [done|]. simpl. intros Hrest.
    by rewrite IH.
Qed.

Lemma split_join lines :
  lines ≠ [] → Forall (λ line, has_newline line = false) lines →
  split_lines (join_lines lines) = lines.
Proof.
  induction lines as [|line rest IH]; [done|]. intros _ Hall.
  apply Forall_cons in Hall as [Hline Hrest]. simpl.
  destruct rest as [|l2 rest']; [by apply split_line|].
  rewrite split_line_app by done. by rewrite IH.
Qed.

Lemma skip_no_newline n : ∀ line,
  has_newline line = false → has_newline (skip n line) = false.
Proof.
  induction n as [|n IH]; intros [|c rest]; simpl; try done.
  intros Hline. apply orb_false_iff in Hline as [_ Hrest]. by apply IH.
Qed.

Lemma strip_margin_no_newline margin line :
  has_newline line = false → has_newline (strip_margin margin line) = false.
Proof.
  unfold strip_margin. destruct (startswith line margin); [|done].
  apply skip_no_newline.
Qed.

(** *** A line without its margin *)

Lemma skip_indent n : ∀ line,
  n ≤ indent_width line →
  indent_width (skip n line) = indent_width line - n ∧
  has_text (skip n line) = has_text line.
Proof.
  unfold indent_width.
  induction n as [|n IH]; intros line Hn; simpl.
  - destruct line; simpl; split; (done || lia).
  - destruct line as [|c rest]; simpl in *; [lia|].
    destruct (Ascii.eqb c space); simpl in *; [|lia].
    apply IH. lia.
Qed.

Lemma skip_spaces_only n : ∀ line,
  has_text line = false → has_text (skip n line) = false.
Proof.
  induction n as [|n IH]; intros [|c rest]; simpl; try done.
  destruct (Ascii.eqb c space); [|done]. apply IH.
Qed.

Lemma line_widths_stripped n lines :
  (∀ k, k ∈ line_widths lines → n ≤ k) →
  line_widths (strip_margin (spaces n) <$> lines)
  = (λ k, k - n) <$> line_widths lines.
Proof.
  induction lines as [|line rest IH]; intros Hall; [done|].
  destruct rest as [|l2 rest'].
  - simpl in *. rewrite strip_margin_spaces.
    destruct (has_text line) eqn:Htext.
    + assert (n ≤ indent_width line) as Hn by (apply Hall; by left).
      rewrite bool_decide_eq_true_2 by done.
      destruct (skip_indent n line Hn) as [-> ->]. by rewrite Htext.
    + destruct (bool_decide (n ≤ indent_width line)); [|by rewrite Htext].
      by rewrite skip_spaces_only.
  - change (line_widths (line :: l2 :: rest'))
      with (indent_width line :: line_widths (l2 :: rest')) in *.
    change (strip_margin (spaces n) <$> line :: l2 :: rest')
      with (strip_margin (spaces n) line
              :: strip_margin (spaces n) l2
              :: (strip_margin (spaces n) <$> rest')).
    change (line_widths (strip_margin (spaces n) line
              :: strip_margin (spaces n) l2
              :: (strip_margin (spaces n) <$> rest')))
      with (indent_width (strip_margin (spaces n) line)
              :: line_widths (strip_margin (spaces n) <$> l2 :: rest')).
    rewrite IH by (intros k Hk; apply Hall; by right).
    assert (n ≤ indent_width line) as Hn by (apply Hall; by left).
    rewrite strip_margin_spaces, bool_decide_eq_true_2 by done.
    by destruct (skip_indent n line Hn) as [-> _].
Qed.

(** X25. [dedent] removes the least indentation.  The number it returns
    is the smallest count of leading spaces over the lines that count
    (every line but the last, blank ones included, and the last line if it
    holds anything but spaces), and 0 when no line counts; the text it
    returns is the text with that many spaces removed from the start of
    every line that has them.  So a text with an empty line before its
    last line is returned as it is. *)
Theorem dedent_removes_least_indent text :
  let widths := String.length <$> findall_indents text in
  let n := (dedent text).2 in
  (∀ k, k ∈ widths → n ≤ k) ∧
  (widths ≠ [] → n ∈ widths) ∧
  (widths = [] → n = 0) ∧
  (dedent text).1
  = join_lines
      ((λ line, if bool_decide (n ≤ indent_width line) then skip n line else line)
         <$> split_lines text) ∧
  (n = 0 → (dedent text).1 = text).
Proof.
  simpl.
  assert (String.length <$> findall_indents text = line_widths (split_lines text))
    as ->.
  { unfold findall_indents. rewrite line_indents_widths, <- list_fmap_compose.
    rewrite <- (list_fmap_id (line_widths _)) at 2.
    apply list_fmap_ext. intros i k _. simpl. apply length_spaces. }
  pose proof (dedent_least text) as Hd. simpl in Hd.
  destruct (least_spec (line_widths (split_lines text))) as [Hle Hin].
  assert ((dedent text).2 = least (line_widths (split_lines text))) as Hn.
  { rewrite Hd. destruct (bool_decide_reflect
      (least (line_widths (split_lines text)) = 0)) as [->|]; done. }
  rewrite Hn. split; [done|]. split; [done|]. split.
  { by intros ->. }
  split.
  - rewrite Hd.
    destruct (bool_decide_reflect
      (least (line_widths (split_lines text)) = 0)) as [->|Hpos]; simpl.
    + rewrite <- (join_split text) at 1. f_equal.
      rewrite <- (list_fmap_id (split_lines text)) at 1.
      apply list_fmap_ext. intros i line _. simpl. by destruct line.
    + f_equal. apply list_fmap_ext. intros i line _.
      apply strip_margin_spaces.
  - intros H0. rewrite Hd, H0. done.
Qed.

(** X26. [dedent] is idempotent: the text it returns has no indentation
    left to remove, so a second [dedent] returns it unchanged, with
    offset 0. *)
Theorem dedent_idempotent text :
  dedent (dedent text).1 = ((dedent text).1, 0).
Proof.
  pose proof (dedent_least text) as Hd. simpl in Hd. rewrite Hd.
  set (n := least (line_widths (split_lines text))) in *.
  destruct (bool_decide_reflect (n = 0)) as [Hz|Hpos]; simpl.
  { exact Hd. }
  set (text' := join_lines (strip_margin (spaces n) <$> split_lines text)).
  assert (split_lines text' = strip_margin (spaces n) <$> split_lines text)
    as Hsplit.
  { apply split_join.
    - destruct (split_lines_cons text) as (line & lines & ->). done.
    - apply Forall_fmap. eapply Forall_impl; [apply split_lines_no_newline|].
      intros line Hline. by apply strip_margin_no_newline. }
  destruct (least_spec (line_widths (split_lines text))) as [Hle Hin].
  fold n in Hle, Hin.
  assert (line_widths (split_lines text) ≠ []) as Hne.
  { intros Hnil. unfold n in Hpos. by rewrite Hnil in Hpos. }
  pose proof (dedent_least text') as Hd'. simpl in Hd'.
  rewrite Hsplit, line_widths_stripped in Hd' by done.
  assert (least ((λ k, k - n) <$> line_widths (split_lines text)) = 0) as Hz.
  { specialize (Hin Hne).
    destruct (least_spec ((λ k, k - n) <$> line_widths (split_lines text)))
      as [Hle' _].
    assert (n - n ∈ (λ k, k - n) <$> line_widths (split_lines text)) as Hmem
      by (apply list_elem_of_fmap; eauto).
    specialize (Hle' _ Hmem). lia. }
  rewrite Hz in Hd'. by rewrite Hd'.
Qed.

Lemma dedent_removes_least_indent_witness :
  let text := "    if ready:" +:+ String newline "        go()" in
  dedent text = ("if ready:" +:+ String newline "    go()", 4) ∧
  ((dedent text).2 = 0 → (dedent text).1 = text) ∧
  dedent ("  a" +:+ String newline (String newline "  b"))
  = ("  a" +:+ String newline (String newline "  b"), 0).
Proof.
  intros text. split; [reflexivity|]. split; [|reflexivity].
  exact (proj2 (proj2 (proj2 (proj2 (dedent_removes_least_indent text))))).
Defined.

End Dedent.
